(** * A verified model of the [Cookie] class (BJNSTNKVC/js-cookie)

    The development embeds the TypeScript source of [Cookie] (the class of
    [src/main.ts], shipped compiled as [lib/main.umd.js]) together with the
    parts of the JavaScript host it calls: strings, [Number::toString],
    [JSON.stringify], [JSON.parse], [Date] and [document.cookie].

    - A string is the list of its UTF-16 code units ([list N]).
    - A finite number is the decimal [m * 10^e] that [Number::toString]
      prints for it; numerals are read exactly, so the model agrees with the
      host on every numeral a double represents without rounding.  Seconds
      and milliseconds ([ttl], time values) are integers.
    - An attributes object lives in a heap and is passed by reference, as
      the source mutates it in place.
    - [document] and the clock are an interface ([Host]).

    Beside the class, the file embeds the test matcher [toHaveCookie] of
    [tests/setup/matchers.ts] with [encodeURIComponent], and the [get] of
    the compiled build, which differs from the source's. *)

From Stdlib Require Import ZArith NArith String Ascii Lia.
From stdpp Require Import gmap list.

Local Open Scope Z_scope.

(** ** Strings *)

Abbreviation jsstring := (list N).

(** A string literal of the source. *)
Definition str (s : string) : jsstring := N_of_ascii <$> list_ascii_of_string s.

Module JsString.

Fixpoint eqb (s t : jsstring) : bool :=
  match s, t with
  | [], [] => true
  | c :: s', d :: t' => (c =? d)%N && eqb s' t'
  | _, _ => false
  end.

(** [s.startsWith(p)] *)
Fixpoint startsWith (s p : jsstring) {struct p} : bool :=
  match p, s with
  | [], _ => true
  | c :: p', d :: s' => (c =? d)%N && startsWith s' p'
  | _ :: _, [] => false
  end.

(** [s.includes(p)], used by the test matcher [toHaveCookie]. *)
Fixpoint includes (s p : jsstring) : bool :=
  startsWith s p ||
  match s with
  | [] => false
  | _ :: s' => includes s' p
  end.

(** [s.padStart(n, "0")] *)
Definition padStart0 (n : nat) (s : jsstring) : jsstring :=
  replicate (n - length s) 48%N ++ s.

(** The pieces of [s] between the occurrences of a separator that is not
    empty, found from left to right; [piece] is the piece being read and
    [skip] counts the code units of an occurrence still to pass over. *)
Fixpoint split_from (sep : jsstring) (skip : nat) (piece s : jsstring)
  : list jsstring :=
  match s with
  | [] => [piece]
  | c :: s' =>
      match skip with
      | S skip' => split_from sep skip' piece s'
      | O =>
          if startsWith s sep
          then piece :: split_from sep (length sep - 1) [] s'
          else split_from sep 0 (piece ++ [c]) s'
      end
  end.

(** [s.split(sep)] for a string [sep] and no limit; the empty separator
    splits between the code units. *)
Definition split (sep s : jsstring) : list jsstring :=
  match sep with
  | [] => (fun c => [c]) <$> s
  | _ :: _ => split_from sep 0 [] s
  end.

End JsString.

(** ** Decimal digits *)

Module Digits.

Definition digit (d : Z) : N := (48 + Z.to_N d)%N.

Definition is_digit (c : N) : bool := (48 <=? c)%N && (c <=? 57)%N.

Fixpoint decimal_fuel (fuel : nat) (n : Z) : jsstring :=
  match fuel with
  | O => []
  | S fuel' =>
      (if n <? 10 then [] else decimal_fuel fuel' (n / 10)) ++ [digit (n mod 10)]
  end.

(** The decimal digits of a natural number, most significant first. *)
Definition decimal (n : Z) : jsstring :=
  decimal_fuel (S (Z.to_nat (Z.log2 n))) n.

(** The number a run of digits denotes. *)
Definition value (ds : jsstring) : Z :=
  fold_left (fun acc c => 10 * acc + (Z.of_N c - 48)) ds 0.

End Digits.

(** ** Numbers *)

Inductive number :=
| Finite (m e : Z)          (* m * 10^e *)
| NaN
| Infinity (negative : bool).

Module Number.

(** The representation is canonical when the significand carries no
    trailing zero; zero is [Finite 0 0]. *)
Definition wf (x : number) : Prop :=
  match x with
  | Finite m e => if m =? 0 then e = 0 else m mod 10 <> 0
  | _ => True
  end.

(** The same, as a test. *)
Definition canonical (x : number) : bool :=
  match x with
  | Finite m e => if m =? 0 then e =? 0 else negb (m mod 10 =? 0)
  | _ => true
  end.

Fixpoint strip (fuel : nat) (m e : Z) : number :=
  match fuel with
  | O => Finite m e
  | S fuel' =>
      if m =? 0 then Finite 0 0
      else if m mod 10 =? 0 then strip fuel' (m / 10) (e + 1)
      else Finite m e
  end.

(** The canonical representation of [m * 10^e]. *)
Definition make (m e : Z) : number :=
  strip (S (Z.to_nat (Z.log2 (Z.abs m)))) m e.

Definition of_Z (z : Z) : number := make z 0.

Definition isFinite (x : number) : bool :=
  match x with Finite _ _ => true | _ => false end.

(** The digits [ds] of a number laid out with [n] of them before the
    decimal point (negative or large [n]: with zeros or an exponent), as in
    the last steps of [Number::toString]. *)
Definition layout (ds : jsstring) (n : Z) : jsstring :=
  let k := Z.of_nat (length ds) in
  if (k <=? n) && (n <=? 21) then
    ds ++ replicate (Z.to_nat (n - k)) 48%N
  else if (0 <? n) && (n <=? 21) then
    take (Z.to_nat n) ds ++ str "." ++ drop (Z.to_nat n) ds
  else if (-6 <? n) && (n <=? 0) then
    str "0." ++ replicate (Z.to_nat (- n)) 48%N ++ ds
  else
    let exponent :=
      (if n - 1 <? 0 then str "-" else str "+")
      ++ Digits.decimal (Z.abs (n - 1)) in
    match ds with
    | [] => []
    | [d] => [d] ++ str "e" ++ exponent
    | d :: ds' => [d] ++ str "." ++ ds' ++ str "e" ++ exponent
    end.

(** [Number::toString(x)] in radix 10 (ECMA-262, 6.1.6.1.20). *)
Definition toString (x : number) : jsstring :=
  match x with
  | NaN => str "NaN"
  | Infinity false => str "Infinity"
  | Infinity true => str "-Infinity"
  | Finite m e =>
      if m =? 0 then str "0"
      else
        let ds := Digits.decimal (Z.abs m) in
        (if m <? 0 then str "-" else []) ++ layout ds (Z.of_nat (length ds) + e)
  end.

End Number.

(** ** Values *)

(** The values a cookie can be given.  An object is the list of its own
    enumerable string-keyed properties in enumeration order; [VCircular] is
    an object whose property graph reaches itself (as after
    [const o = {}; o.self = o]). *)
Inductive value :=
| VUndefined
| VNull
| VBool (b : bool)
| VNum (n : number)
| VStr (s : jsstring)
| VBigInt (z : Z)
| VCircular
| VArr (elements : list value)
| VObj (properties : list (jsstring * value)).

Inductive type_tag :=
| TUndefined | TObject | TBoolean | TNumber | TString | TBigInt.

(** [typeof v] *)
Definition typeof (v : value) : type_tag :=
  match v with
  | VUndefined => TUndefined
  | VNull => TObject
  | VBool _ => TBoolean
  | VNum _ => TNumber
  | VStr _ => TString
  | VBigInt _ => TBigInt
  | VCircular | VArr _ | VObj _ => TObject
  end.

(** [!!v] *)
Definition truthy (v : value) : bool :=
  match v with
  | VUndefined | VNull => false
  | VBool b => b
  | VNum (Finite m _) => negb (m =? 0)
  | VNum NaN => false
  | VNum (Infinity _) => true
  | VStr s => match s with [] => false | _ => true end
  | VBigInt z => negb (z =? 0)
  | VCircular | VArr _ | VObj _ => true
  end.

(** ** Exceptions *)

Inductive error :=
| Error (message : jsstring)
| TypeError
| SyntaxError.

Inductive completion (A : Type) :=
| Normal (a : A)
| Throw (e : error).
Arguments Normal {A} a.
Arguments Throw {A} e.

(** ** JSON.stringify *)

Module JSON.

Definition hex_digit (d : N) : N :=
  (if d <? 10 then 48 + d else 87 + d)%N.

(** [\uXXXX], in lower case as [UnicodeEscape] prints it. *)
Definition UnicodeEscape (c : N) : jsstring :=
  (str "\u" ++
   [hex_digit (c / 4096 mod 16); hex_digit (c / 256 mod 16);
    hex_digit (c / 16 mod 16); hex_digit (c mod 16)])%N.

Definition is_leading_surrogate (c : N) : bool :=
  (55296 <=? c)%N && (c <=? 56319)%N.
Definition is_trailing_surrogate (c : N) : bool :=
  (56320 <=? c)%N && (c <=? 57343)%N.

(** The body of [QuoteJSONString]: the escaped code units of [s]. *)
Fixpoint quote_units (s : jsstring) : jsstring :=
  match s with
  | [] => []
  | c :: s' =>
      if (c =? 8)%N then str "\b" ++ quote_units s'
      else if (c =? 9)%N then str "\t" ++ quote_units s'
      else if (c =? 10)%N then str "\n" ++ quote_units s'
      else if (c =? 12)%N then str "\f" ++ quote_units s'
      else if (c =? 13)%N then str "\r" ++ quote_units s'
      else if (c =? 34)%N then [92; 34]%N ++ quote_units s'
      else if (c =? 92)%N then [92; 92]%N ++ quote_units s'
      else if (c <? 32)%N then UnicodeEscape c ++ quote_units s'
      else if is_leading_surrogate c then
        match s' with
        | d :: s'' =>
            if is_trailing_surrogate d then c :: d :: quote_units s''
            else UnicodeEscape c ++ quote_units s'
        | [] => UnicodeEscape c
        end
      else if is_trailing_surrogate c then UnicodeEscape c ++ quote_units s'
      else c :: quote_units s'
  end.

Definition QuoteJSONString (s : jsstring) : jsstring :=
  [34%N] ++ quote_units s ++ [34%N].

Fixpoint join (sep : jsstring) (parts : list jsstring) : jsstring :=
  match parts with
  | [] => []
  | [p] => p
  | p :: parts' => p ++ sep ++ join sep parts'
  end.

(** [SerializeJSONProperty]: the text of [v], [None] when the value has no
    JSON form ([undefined]), and a [TypeError] for a BigInt or a circular
    structure. *)
Fixpoint serialize (v : value) : completion (option jsstring) :=
  match v with
  | VUndefined => Normal None
  | VNull => Normal (Some (str "null"))
  | VBool true => Normal (Some (str "true"))
  | VBool false => Normal (Some (str "false"))
  | VNum n =>
      Normal (Some (if Number.isFinite n then Number.toString n else str "null"))
  | VStr s => Normal (Some (QuoteJSONString s))
  | VBigInt _ | VCircular => Throw TypeError
  | VArr elements =>
      let fix items (l : list value) : completion (list jsstring) :=
        match l with
        | [] => Normal []
        | e :: l' =>
            match serialize e with
            | Throw err => Throw err
            | Normal t =>
                match items l' with
                | Throw err => Throw err
                | Normal ts => Normal (default (str "null") t :: ts)
                end
            end
        end in
      match items elements with
      | Throw err => Throw err
      | Normal ts => Normal (Some (str "[" ++ join (str ",") ts ++ str "]"))
      end
  | VObj properties =>
      let fix members (l : list (jsstring * value)) : completion (list jsstring) :=
        match l with
        | [] => Normal []
        | (k, e) :: l' =>
            match serialize e with
            | Throw err => Throw err
            | Normal t =>
                match members l' with
                | Throw err => Throw err
                | Normal ts =>
                    Normal (match t with
                            | Some text => (QuoteJSONString k ++ str ":" ++ text) :: ts
                            | None => ts
                            end)
                end
            end
        end in
      match members properties with
      | Throw err => Throw err
      | Normal ts => Normal (Some (str "{" ++ join (str ",") ts ++ str "}"))
      end
  end.

(** [JSON.stringify(v)] *)
Definition stringify (v : value) : completion (option jsstring) := serialize v.

(** *** JSON.parse *)

(** The outcome of a parsing step: a result and the unread input, a
    syntax error, or recursion fuel exhausted. *)
Inductive parsed (A : Type) :=
| Parsed (a : A) (rest : jsstring)
| Invalid
| OutOfFuel.
Arguments Parsed {A} a rest.
Arguments Invalid {A}.
Arguments OutOfFuel {A}.

(** JSON white space: tab, line feed, carriage return, space. *)
Definition is_ws (c : N) : bool :=
  (c =? 9)%N || (c =? 10)%N || (c =? 13)%N || (c =? 32)%N.

Fixpoint skip_ws (s : jsstring) : jsstring :=
  match s with
  | c :: s' => if is_ws c then skip_ws s' else s
  | [] => []
  end.

Definition hex_value (c : N) : option N :=
  (if (48 <=? c) && (c <=? 57) then Some (c - 48)
   else if (97 <=? c) && (c <=? 102) then Some (c - 87)
   else if (65 <=? c) && (c <=? 70) then Some (c - 55)
   else None)%N.

Definition hex4 (a b c d : N) : option N :=
  match hex_value a, hex_value b, hex_value c, hex_value d with
  | Some x, Some y, Some z, Some w => Some (((x * 16 + y) * 16 + z) * 16 + w)%N
  | _, _, _, _ => None
  end.

(** The characters of a string literal after its opening quote, up to and
    including the closing quote. *)
Fixpoint parse_string (s : jsstring) : option (jsstring * jsstring) :=
  match s with
  | [] => None
  | c :: s' =>
      if (c =? 34)%N then Some ([], s')
      else if (c =? 92)%N then
        match s' with
        | [] => None
        | e :: s'' =>
            let simple (u : N) :=
              match parse_string s'' with
              | Some (t, rest) => Some (u :: t, rest)
              | None => None
              end in
            if (e =? 34)%N then simple 34%N
            else if (e =? 92)%N then simple 92%N
            else if (e =? 47)%N then simple 47%N
            else if (e =? 98)%N then simple 8%N
            else if (e =? 102)%N then simple 12%N
            else if (e =? 110)%N then simple 10%N
            else if (e =? 114)%N then simple 13%N
            else if (e =? 116)%N then simple 9%N
            else if (e =? 117)%N then
              match s'' with
              | a :: b :: c' :: d :: s4 =>
                  match hex4 a b c' d, parse_string s4 with
                  | Some u, Some (t, rest) => Some (u :: t, rest)
                  | _, _ => None
                  end
              | _ => None
              end
            else None
        end
      else if (c <? 32)%N then None
      else
        match parse_string s' with
        | Some (t, rest) => Some (c :: t, rest)
        | None => None
        end
  end.

Fixpoint span_digits (s : jsstring) : jsstring * jsstring :=
  match s with
  | c :: s' =>
      if Digits.is_digit c then
        let (ds, rest) := span_digits s' in (c :: ds, rest)
      else ([], s)
  | [] => ([], [])
  end.

(** The integer part of a numeral: [0] or a run not starting with [0]. *)
Definition int_ok (ds : jsstring) : bool :=
  match ds with
  | [] => false
  | [_] => true
  | c :: _ => negb (c =? 48)%N
  end.

Definition parse_fraction (s : jsstring) : option (jsstring * jsstring) :=
  match s with
  | c :: s' =>
      if (c =? 46)%N then
        match span_digits s' with
        | ([], _) => None
        | (ds, rest) => Some (ds, rest)
        end
      else Some ([], s)
  | [] => Some ([], [])
  end.

Definition parse_exponent (s : jsstring) : option (Z * jsstring) :=
  match s with
  | c :: s' =>
      if (c =? 101)%N || (c =? 69)%N then
        let '(negative, s'') :=
          match s' with
          | d :: t =>
              if (d =? 45)%N then (true, t)
              else if (d =? 43)%N then (false, t)
              else (false, s')
          | [] => (false, s')
          end in
        match span_digits s'' with
        | ([], _) => None
        | (ds, rest) =>
            Some (if negative then - Digits.value ds else Digits.value ds, rest)
        end
      else Some (0, s)
  | [] => Some (0, [])
  end.

(** A numeral without its sign: the number its digits denote, the power
    of ten that scales it, and the unread input. *)
Definition parse_unsigned (s : jsstring) : option (Z * Z * jsstring) :=
  let (int, s2) := span_digits s in
  if int_ok int then
    match parse_fraction s2 with
    | Some (frac, s3) =>
        match parse_exponent s3 with
        | Some (ex, s4) =>
            Some (Digits.value (int ++ frac), ex - Z.of_nat (length frac), s4)
        | None => None
        end
    | None => None
    end
  else None.

Definition parse_number (s : jsstring) : parsed value :=
  match s with
  | c :: t =>
      if (c =? 45)%N then
        match parse_unsigned t with
        | Some (m, e, rest) => Parsed (VNum (Number.make (- m) e)) rest
        | None => Invalid
        end
      else
        match parse_unsigned s with
        | Some (m, e, rest) => Parsed (VNum (Number.make m e)) rest
        | None => Invalid
        end
  | [] => Invalid
  end.

(** *** Property order of ordinary objects *)

(** [k] is an array index: the canonical numeral of an integer below
    [2^32 - 1]. *)
Definition array_index (k : jsstring) : option Z :=
  if forallb Digits.is_digit k && int_ok k && (Digits.value k <? 4294967295)
  then Some (Digits.value k) else None.

Fixpoint has_key (k : jsstring) (props : list (jsstring * value)) : bool :=
  match props with
  | [] => false
  | (k', _) :: props' => JsString.eqb k k' || has_key k props'
  end.

Fixpoint replace_key (k : jsstring) (v : value) (props : list (jsstring * value)) :=
  match props with
  | [] => []
  | (k', v') :: props' =>
      if JsString.eqb k k' then (k', v) :: props'
      else (k', v') :: replace_key k v props'
  end.

Fixpoint insert_index (i : Z) (k : jsstring) (v : value)
    (props : list (jsstring * value)) :=
  match props with
  | [] => [(k, v)]
  | (k', v') :: props' =>
      match array_index k' with
      | Some j =>
          if j <? i then (k', v') :: insert_index i k v props'
          else (k, v) :: props
      | None => (k, v) :: props
      end
  end.

(** [CreateDataProperty(o, k, v)] on the property list: an existing key
    keeps its place, a new array index goes among the indices in
    ascending order, any other new key goes last. *)
Definition define (props : list (jsstring * value)) (kv : jsstring * value) :=
  let (k, v) := kv in
  if has_key k props then replace_key k v props
  else
    match array_index k with
    | Some i => insert_index i k v props
    | None => props ++ [(k, v)]
    end.

Definition object_of (members : list (jsstring * value)) : value :=
  VObj (fold_left define members []).

(** *** The recursive-descent parser *)

Fixpoint parse_value (fuel : nat) (s : jsstring) : parsed value :=
  match fuel with
  | O => OutOfFuel
  | S fuel' =>
      match s with
      | [] => Invalid
      | c :: s' =>
          if (c =? 34)%N then
            match parse_string s' with
            | Some (t, rest) => Parsed (VStr t) rest
            | None => Invalid
            end
          else if (c =? 91)%N then
            match skip_ws s' with
            | d :: rest =>
                if (d =? 93)%N then Parsed (VArr []) rest
                else
                  match parse_elements fuel' (d :: rest) with
                  | Parsed vs rest' => Parsed (VArr vs) rest'
                  | Invalid => Invalid
                  | OutOfFuel => OutOfFuel
                  end
            | [] => Invalid
            end
          else if (c =? 123)%N then
            match skip_ws s' with
            | d :: rest =>
                if (d =? 125)%N then Parsed (VObj []) rest
                else
                  match parse_members fuel' (d :: rest) with
                  | Parsed ms rest' => Parsed (object_of ms) rest'
                  | Invalid => Invalid
                  | OutOfFuel => OutOfFuel
                  end
            | [] => Invalid
            end
          else if JsString.startsWith s (str "null") then Parsed VNull (drop 4 s)
          else if JsString.startsWith s (str "true") then Parsed (VBool true) (drop 4 s)
          else if JsString.startsWith s (str "false") then Parsed (VBool false) (drop 5 s)
          else parse_number s
      end
  end
with parse_elements (fuel : nat) (s : jsstring) : parsed (list value) :=
  match fuel with
  | O => OutOfFuel
  | S fuel' =>
      match parse_value fuel' s with
      | Parsed v rest =>
          match skip_ws rest with
          | c :: rest' =>
              if (c =? 93)%N then Parsed [v] rest'
              else if (c =? 44)%N then
                match parse_elements fuel' (skip_ws rest') with
                | Parsed vs rest'' => Parsed (v :: vs) rest''
                | Invalid => Invalid
                | OutOfFuel => OutOfFuel
                end
              else Invalid
          | [] => Invalid
          end
      | Invalid => Invalid
      | OutOfFuel => OutOfFuel
      end
  end
with parse_members (fuel : nat) (s : jsstring) : parsed (list (jsstring * value)) :=
  match fuel with
  | O => OutOfFuel
  | S fuel' =>
      match s with
      | q :: s' =>
          if (q =? 34)%N then
            match parse_string s' with
            | Some (k, rest) =>
                match skip_ws rest with
                | colon :: rest1 =>
                    if (colon =? 58)%N then
                      match parse_value fuel' (skip_ws rest1) with
                      | Parsed v rest2 =>
                          match skip_ws rest2 with
                          | c :: rest3 =>
                              if (c =? 125)%N then Parsed [(k, v)] rest3
                              else if (c =? 44)%N then
                                match parse_members fuel' (skip_ws rest3) with
                                | Parsed ms rest4 => Parsed ((k, v) :: ms) rest4
                                | Invalid => Invalid
                                | OutOfFuel => OutOfFuel
                                end
                              else Invalid
                          | [] => Invalid
                          end
                      | Invalid => Invalid
                      | OutOfFuel => OutOfFuel
                      end
                    else Invalid
                | [] => Invalid
                end
            | None => Invalid
            end
          else Invalid
      | [] => Invalid
      end
  end.

(** [JSON.parse(s)] without a reviver: one value between optional white
    space, or a [SyntaxError]. *)
Definition parse (s : jsstring) : completion value :=
  match parse_value (S (2 * length s)) (skip_ws s) with
  | Parsed v rest =>
      match skip_ws rest with
      | [] => Normal v
      | _ :: _ => Throw SyntaxError
      end
  | Invalid | OutOfFuel => Throw SyntaxError
  end.

End JSON.

(** ** Date *)

Inductive Date :=
| ValidDate (t : Z)      (* time value, milliseconds since the epoch *)
| InvalidDate.           (* time value NaN *)

Module DateModel.

Definition msPerDay : Z := 86400000.

(** [TimeClip] *)
Definition TimeClip (t : Z) : Date :=
  if Z.abs t <=? 8640000000000000 then ValidDate t else InvalidDate.

(** [new Date(t)] for a number [t] *)
Definition new (t : Z) : Date := TimeClip t.

Definition Day (t : Z) : Z := t / msPerDay.
Definition WeekDay (t : Z) : Z := (Day t + 4) mod 7.
Definition HourFromTime (t : Z) : Z := (t / 3600000) mod 24.
Definition MinFromTime (t : Z) : Z := (t / 60000) mod 60.
Definition SecFromTime (t : Z) : Z := (t / 1000) mod 60.

(** Year, month (0-11) and day of the month (1-31) of a day number in the
    proleptic Gregorian calendar. *)
Definition civil (day : Z) : Z * Z * Z :=
  let z := day + 719468 in
  let era := z / 146097 in
  let doe := z - era * 146097 in
  let yoe := (doe - doe / 1460 + doe / 36524 - doe / 146096) / 365 in
  let doy := doe - (365 * yoe + yoe / 4 - yoe / 100) in
  let mp := (5 * doy + 2) / 153 in
  let d := doy - (153 * mp + 2) / 5 + 1 in
  let m := if mp <? 10 then mp + 2 else mp - 10 in
  let y := yoe + era * 400 + (if m <=? 1 then 1 else 0) in
  (y, m, d).

Definition YearFromTime (t : Z) : Z := fst (fst (civil (Day t))).
Definition MonthFromTime (t : Z) : Z := snd (fst (civil (Day t))).
Definition DateFromTime (t : Z) : Z := snd (civil (Day t)).

Definition weekday_name (d : Z) : jsstring :=
  nth (Z.to_nat d)
    (str <$> ["Sun"; "Mon"; "Tue"; "Wed"; "Thu"; "Fri"; "Sat"]%string) [].

Definition month_name (m : Z) : jsstring :=
  nth (Z.to_nat m)
    (str <$> ["Jan"; "Feb"; "Mar"; "Apr"; "May"; "Jun";
              "Jul"; "Aug"; "Sep"; "Oct"; "Nov"; "Dec"]%string) [].

Definition pad (n : nat) (z : Z) : jsstring :=
  JsString.padStart0 n (Digits.decimal z).

(** [Date.prototype.toUTCString] *)
Definition toUTCString (d : Date) : jsstring :=
  match d with
  | InvalidDate => str "Invalid Date"
  | ValidDate t =>
      let y := YearFromTime t in
      weekday_name (WeekDay t) ++ str ", " ++
      pad 2 (DateFromTime t) ++ str " " ++
      month_name (MonthFromTime t) ++ str " " ++
      (if y <? 0 then str "-" else []) ++ pad 4 (Z.abs y) ++ str " " ++
      pad 2 (HourFromTime t) ++ str ":" ++
      pad 2 (MinFromTime t) ++ str ":" ++
      pad 2 (SecFromTime t) ++ str " GMT"
  end.

End DateModel.

(** ** The host: clock, date parser and [document.cookie] *)

Class Host (H : Type) := {
  (** [Date.now()] *)
  Date_now : H -> Z;
  (** [new Date(text)]: the date a string denotes, [InvalidDate] if none. *)
  Date_parse : H -> jsstring -> Date;
  (** reading [document.cookie] *)
  document_cookie : H -> jsstring;
  (** [document.cookie = text] *)
  document_cookie_assign : jsstring -> H -> H
}.

(** A host that keeps the cookie string it was given and records the
    assignments to [document.cookie], latest first; it parses no date. *)
Record recorder := Recorder {
  clock : Z;
  cookie_string : jsstring;
  assigned : list jsstring
}.

#[export] Instance recorder_host : Host recorder := {
  Date_now h := clock h;
  Date_parse _ _ := InvalidDate;
  document_cookie h := cookie_string h;
  document_cookie_assign c h := Recorder (clock h) (cookie_string h) (c :: assigned h)
}.

(** ** Attributes *)

Inductive SameSite := Strict | Lax | None_.

Definition SameSite_text (s : SameSite) : jsstring :=
  match s with
  | Strict => str "Strict"
  | Lax => str "Lax"
  | None_ => str "None"
  end.

(** [Date | string] *)
Inductive expires_t :=
| ExpiresDate (d : Date)
| ExpiresString (s : jsstring).

(** [CookieAttributes]; an absent ([undefined]) or [null] member is [None]. *)
Record CookieAttributes := Attributes {
  ttl : option Z;
  expires : option expires_t;
  path : option jsstring;
  domain : option jsstring;
  sameSite : option SameSite;
  secure : option bool
}.

(** [{}] *)
Definition no_attributes : CookieAttributes :=
  Attributes None None None None None None.

Definition with_ttl (t : option Z) (a : CookieAttributes) : CookieAttributes :=
  Attributes t (expires a) (path a) (domain a) (sameSite a) (secure a).

Definition with_expires (e : option expires_t) (a : CookieAttributes) : CookieAttributes :=
  Attributes (ttl a) e (path a) (domain a) (sameSite a) (secure a).

(** [Pick<CookieAttributes, 'path'>]: read, never written, by its callees. *)
Record PathAttributes := PathOnly { path_of : option jsstring }.

(** Truthiness of an optional string member. *)
Definition nonempty (o : option jsstring) : option jsstring :=
  match o with
  | Some (c :: s) => Some (c :: s)
  | _ => None
  end.

(** ** State and effects *)

Abbreviation ref := positive.

(** A function of no argument, as passed to [remember] and [get]. *)
Definition callback := unit -> value.

Section Effects.

Context {H : Type} `{Host H}.

Record world := World {
  static_ttl : option Z;                 (* Cookie.#ttl *)
  heap : gmap ref CookieAttributes;      (* the attributes objects *)
  host : H;
  invocations : nat                      (* calls of callbacks so far *)
}.

Definition M (A : Type) : Type := world -> completion A * world.

Definition ret {A} (a : A) : M A := fun w => (Normal a, w).

Definition bind {A B} (m : M A) (k : A -> M B) : M B :=
  fun w =>
    match m w with
    | (Normal a, w') => k a w'
    | (Throw e, w') => (Throw e, w')
    end.

Definition throw {A} (e : error) : M A := fun w => (Throw e, w).

Definition alloc (a : CookieAttributes) : M ref :=
  fun w =>
    let l := fresh (dom (heap w)) in
    (Normal l, World (static_ttl w) (<[l := a]> (heap w)) (host w) (invocations w)).

(** Reading through a reference; a reference to no object is a
    [TypeError], as a member access on [null] is. *)
Definition load (l : ref) : M CookieAttributes :=
  fun w =>
    match heap w !! l with
    | Some a => (Normal a, w)
    | None => (Throw TypeError, w)
    end.

Definition store (l : ref) (a : CookieAttributes) : M unit :=
  fun w => (Normal tt, World (static_ttl w) (<[l := a]> (heap w)) (host w) (invocations w)).

Definition read_ttl : M (option Z) := fun w => (Normal (static_ttl w), w).

Definition write_ttl (t : option Z) : M unit :=
  fun w => (Normal tt, World t (heap w) (host w) (invocations w)).

Definition read_host : M H := fun w => (Normal (host w), w).

Definition assign_cookie (c : jsstring) : M unit :=
  fun w =>
    (Normal tt,
     World (static_ttl w) (heap w) (document_cookie_assign c (host w)) (invocations w)).

(** [f()] *)
Definition invoke (f : callback) : M value :=
  fun w =>
    (Normal (f tt), World (static_ttl w) (heap w) (host w) (S (invocations w))).

End Effects.

Arguments world H : clear implicits.
Arguments M H A : clear implicits.

Notation "'let!' x ':=' m 'in' k" := (bind m (fun x => k))
  (at level 10, x name, m at level 100, k at level 200).
Notation "'do!' m 'in' k" := (bind m (fun _ => k))
  (at level 10, m at level 100, k at level 200).

(** ** The class [Cookie] *)

Module Cookie.
Section Methods.

Context {H : Type} `{Host H}.

(** [static #stringify(value)].  [JSON.stringify] answers [undefined]
    only for [undefined], which the first test has already returned on;
    the template literal of the caller would print it as such. *)
Definition _stringify (value : value) : jsstring :=
  match value with
  | VNull | VUndefined => []
  | VStr s => s
  | VNum n => Number.toString n
  | VBool true => str "true"
  | VBool false => str "false"
  | _ =>
      match JSON.stringify value with
      | Normal (Some text) => text
      | Normal None => str "undefined"
      | Throw _ => []
      end
  end.

(** [static #expires(expires)] *)
Definition _expires (h : H) (expires : option expires_t) : option expires_t :=
  match expires with
  | None => None
  | Some (ExpiresString []) => None
  | Some (ExpiresDate d) => Some (ExpiresDate d)
  | Some (ExpiresString s) =>
      match Date_parse h s with
      | InvalidDate => None
      | ValidDate t => Some (ExpiresDate (ValidDate t))
      end
  end.

Definition validation_message : jsstring :=
  let quoted (s : jsstring) : jsstring := [34%N] ++ s ++ [34%N] in
  str "The " ++ quoted (str "secure") ++ str " attribute must be set to "
  ++ quoted (str "true") ++ str " if " ++ quoted (str "sameSite")
  ++ str " is set to " ++ quoted (str "None") ++ str ".".

(** [static set(key, value, attributes = {})] *)
Definition set (key : jsstring) (value : value) (attributes : option ref)
  : M H jsstring :=
  let! attributes :=
    match attributes with
    | Some l => ret l
    | None => alloc no_attributes
    end in
  let cookie :=
    match value with
    | VNull | VUndefined => key
    | _ => key ++ str "=" ++ _stringify value
    end in
  (* attributes.ttl ??= this.#ttl *)
  let! a := load attributes in
  do! match ttl a with
      | Some _ => ret tt
      | None => let! t := read_ttl in store attributes (with_ttl t a)
      end in
  (* attributes.expires = this.#expires(attributes.expires) *)
  let! a := load attributes in
  let! h := read_host in
  do! store attributes (with_expires (_expires h (expires a)) a) in
  (* if (attributes.ttl) attributes.expires = new Date(Date.now() + attributes.ttl * 1000) *)
  let! a := load attributes in
  do! match ttl a with
      | Some t =>
          if t =? 0 then ret tt
          else
            let! h := read_host in
            store attributes
              (with_expires (Some (ExpiresDate (DateModel.new (Date_now h + t * 1000)))) a)
      | None => ret tt
      end in
  let! a := load attributes in
  let! cookie :=
    match expires a with
    | Some (ExpiresDate d) => ret (cookie ++ str "; expires=" ++ DateModel.toUTCString d)
    | Some (ExpiresString []) => ret cookie
    | Some (ExpiresString _) => throw TypeError   (* a string has no toUTCString *)
    | None => ret cookie
    end in
  let cookie :=
    match nonempty (path a) with
    | Some p => cookie ++ str "; path=" ++ p
    | None => cookie
    end in
  let cookie :=
    match nonempty (domain a) with
    | Some d => cookie ++ str "; domain=" ++ d
    | None => cookie
    end in
  let cookie :=
    match sameSite a with
    | Some s => cookie ++ str "; SameSite=" ++ SameSite_text s
    | None => cookie
    end in
  let cookie :=
    match sameSite a, secure a with
    | Some None_, _ | _, Some true => cookie ++ str "; Secure"
    | _, _ => cookie
    end in
  match sameSite a, secure a with
  | Some None_, Some true => do! assign_cookie cookie in ret cookie
  | Some None_, _ => throw (Error validation_message)
  | _, _ => do! assign_cookie cookie in ret cookie
  end.

(** The characters the class of the escaping expression selects. *)
Definition special (c : N) : bool :=
  existsb (N.eqb c) (str ".*+?^${}()|[]\").

(** [key.replace(..., '\\$&')]: a backslash before each special
    character. *)
Fixpoint escape (key : jsstring) : jsstring :=
  match key with
  | [] => []
  | c :: key' => if special c then 92%N :: c :: escape key' else c :: escape key'
  end.

(** The characters a pattern of escaped and plain characters matches. *)
Fixpoint literal (pattern : jsstring) : jsstring :=
  match pattern with
  | [] => []
  | c :: pattern' =>
      if (c =? 92)%N then
        match pattern' with
        | d :: pattern'' => d :: literal pattern''
        | [] => []
        end
      else c :: literal pattern'
  end.

(** [\s] *)
Definition is_space (c : N) : bool :=
  ((9 <=? c) && (c <=? 13) || (c =? 32) || (c =? 160) || (c =? 5760)
   || (8192 <=? c) && (c <=? 8202) || (c =? 8232) || (c =? 8233)
   || (c =? 8239) || (c =? 8287) || (c =? 12288) || (c =? 65279))%N.

(** The second group, a greedy run of characters other than the
    semicolon: the input up to the next semicolon. *)
Fixpoint until_semicolon (s : jsstring) : jsstring :=
  match s with
  | c :: s' => if (c =? 59)%N then [] else c :: until_semicolon s'
  | [] => []
  end.

(** The key, an equals sign and the second group at the head of [s]. *)
Definition match_entry (key s : jsstring) : option jsstring :=
  if JsString.startsWith s (key ++ str "=")
  then Some (until_semicolon (drop (length key + 1) s))
  else None.

(** A run of [\s] and then the entry at the head of [s]; the run is
    greedy and gives characters back one at a time. *)
Fixpoint match_spaces (key s : jsstring) : option jsstring :=
  match s with
  | c :: s' =>
      if is_space c then
        match match_spaces key s' with
        | Some group => Some group
        | None => match_entry key s
        end
      else match_entry key s
  | [] => match_entry key s
  end.

(** The second alternative of the first group, a semicolon and a run
    of [\s], then the entry, tried at each position from left to right. *)
Fixpoint match_after (key s : jsstring) : option jsstring :=
  match s with
  | [] => None
  | c :: s' =>
      match (if (c =? 59)%N then match_spaces key s' else None) with
      | Some group => Some group
      | None => match_after key s'
      end
  end.

(** [new RegExp(pattern).exec(input)] for the pattern of [get], built
    around an escaped [key]: the second group of the leftmost match.  The
    first alternative of the first group, the start of the input, can only
    match at position 0 and is tried first there. *)
Definition exec (key input : jsstring) : option jsstring :=
  match match_entry (literal key) input with
  | Some group => Some group
  | None => match_after (literal key) input
  end.

(** The [fallback] argument of [get]: a function or any other value. *)
Inductive fallback :=
| Function (f : callback)
| Plain (v : value).

(** The [try] statement of [get]: the parsed value, or the raw string
    when [JSON.parse] throws. *)
Definition decode (cookie : jsstring) : value :=
  match JSON.parse cookie with
  | Normal v => v
  | Throw _ => VStr cookie
  end.

(** [static get(key, fallback = null)] *)
Definition get (key : jsstring) (fallback : fallback) : M H value :=
  let key := escape key in
  let! h := read_host in
  match exec key (document_cookie h) with
  | None =>
      match fallback with
      | Function f => invoke f
      | Plain (VUndefined | VNull) => ret VNull
      | Plain v => ret v
      end
  | Some cookie => ret (decode cookie)
  end.

(** [static remember(key, callback, attributes = {})] *)
Definition remember (key : jsstring) (callback : callback) (attributes : option ref)
  : M H value :=
  let! cookie := get key (Plain VNull) in
  match cookie with
  | VNull =>
      let! produced := invoke callback in
      let! text := set key produced attributes in
      ret (VStr text)
  | _ => ret cookie
  end.

(** [static remove(key, attributes = {})] *)
Definition remove (key : jsstring) (attributes : PathAttributes) : M H unit :=
  let! object :=
    alloc (Attributes None (Some (ExpiresDate (DateModel.new 0)))
                      (path_of attributes) None None None) in
  do! set key (VStr []) (Some object) in
  ret tt.

(** [static has(key)] *)
Definition has (key : jsstring) : M H bool :=
  let! v := get key (Plain VNull) in
  ret (truthy v).

(** [static touch(key, ttl = null, attributes = {})] *)
Definition touch (key : jsstring) (ttl : option Z) (attributes : PathAttributes)
  : M H unit :=
  let! cookie := get key (Plain VNull) in
  match cookie with
  | VNull => ret tt
  | _ =>
      let! ttl :=
        match ttl with
        | Some t => ret (Some t)
        | None => read_ttl
        end in
      let! object :=
        alloc (Attributes ttl None (path_of attributes) None None None) in
      do! set key cookie (Some object) in
      ret tt
  end.

(** The callback of [forEach] in [all], over the pieces of the cookie
    string; [cookies] is the array being filled.  A piece always has a
    first part before an equals sign; were it [undefined], [get] would
    throw a [TypeError] on its [replace]. *)
Fixpoint all_forEach (pieces : list jsstring) (cookies : list (jsstring * value))
  : M H (list (jsstring * value)) :=
  match pieces with
  | [] => ret cookies
  | cookie :: pieces' =>
      if JsString.eqb cookie [] then all_forEach pieces' cookies
      else
        let! key :=
          match JsString.split (str "=") cookie with
          | key :: _ => ret key
          | [] => throw TypeError
          end in
        let! v := get key (Plain VNull) in
        all_forEach pieces' (cookies ++ [(key, v)])
  end.

(** [static all()] *)
Definition all : M H (list (jsstring * value)) :=
  let! h := read_host in
  if JsString.eqb (document_cookie h) [] then ret []
  else
    let! h := read_host in
    all_forEach (JsString.split (str "; ") (document_cookie h)) [].

(** The callback of [forEach] in [clear], over the array [all] returned. *)
Fixpoint clear_forEach (cookies : list (jsstring * value))
    (attributes : PathAttributes) : M H unit :=
  match cookies with
  | [] => ret tt
  | cookie :: cookies' =>
      do! remove (fst cookie) attributes in
      clear_forEach cookies' attributes
  end.

(** [static clear(attributes = {})] *)
Definition clear (attributes : PathAttributes) : M H unit :=
  let! cookies := all in
  clear_forEach cookies attributes.

(** The arguments of [hasAny], of type [[string | string[]] | string[]]:
    the keys spread, or one array of keys. *)
Inductive keys_arguments :=
| Spread (keys : list jsstring)
| OneArray (keys : list jsstring).

(** [keys.some(key => this.has(key))] *)
Fixpoint some_has (keys : list jsstring) : M H bool :=
  match keys with
  | [] => ret false
  | key :: keys' =>
      let! found := has key in
      if found then ret true else some_has keys'
  end.

(** [static hasAny(...keys)] *)
Definition hasAny (keys : keys_arguments) : M H bool :=
  let keys :=
    match keys with
    | OneArray keys => keys        (* keys.length === 1, Array.isArray(keys[0]) *)
    | Spread [key] => [key]        (* keys.length === 1, a string *)
    | Spread keys => keys
    end in
  some_has keys.

(** [static isEmpty()] *)
Definition isEmpty : M H bool :=
  let! h := read_host in
  ret (length (document_cookie h) =? 0)%nat.

(** [static isNotEmpty()] *)
Definition isNotEmpty : M H bool :=
  let! empty := isEmpty in
  ret (negb empty).

(** [static keys()] *)
Definition keys : M H (list jsstring) :=
  let! cookies := all in
  ret (fst <$> cookies).

(** [static count()] *)
Definition count : M H nat :=
  let! cookies := all in
  ret (length cookies).

(** [static ttl(value)]; it comes last here so that [ttl] names the
    member of [CookieAttributes] in the methods above. *)
Definition ttl (value : option Z) : M H unit := write_ttl value.

End Methods.
End Cookie.

(** ** The test matcher [toHaveCookie] *)

Module Matchers.

(** The characters [encodeURIComponent] leaves as they are: letters,
    digits and the marks. *)
Definition unreserved (c : N) : bool :=
  ((65 <=? c) && (c <=? 90) || (97 <=? c) && (c <=? 122)
   || (48 <=? c) && (c <=? 57))%N
  || existsb (N.eqb c) (str "-_.!~*'()").

Definition upper_hex (d : N) : N :=
  (if d <? 10 then 48 + d else 55 + d)%N.

(** An octet as a percent sign and two hexadecimal digits. *)
Definition percent (octet : N) : jsstring :=
  [37; upper_hex (octet / 16); upper_hex (octet mod 16)]%N.

(** The octets of a code point in UTF-8. *)
Definition utf8 (cp : N) : list N :=
  (if cp <? 128 then [cp]
   else if cp <? 2048 then [192 + cp / 64; 128 + cp mod 64]
   else if cp <? 65536 then
     [224 + cp / 4096; 128 + cp / 64 mod 64; 128 + cp mod 64]
   else
     [240 + cp / 262144; 128 + cp / 4096 mod 64; 128 + cp / 64 mod 64;
      128 + cp mod 64])%N.

Definition escaped (cp : N) : jsstring := concat (percent <$> utf8 cp).

(** [encodeURIComponent(s)]; [None] is the [URIError] thrown at a
    surrogate without its pair. *)
Fixpoint encodeURIComponent (s : jsstring) : option jsstring :=
  match s with
  | [] => Some []
  | c :: s' =>
      if unreserved c then cons c <$> encodeURIComponent s'
      else if JSON.is_leading_surrogate c then
        match s' with
        | d :: s'' =>
            if JSON.is_trailing_surrogate d
            then app (escaped ((c - 55296) * 1024 + (d - 56320) + 65536)%N)
                   <$> encodeURIComponent s''
            else None
        | [] => None
        end
      else if JSON.is_trailing_surrogate c then None
      else app (escaped c) <$> encodeURIComponent s'
  end.

(** What the matcher throws: an exception of [JSON.stringify], or the
    [URIError] of [encodeURIComponent]. *)
Inductive outcome (A : Type) :=
| Returns (a : A)
| Throws (e : error)
| ThrowsURIError.
Arguments Returns {A} a.
Arguments Throws {A} e.
Arguments ThrowsURIError {A}.

(** [jest.CustomMatcherResult]; [message] is what the function returns. *)
Record CustomMatcherResult := MatcherResult {
  pass : bool;
  message : jsstring
}.

(** [typeof value === 'object' ? JSON.stringify(value) : value.toString()],
    and the empty string for [undefined]. *)
Definition value_text (v : value) : completion jsstring :=
  match v with
  | VUndefined => Normal []
  | VBool true => Normal (str "true")
  | VBool false => Normal (str "false")
  | VNum n => Normal (Number.toString n)
  | VStr s => Normal s
  | VBigInt z => Normal ((if z <? 0 then str "-" else []) ++ Digits.decimal (Z.abs z))
  | VNull | VCircular | VArr _ | VObj _ =>
      match JSON.stringify v with
      | Normal (Some text) => Normal text
      | Normal None => Normal (str "undefined")
      | Throw e => Throw e
      end
  end.

(** [toHaveCookie(received, key, value, encode = false)] *)
Definition toHaveCookie (received key : jsstring) (v : value) (encode : bool)
  : outcome CustomMatcherResult :=
  match value_text v with
  | Throw e => Throws e
  | Normal text =>
      let encoded (s : jsstring) : option jsstring :=
        if encode then encodeURIComponent s else Some s in
      match encoded key with
      | None => ThrowsURIError
      | Some key' =>
          match encoded text with
          | None => ThrowsURIError
          | Some text' =>
              let cookie :=
                match v with
                | VNull | VUndefined => key'
                | _ => key' ++ str "=" ++ text'
                end in
              let pass := JsString.includes received cookie in
              Returns
                (MatcherResult pass
                   (if pass
                    then str "Expected document.cookie not to contain cookie "
                         ++ [34%N] ++ cookie ++ [34%N]
                    else str "Expected document.cookie to contain cookie "
                         ++ [34%N] ++ cookie ++ [10%N] ++ str "Received: "
                         ++ received))
          end
      end
  end.

End Matchers.

(** ** The compiled build *)

Module Umd.
Section Methods.

Context {H : Type} `{Host H}.

(** [static get(key)] as [lib/main.umd.js] ships it: without the
    [fallback] parameter of the source, so that a second argument of a call
    is ignored. *)
Definition get (key : jsstring) : M H value :=
  let key := Cookie.escape key in
  let! h := read_host in
  match Cookie.exec key (document_cookie h) with
  | None => ret VNull
  | Some cookie => ret (Cookie.decode cookie)
  end.

End Methods.
End Umd.

(** * Properties *)

(** ** What [set] computes *)

Section Formatting.

Context {H : Type} `{Host H}.

(** The key and value segment. *)
Definition entry (key : jsstring) (value : value) : jsstring :=
  match value with
  | VNull | VUndefined => key
  | _ => key ++ str "=" ++ Cookie._stringify value
  end.

(** The time to live in force: the object's own, else the default. *)
Definition ttl_in_force (w : world H) (a : CookieAttributes) : option Z :=
  match ttl a with
  | Some t => Some t
  | None => static_ttl w
  end.

(** The expiration that is formatted. *)
Definition expiration (w : world H) (a : CookieAttributes) : option expires_t :=
  match ttl_in_force w a with
  | Some t =>
      if t =? 0 then Cookie._expires (host w) (expires a)
      else Some (ExpiresDate (DateModel.new (Date_now (host w) + t * 1000)))
  | None => Cookie._expires (host w) (expires a)
  end.

(** The attributes object as a call of [set] leaves it. *)
Definition resolved (w : world H) (a : CookieAttributes) : CookieAttributes :=
  with_expires (expiration w a) (with_ttl (ttl_in_force w a) a).

Definition expires_segment (e : option expires_t) : jsstring :=
  match e with
  | Some (ExpiresDate d) => str "; expires=" ++ DateModel.toUTCString d
  | _ => []
  end.

Definition path_segment (a : CookieAttributes) : jsstring :=
  match nonempty (path a) with
  | Some p => str "; path=" ++ p
  | None => []
  end.

Definition domain_segment (a : CookieAttributes) : jsstring :=
  match nonempty (domain a) with
  | Some d => str "; domain=" ++ d
  | None => []
  end.

Definition sameSite_segment (a : CookieAttributes) : jsstring :=
  match sameSite a with
  | Some s => str "; SameSite=" ++ SameSite_text s
  | None => []
  end.

Definition secure_segment (a : CookieAttributes) : jsstring :=
  match sameSite a, secure a with
  | Some None_, _ | _, Some true => str "; Secure"
  | _, _ => []
  end.

(** The segments after the expiration. *)
Definition scope_segments (a : CookieAttributes) : jsstring :=
  path_segment a ++ domain_segment a ++ sameSite_segment a ++ secure_segment a.

(** The formatted string. *)
Definition formatted (key : jsstring) (value : value) (w : world H)
    (a : CookieAttributes) : jsstring :=
  entry key value ++ expires_segment (expiration w a) ++ scope_segments a.

(** [sameSite] is ["None"] and [secure] is not [true]. *)
Definition rejected (a : CookieAttributes) : bool :=
  match sameSite a, secure a with
  | Some None_, Some true => false
  | Some None_, _ => true
  | _, _ => false
  end.

(** The world after a call of [set] on the object at [l]. *)
Definition after_set (l : ref) (a : CookieAttributes) (h : H) (w : world H) : world H :=
  World (static_ttl w) (<[l := a]> (heap w)) h (invocations w).

(** The object [remove] builds. *)
Definition removal (attributes : PathAttributes) : CookieAttributes :=
  Attributes None (Some (ExpiresDate (DateModel.new 0))) (path_of attributes)
             None None None.


(** The world after a callback has been called. *)
Definition called (w : world H) : world H :=
  World (static_ttl w) (heap w) (host w) (S (invocations w)).


(** The object [touch] builds. *)
Definition touched (w : world H) (t : option Z) (attributes : PathAttributes)
  : CookieAttributes :=
  Attributes (match t with Some t' => Some t' | None => static_ttl w end)
             None (path_of attributes) None None None.


End Formatting.

(** ** Serializable values *)

Module Serializable.

Fixpoint plain_keys (seen ks : list jsstring) : bool :=
  match ks with
  | [] => true
  | k :: ks' =>
      match JSON.array_index k with
      | Some _ => false
      | None => negb (existsb (JsString.eqb k) seen) && plain_keys (k :: seen) ks'
      end
  end.

Fixpoint index_keys (low : Z) (ks : list jsstring) : bool :=
  match ks with
  | [] => true
  | k :: ks' =>
      match JSON.array_index k with
      | Some i => (low <? i) && index_keys i ks'
      | None => plain_keys [] ks
      end
  end.

(** The order in which an ordinary object enumerates its properties: the
    array indices ascending, then the other keys, none twice. *)
Definition enumeration_order (props : list (jsstring * value)) : bool :=
  index_keys (-1) (fst <$> props).

(** Values [JSON.stringify] writes and [JSON.parse] reads back. *)
Fixpoint serializable (v : value) : bool :=
  match v with
  | VNull | VBool _ | VStr _ => true
  | VNum n => Number.isFinite n && Number.canonical n
  | VArr elements => forallb serializable elements
  | VObj properties =>
      enumeration_order properties
      && forallb (fun '(_, e) => serializable e) properties
  | VUndefined | VBigInt _ | VCircular => false
  end.

End Serializable.


(** The unread input after a value inside a text: nothing, or a comma or
    a closing bracket. *)
Definition stops (rest : jsstring) : Prop :=
  match rest with
  | [] => True
  | c :: _ => c = 44%N \/ c = 93%N \/ c = 125%N
  end.


(** The texts of the elements of an array, as [serialize] computes them. *)
Definition serialize_items : list value -> completion (list jsstring) :=
  fix items (l : list value) : completion (list jsstring) :=
    match l with
    | [] => Normal []
    | e :: l' =>
        match JSON.serialize e with
        | Throw err => Throw err
        | Normal t =>
            match items l' with
            | Throw err => Throw err
            | Normal ts => Normal (default (str "null") t :: ts)
            end
        end
    end.

(** The texts of the members of an object. *)
Definition serialize_members : list (jsstring * value) -> completion (list jsstring) :=
  fix members (l : list (jsstring * value)) : completion (list jsstring) :=
    match l with
    | [] => Normal []
    | (k, e) :: l' =>
        match JSON.serialize e with
        | Throw err => Throw err
        | Normal t =>
            match members l' with
            | Throw err => Throw err
            | Normal ts =>
                Normal (match t with
                        | Some text => (JSON.QuoteJSONString k ++ str ":" ++ text) :: ts
                        | None => ts
                        end)
            end
        end
    end.


(** The values the round trip of the codec is claimed for: booleans,
    finite numbers, serializable arrays and objects, and the strings that
    are not themselves JSON texts. *)
Definition encodable (v : value) : bool :=
  match v with
  | VBool _ => true
  | VNum _ | VArr _ | VObj _ => Serializable.serializable v
  | VStr s =>
      match JSON.parse s with
      | Throw _ => true
      | Normal _ => false
      end
  | VUndefined | VNull | VBigInt _ | VCircular => false
  end.

(** A value that holds a BigInt or a circular structure, at any depth. *)
Fixpoint unserializable (v : value) : bool :=
  match v with
  | VBigInt _ | VCircular => true
  | VArr elements => existsb unserializable elements
  | VObj properties => existsb (fun kv => unserializable (snd kv)) properties
  | _ => false
  end.

(** ** Cookie strings *)

(** A code unit of a key that the host gives back: no semicolon and no
    equals sign. *)
Definition key_unit (c : N) : bool := (negb (c =? 59) && negb (c =? 61))%N.

(** Such a key does not start with white space either. *)
Definition plain_key (k : jsstring) : bool :=
  forallb key_unit k
  && match k with
     | c :: _ => negb (Cookie.is_space c)
     | [] => true
     end.

(** A raw value: no semicolon. *)
Definition plain_raw (raw : jsstring) : bool :=
  forallb (fun c => negb (c =? 59)%N) raw.

Definition plain_entry (e : jsstring * jsstring) : bool :=
  plain_key (fst e) && plain_raw (snd e).

Definition entry_text (e : jsstring * jsstring) : jsstring :=
  fst e ++ str "=" ++ snd e.

(** The cookie string of a list of entries: [key=raw] joined by [; ]. *)
Definition cookie_text (entries : list (jsstring * jsstring)) : jsstring :=
  JSON.join (str "; ") (entry_text <$> entries).

(** The raw value of the first entry of a key. *)
Fixpoint stored (key : jsstring) (entries : list (jsstring * jsstring))
  : option jsstring :=
  match entries with
  | [] => None
  | (k, raw) :: entries' =>
      if JsString.eqb key k then Some raw else stored key entries'
  end.

(** What [get(key)] returns on a cookie string, the fallback being [null]. *)
Definition read (text key : jsstring) : value :=
  match Cookie.exec (Cookie.escape key) text with
  | Some raw => Cookie.decode raw
  | None => VNull
  end.

(** The key [all] reads off a piece: what comes before its first equals
    sign. *)
Definition piece_key (piece : jsstring) : jsstring :=
  match JsString.split (str "=") piece with
  | key :: _ => key
  | [] => []
  end.


(** A text in which the second group of the pattern of [get] ends: nothing,
    or a semicolon first. *)
Definition group_end (rest : jsstring) : Prop :=
  match rest with
  | [] => True
  | c :: _ => c = 59%N
  end.

(** The object [set] works on: the one given, or a new one. *)
Definition attributes_object {H} (attributes : option ref) (w : world H) : ref :=
  match attributes with
  | Some l => l
  | None => fresh (dom (heap w))
  end.

(** ** Sample worlds on the recording host *)

(** One attributes object at reference 1, a default time to live, the
    clock and the text [document.cookie] reads as. *)
Definition sample_world (default : option Z) (a : CookieAttributes) (now : Z)
  (text : string) : world recorder :=
  World default {[ 1%positive := a ]} (Recorder now (str text) []) 0.

(** [{ sameSite: 'None' }] and [{ sameSite: 'None', secure: true }] *)
Definition sameSite_None_only : CookieAttributes :=
  Attributes None None None None (Some None_) None.
Definition sameSite_None_secure : CookieAttributes :=
  Attributes None None None None (Some None_) (Some true).





(** The cookie string [a=1; k=true; a=2] and its entries. *)
Definition three_entries : list (jsstring * jsstring) :=
  [(str "a", str "1"); (str "k", str "true"); (str "a", str "2")].

(** [{ expires: new Date(NaN) }] and [{ expires: 'tomorrow' }] *)
Definition expires_invalid : CookieAttributes :=
  Attributes None (Some (ExpiresDate InvalidDate)) None None None None.
Definition expires_text : CookieAttributes :=
  Attributes None (Some (ExpiresString (str "tomorrow"))) None None None None.

Section SetRuns.

Context {H : Type} `{Host H}.

Lemma expires_normal (h : H) (e : option expires_t) :
  match Cookie._expires h e with
  | Some (ExpiresString _) => False
  | _ => True
  end.
Proof.
  destruct e as [[d|[|c s]]|]; simpl; auto.
  destruct (Date_parse h (c :: s)); exact I.
Qed.

(** *** One step of a computation *)

Lemma bind_ret {A B} (a : A) (k : A -> M H B) (w : world H) :
  bind (ret a) k w = k a w.
Proof. reflexivity. Qed.

Lemma bind_bind {A B C} (m : M H A) (f : A -> M H B) (k : B -> M H C)
    (w : world H) :
  bind (bind m f) k w = bind m (fun a => bind (f a) k) w.
Proof. unfold bind. destruct (m w) as [[a|e] w']; reflexivity. Qed.

Lemma bind_throw {A B} (e : error) (k : A -> M H B) (w : world H) :
  bind (throw e) k w = (Throw e, w).
Proof. reflexivity. Qed.

Lemma bind_load {B} (l : ref) (a : CookieAttributes) (k : CookieAttributes -> M H B)
    (w : world H) :
  heap w !! l = Some a -> bind (load l) k w = k a w.
Proof. intros Hl. unfold bind, load. rewrite Hl. reflexivity. Qed.

Lemma bind_store {B} (l : ref) (a : CookieAttributes) (k : unit -> M H B)
    (w : world H) :
  bind (store l a) k w = k tt (after_set l a (host w) w).
Proof. reflexivity. Qed.

Lemma bind_read_ttl {B} (k : option Z -> M H B) (w : world H) :
  bind read_ttl k w = k (static_ttl w) w.
Proof. reflexivity. Qed.

Lemma bind_read_host {B} (k : H -> M H B) (w : world H) :
  bind read_host k w = k (host w) w.
Proof. reflexivity. Qed.

Lemma bind_assign_cookie {B} (c : jsstring) (k : unit -> M H B) (w : world H) :
  bind (assign_cookie c) k w =
  k tt (World (static_ttl w) (heap w) (document_cookie_assign c (host w)) (invocations w)).
Proof. reflexivity. Qed.

Lemma bind_invoke {B} (f : callback) (k : value -> M H B) (w : world H) :
  bind (invoke f) k w =
  k (f tt) (World (static_ttl w) (heap w) (host w) (S (invocations w))).
Proof. reflexivity. Qed.

Lemma after_set_lookup (l : ref) (a : CookieAttributes) (h : H) (w : world H) :
  heap (after_set l a h w) !! l = Some a.
Proof. apply lookup_insert_eq. Qed.

Lemma after_set_twice (l : ref) (a b : CookieAttributes) (h h' : H) (w : world H) :
  after_set l b h' (after_set l a h w) = after_set l b h' w.
Proof. unfold after_set. cbn. rewrite insert_insert_eq. reflexivity. Qed.

Lemma after_set_same (l : ref) (a : CookieAttributes) (w : world H) :
  heap w !! l = Some a -> after_set l a (host w) w = w.
Proof.
  intros Hl. destruct w as [st hp h n]. unfold after_set. cbn in *.
  rewrite insert_id by exact Hl. reflexivity.
Qed.

(** The second half of [set]: formatting the resolved object, the
    validation and the assignment. *)
Lemma set_format (key : jsstring) (value : value) (l : ref)
    (a : CookieAttributes) (w : world H) :
  heap w !! l = Some a ->
  match expires a with Some (ExpiresString _) => False | _ => True end ->
  (let cookie := entry key value in
   let! a := load l in
   let! cookie :=
     match expires a with
     | Some (ExpiresDate d) => ret (cookie ++ str "; expires=" ++ DateModel.toUTCString d)
     | Some (ExpiresString []) => ret cookie
     | Some (ExpiresString _) => throw TypeError
     | None => ret cookie
     end in
   let cookie :=
     match nonempty (path a) with
     | Some p => cookie ++ str "; path=" ++ p
     | None => cookie
     end in
   let cookie :=
     match nonempty (domain a) with
     | Some d => cookie ++ str "; domain=" ++ d
     | None => cookie
     end in
   let cookie :=
     match sameSite a with
     | Some s => cookie ++ str "; SameSite=" ++ SameSite_text s
     | None => cookie
     end in
   let cookie :=
     match sameSite a, secure a with
     | Some None_, _ | _, Some true => cookie ++ str "; Secure"
     | _, _ => cookie
     end in
   match sameSite a, secure a with
   | Some None_, Some true => do! assign_cookie cookie in ret cookie
   | Some None_, _ => throw (Error Cookie.validation_message)
   | _, _ => do! assign_cookie cookie in ret cookie
   end) w =
  let cookie := entry key value ++ expires_segment (expires a) ++ scope_segments a in
  if rejected a then (Throw (Error Cookie.validation_message), w)
  else (Normal cookie,
        World (static_ttl w) (heap w) (document_cookie_assign cookie (host w))
              (invocations w)).
Proof.
  intros Hl He. cbv zeta. rewrite (bind_load _ _ _ _ Hl).
  unfold rejected, scope_segments, path_segment, domain_segment,
    sameSite_segment, secure_segment, expires_segment.
  destruct (expires a) as [[d|s]|]; try contradiction;
    rewrite bind_ret;
    destruct (nonempty (path a)), (nonempty (domain a)),
      (sameSite a) as [[]|], (secure a) as [[]|];
    rewrite ?bind_assign_cookie, ?bind_throw; unfold ret, throw;
    rewrite ?app_nil_r, <- ?app_assoc; reflexivity.
Qed.

Local Ltac set_done a w Ht Hz :=
  destruct a as [t0 e p d ss sec]; destruct w as [st hp h n];
  cbn in Ht; cbn in *; subst;
  unfold formatted, resolved, expiration, ttl_in_force, rejected, after_set,
    scope_segments, path_segment, domain_segment, sameSite_segment,
    secure_segment;
  cbn; rewrite ?Hz; cbn; rewrite ?insert_insert_eq; reflexivity.

(** [set] on an existing attributes object: the object is left resolved;
    the call throws when the attributes are rejected and otherwise assigns
    the formatted string to [document.cookie] and returns it. *)
Lemma set_run (key : jsstring) (value : value) (l : ref)
    (a : CookieAttributes) (w : world H) :
  heap w !! l = Some a ->
  Cookie.set key value (Some l) w =
    if rejected a
    then (Throw (Error Cookie.validation_message),
          after_set l (resolved w a) (host w) w)
    else (Normal (formatted key value w a),
          after_set l (resolved w a)
            (document_cookie_assign (formatted key value w a) (host w)) w).
Proof.
  intros Hl. unfold Cookie.set. rewrite bind_ret.
  change (match value with
          | VUndefined | VNull => key
          | _ => key ++ str "=" ++ Cookie._stringify value
          end) with (entry key value).
  rewrite (bind_load _ _ _ _ Hl).
  destruct (ttl a) as [t|] eqn:Ht.
  - rewrite bind_ret, (bind_load _ _ _ _ Hl), bind_read_host, bind_store.
    rewrite (bind_load _ _ _ _ (after_set_lookup _ _ _ _)).
    cbn [ttl with_expires]. rewrite Ht.
    destruct (t =? 0) eqn:Hz.
    + rewrite bind_ret.
      etransitivity.
      { apply (set_format key value l _ _ (after_set_lookup _ _ _ _)).
        cbn [expires with_expires]. apply expires_normal. }
      set_done a w Ht Hz.
    + rewrite bind_bind, bind_read_host, bind_store, after_set_twice.
      etransitivity.
      { apply (set_format key value l _ _ (after_set_lookup _ _ _ _)).
        exact I. }
      set_done a w Ht Hz.
  - rewrite bind_bind, bind_read_ttl, bind_store.
    rewrite (bind_load _ _ _ _ (after_set_lookup _ _ _ _)).
    rewrite bind_read_host, bind_store, after_set_twice.
    rewrite (bind_load _ _ _ _ (after_set_lookup _ _ _ _)).
    cbn [ttl with_expires with_ttl].
    destruct (static_ttl w) as [t|] eqn:Hs.
    + destruct (t =? 0) eqn:Hz.
      * rewrite bind_ret.
        etransitivity.
        { apply (set_format key value l _ _ (after_set_lookup _ _ _ _)).
          cbn [expires with_expires]. apply expires_normal. }
        set_done a w Ht Hz.
      * rewrite bind_bind, bind_read_host, bind_store, after_set_twice.
        etransitivity.
        { apply (set_format key value l _ _ (after_set_lookup _ _ _ _)).
          exact I. }
        set_done a w Ht Hz.
    + rewrite bind_ret.
      etransitivity.
      { apply (set_format key value l _ _ (after_set_lookup _ _ _ _)).
        cbn [expires with_expires]. apply expires_normal. }
      set_done a w Ht Hs.
Qed.

End SetRuns.

(** ** Substrings *)

Section Includes.

Lemma eqb_refl (s : jsstring) : JsString.eqb s s = true.
Proof. induction s as [|c s IH]; simpl; [reflexivity|]. rewrite N.eqb_refl. exact IH. Qed.

Lemma eqb_eq (s t : jsstring) : JsString.eqb s t = true <-> s = t.
Proof.
  split; [|intros ->; apply eqb_refl].
  revert t. induction s as [|c s IH]; intros [|d t]; simpl; try discriminate; auto.
  intros [Hc Hs]%andb_true_iff. apply N.eqb_eq in Hc. f_equal; auto.
Qed.

Lemma startsWith_app (p s : jsstring) : JsString.startsWith (p ++ s) p = true.
Proof. induction p as [|c p IH]; simpl; [reflexivity|]. rewrite N.eqb_refl. exact IH. Qed.

Lemma startsWith_inv (s p : jsstring) :
  JsString.startsWith s p = true -> s = p ++ drop (length p) s.
Proof.
  revert s. induction p as [|c p IH]; intros [|d s]; simpl; try discriminate; auto.
  intros [Hc Hs]%andb_true_iff. apply N.eqb_eq in Hc. subst. f_equal. auto.
Qed.

Lemma includes_here (s p : jsstring) :
  JsString.startsWith s p = true -> JsString.includes s p = true.
Proof. intros Hs. destruct s; simpl in *; rewrite Hs; reflexivity. Qed.

Lemma includes_app (a p b : jsstring) : JsString.includes (a ++ p ++ b) p = true.
Proof.
  induction a as [|c a IH]; simpl.
  - apply includes_here, startsWith_app.
  - rewrite IH. apply orb_true_r.
Qed.

Lemma includes_after (a b p : jsstring) :
  JsString.includes b p = true -> JsString.includes (a ++ b) p = true.
Proof.
  intros Hb. induction a as [|c a IH]; simpl; [exact Hb|].
  rewrite IH. apply orb_true_r.
Qed.

End Includes.

(** ** Running the methods *)

Section Runs.

Context {H : Type} `{Host H}.

Lemma bind_alloc {B} (a : CookieAttributes) (k : ref -> M H B) (w : world H) :
  bind (alloc a) k w =
  k (fresh (dom (heap w))) (after_set (fresh (dom (heap w))) a (host w) w).
Proof. reflexivity. Qed.

(** [set] without an attributes argument works on a new empty object. *)
Lemma set_default_run (key : jsstring) (value : value) (w : world H) :
  Cookie.set key value None w =
  (Normal (formatted key value w no_attributes),
   after_set (fresh (dom (heap w))) (resolved w no_attributes)
     (document_cookie_assign (formatted key value w no_attributes) (host w)) w).
Proof.
  transitivity
    (Cookie.set key value (Some (fresh (dom (heap w))))
       (after_set (fresh (dom (heap w))) no_attributes (host w) w)).
  { reflexivity. }
  rewrite (set_run _ _ _ _ _ (after_set_lookup _ _ _ _)).
  cbn [rejected no_attributes sameSite secure]. rewrite after_set_twice.
  reflexivity.
Qed.

Lemma remove_run (key : jsstring) (attributes : PathAttributes) (w : world H) :
  Cookie.remove key attributes w =
  (Normal tt,
   after_set (fresh (dom (heap w))) (resolved w (removal attributes))
     (document_cookie_assign (formatted key (VStr []) w (removal attributes)) (host w))
     w).
Proof.
  unfold Cookie.remove. rewrite bind_alloc.
  unfold bind at 1.
  rewrite (set_run _ _ _ _ _ (after_set_lookup _ _ _ _)).
  cbn [rejected removal sameSite secure]. rewrite after_set_twice.
  reflexivity.
Qed.



(** Without a default time to live, that expiration is the epoch. *)
Lemma remove_expires_at_epoch (attributes : PathAttributes) (w : world H) :
  static_ttl w = None \/ static_ttl w = Some 0 ->
  expiration w (removal attributes) = Some (ExpiresDate (DateModel.new 0)).
Proof.
  intros Hs. unfold expiration, ttl_in_force. cbn [ttl removal].
  destruct Hs as [->| ->]; reflexivity.
Qed.

Lemma remove_keeps_default (key : jsstring) (attributes : PathAttributes) (w : world H) :
  static_ttl (snd (Cookie.remove key attributes w)) = static_ttl w.
Proof. rewrite remove_run. reflexivity. Qed.

End Runs.

(** ** The SameSite/Secure validation *)

Section Validation.

Context {H : Type} `{Host H}.

(** C1.  When [sameSite] is ["None"]: with [secure] true, [set] returns the
    formatted string, which contains [SameSite=None] and [Secure], after
    assigning it to [document.cookie]; with [secure] anything else, [set]
    throws the validation error and the host has been given nothing. *)
Theorem set_sameSite_None (key : jsstring) (v : value) (l : ref)
    (a : CookieAttributes) (w : world H) :
  heap w !! l = Some a ->
  sameSite a = Some None_ ->
  match secure a with
  | Some true =>
      exists cookie w',
        Cookie.set key v (Some l) w = (Normal cookie, w')
        /\ host w' = document_cookie_assign cookie (host w)
        /\ JsString.includes cookie (str "SameSite=None") = true
        /\ JsString.includes cookie (str "Secure") = true
  | _ =>
      exists w',
        Cookie.set key v (Some l) w
        = (Throw (Error Cookie.validation_message), w')
        /\ host w' = host w
  end.
Proof.
  intros Hl Hs. rewrite (set_run _ _ _ _ _ Hl). unfold rejected. rewrite Hs.
  destruct (secure a) as [[|]|] eqn:Hsec.
  - eexists _, _. split; [reflexivity|]. split; [reflexivity|].
    unfold formatted, scope_segments, sameSite_segment, secure_segment.
    rewrite Hs. cbn [SameSite_text].
    split; do 4 apply includes_after; reflexivity.
  - eexists. split; reflexivity.
  - eexists. split; reflexivity.
Qed.

End Validation.

Lemma set_sameSite_None_witness :
  (exists w',
     Cookie.set (str "k") (VStr (str "v")) (Some 1%positive)
       (sample_world None sameSite_None_only 0 "")
     = (Throw (Error Cookie.validation_message), w')
     /\ host w' = host (sample_world None sameSite_None_only 0 ""))
  /\
  (exists cookie w',
     Cookie.set (str "k") (VStr (str "v")) (Some 1%positive)
       (sample_world None sameSite_None_secure 0 "")
     = (Normal cookie, w')
     /\ host w'
        = document_cookie_assign cookie (host (sample_world None sameSite_None_secure 0 ""))
     /\ JsString.includes cookie (str "SameSite=None") = true
     /\ JsString.includes cookie (str "Secure") = true).
Proof.
  split.
  - exact (set_sameSite_None (str "k") (VStr (str "v")) 1%positive
             sameSite_None_only (sample_world None sameSite_None_only 0 "")
             eq_refl eq_refl).
  - exact (set_sameSite_None (str "k") (VStr (str "v")) 1%positive
             sameSite_None_secure (sample_world None sameSite_None_secure 0 "")
             eq_refl eq_refl).
Defined.

(** ** Expiration *)

Section Expiration.

Context {H : Type} `{Host H}.




End Expiration.




(** ** Removal *)

(** C3, at an input where the code departs from it.  With the default time
    to live 60 in force, on 1 November 2026 at 18:12:00, [remove("k",
    { path: "/" })] assigns an entry that expires one minute later, not in
    the past: the default overrides the [new Date(0)] that [remove] passes
    to [set]. *)
Theorem remove_under_default_ttl :
  assigned (host (snd (Cookie.remove (str "k") (PathOnly (Some (str "/")))
                         (sample_world (Some 60) no_attributes 1793556720000 "k=v"))))
  = [str "k=; expires=Sun, 01 Nov 2026 18:13:00 GMT; path=/"]
  /\ DateModel.toUTCString (DateModel.new 1793556720000)
     = str "Sun, 01 Nov 2026 18:12:00 GMT".
Proof. split; vm_compute; reflexivity. Qed.

(** ** Reading *)

Section Reading.

Context {H : Type} `{Host H}.

Lemma get_run (key : jsstring) (fb : Cookie.fallback) (w : world H) :
  Cookie.get key fb w =
  match Cookie.exec (Cookie.escape key) (document_cookie (host w)) with
  | Some cookie => (Normal (Cookie.decode cookie), w)
  | None =>
      match fb with
      | Cookie.Function f => (Normal (f tt), called w)
      | Cookie.Plain (VUndefined | VNull) => (Normal VNull, w)
      | Cookie.Plain v => (Normal v, w)
      end
  end.
Proof.
  unfold Cookie.get. rewrite bind_read_host.
  destruct (Cookie.exec _ _); [reflexivity|].
  destruct fb as [f|[]]; reflexivity.
Qed.

(** With a fallback that is no function, [get] returns and leaves the
    world as it was. *)
Lemma get_plain (key : jsstring) (v0 : value) (w : world H) :
  exists v, Cookie.get key (Cookie.Plain v0) w = (Normal v, w).
Proof.
  rewrite get_run. destruct (Cookie.exec _ _); [eauto|].
  destruct v0; eauto.
Qed.

Lemma literal_escape (key : jsstring) : Cookie.literal (Cookie.escape key) = key.
Proof.
  induction key as [|c key IH]; [reflexivity|]. simpl.
  destruct (Cookie.special c) eqn:Hs.
  - simpl. rewrite IH. reflexivity.
  - simpl. destruct (c =? 92)%N eqn:Hc.
    + apply N.eqb_eq in Hc. subst. discriminate.
    + rewrite IH. reflexivity.
Qed.

(** C6, amended.  When the second group of the match is empty, the entry
    being [key=], [get] returns the empty string whatever the fallback,
    which is neither returned nor called. *)
Theorem get_empty_value (key : jsstring) (fb : Cookie.fallback) (w : world H) :
  Cookie.exec (Cookie.escape key) (document_cookie (host w)) = Some [] ->
  Cookie.get key fb w = (Normal (VStr []), w).
Proof. intros He. rewrite get_run, He. reflexivity. Qed.


End Reading.

(** ** Remembering and touching *)

Section Remembering.

Context {H : Type} `{Host H}.

Lemma set_keeps_invocations (key : jsstring) (v : value) (attributes : option ref)
    (w : world H) :
  invocations (snd (Cookie.set key v attributes w)) = invocations w.
Proof.
  destruct attributes as [l|].
  - destruct (heap w !! l) as [a|] eqn:Hl.
    + rewrite (set_run _ _ _ _ _ Hl). destruct (rejected a); reflexivity.
    + unfold Cookie.set. rewrite bind_ret. unfold bind, load. rewrite Hl.
      reflexivity.
  - rewrite set_default_run. reflexivity.
Qed.

(** C7, amended.  [remember] first reads the key as [get(key, null)] does.
    When that is [null] (no entry matches, or the entry's text parses to
    [null]) the callback is called once, [set] formats and assigns its
    result under the key with the given attributes, and [remember] returns
    what [set] returns: the formatted string, or its exception.  Otherwise
    [remember] returns the value read; nothing is called or assigned. *)
Theorem remember_runs (key : jsstring) (f : callback) (attributes : option ref)
    (w : world H) :
  exists v,
    Cookie.get key (Cookie.Plain VNull) w = (Normal v, w)
    /\ match v with
       | VNull =>
           Cookie.remember key f attributes w
           = match Cookie.set key (f tt) attributes (called w) with
             | (Normal text, w') => (Normal (VStr text), w')
             | (Throw e, w') => (Throw e, w')
             end
           /\ invocations (snd (Cookie.remember key f attributes w))
              = S (invocations w)
       | _ => Cookie.remember key f attributes w = (Normal v, w)
       end.
Proof.
  destruct (get_plain key VNull w) as [v Hv]. exists v. split; [exact Hv|].
  assert (Hr : forall B (k : value -> M H B),
             bind (Cookie.get key (Cookie.Plain VNull)) k w = k v w).
  { intros B k. unfold bind. rewrite Hv. reflexivity. }
  unfold Cookie.remember. rewrite Hr.
  destruct v; try reflexivity.
  rewrite bind_invoke. fold (called w).
  pose proof (set_keeps_invocations key (f tt) attributes (called w)) as Hi.
  unfold bind.
  destruct (Cookie.set key (f tt) attributes (called w)) as [[text|e] w']; cbn in *;
    split; auto.
Qed.

Lemma touch_run (key : jsstring) (t : option Z) (attributes : PathAttributes)
    (w : world H) (v : value) :
  Cookie.get key (Cookie.Plain VNull) w = (Normal v, w) ->
  Cookie.touch key t attributes w =
  match v with
  | VNull => (Normal tt, w)
  | _ =>
      (Normal tt,
       after_set (fresh (dom (heap w))) (resolved w (touched w t attributes))
         (document_cookie_assign (formatted key v w (touched w t attributes)) (host w))
         w)
  end.
Proof.
  intros Hv.
  assert (Hr : forall B (k : value -> M H B),
             bind (Cookie.get key (Cookie.Plain VNull)) k w = k v w).
  { intros B k. unfold bind. rewrite Hv. reflexivity. }
  unfold Cookie.touch. rewrite Hr.
  assert (Ht : forall B (k : option Z -> M H B),
             bind (match t with Some t' => ret (Some t') | None => read_ttl end) k w
             = k (match t with Some t' => Some t' | None => static_ttl w end) w).
  { intros B k. destruct t; reflexivity. }
  destruct v; try reflexivity;
    rewrite Ht, bind_alloc; unfold bind at 1;
    rewrite (set_run _ _ _ _ _ (after_set_lookup _ _ _ _));
    cbn [rejected sameSite secure]; rewrite after_set_twice; reflexivity.
Qed.


End Remembering.

(** ** Values that cannot be serialized *)

Section Unserializable.

Context {H : Type} `{Host H}.

(** C4, amended.  When [JSON.stringify] throws on the value, the encoder
    returns the empty string and [set] does what it does for the empty
    string: the entry is the key followed by [=] and nothing.  Without
    attributes the call returns, the formatted string being that entry and
    the expiration of the default time to live, if any. *)
Theorem set_unserializable (key : jsstring) (v : value) (e : error)
    (attributes : option ref) (w : world H) :
  JSON.stringify v = Throw e ->
  Cookie._stringify v = []
  /\ entry key v = key ++ str "="
  /\ Cookie.set key v attributes w = Cookie.set key (VStr []) attributes w
  /\ fst (Cookie.set key v None w)
     = Normal (key ++ str "=" ++ expires_segment (expiration w no_attributes)).
Proof.
  intros Hv.
  assert (Hs : Cookie._stringify v = []).
  { destruct v as [| |[]|n|s|z| |l|l]; try discriminate Hv; try reflexivity;
      unfold Cookie._stringify; rewrite Hv; reflexivity. }
  assert (He : entry key v = entry key (VStr [])).
  { unfold entry. rewrite Hs.
    destruct v as [| |[]|n|s|z| |l|l]; try discriminate Hv; reflexivity. }
  split; [exact Hs|]. split; [rewrite He; reflexivity|].
  assert (Hset : forall o, Cookie.set key v o w = Cookie.set key (VStr []) o w).
  { intros o. unfold Cookie.set.
    change (match v with
            | VUndefined | VNull => key
            | _ => key ++ str "=" ++ Cookie._stringify v
            end) with (entry key v).
    rewrite He. reflexivity. }
  split; [apply Hset|].
  rewrite Hset, set_default_run. cbn [fst]. unfold formatted.
  cbn. rewrite app_nil_r, <- app_assoc. reflexivity.
Qed.

End Unserializable.

Lemma set_unserializable_witness :
  Cookie._stringify (VArr [VBigInt 1]) = []
  /\ fst (Cookie.set (str "k") (VArr [VBigInt 1]) None
            (sample_world None no_attributes 0 ""))
     = Normal (str "k=").
Proof.
  pose proof (set_unserializable (str "k") (VArr [VBigInt 1]) TypeError None
                (sample_world None no_attributes 0 "") eq_refl) as (Hs & _ & _ & Hf).
  split; [exact Hs|exact Hf].
Defined.

(** C4 as stated fails: a circular value is written as [k=], with the
    equals sign, where [null] is written as the bare key. *)
Lemma set_circular_keeps_equals_sign :
  fst (Cookie.set (str "k") VCircular None (sample_world None no_attributes 0 ""))
  = Normal (str "k=")
  /\ fst (Cookie.set (str "k") VNull None (sample_world None no_attributes 0 ""))
     = Normal (str "k").
Proof. split; vm_compute; reflexivity. Qed.

(** ** The codec *)

Section DigitFacts.

Lemma value_snoc (ds : jsstring) (c : N) :
  Digits.value (ds ++ [c]) = 10 * Digits.value ds + (Z.of_N c - 48).
Proof. unfold Digits.value. rewrite fold_left_app. reflexivity. Qed.

Lemma digit_value (d : Z) : 0 <= d -> Z.of_N (Digits.digit d) - 48 = d.
Proof. intros Hd. unfold Digits.digit. lia. Qed.

Lemma is_digit_digit (d : Z) : 0 <= d < 10 -> Digits.is_digit (Digits.digit d) = true.
Proof.
  intros Hd. unfold Digits.is_digit, Digits.digit.
  apply andb_true_iff. split; apply N.leb_le; lia.
Qed.

Lemma half_fuel (fuel : nat) (n : Z) :
  10 <= n -> n < 2 ^ Z.of_nat (S fuel) -> 0 < n / 10 < 2 ^ Z.of_nat fuel.
Proof.
  intros Hn Hf. rewrite Nat2Z.inj_succ, Z.pow_succ_r in Hf by lia.
  assert (0 < 2 ^ Z.of_nat fuel) by (apply Z.pow_pos_nonneg; lia).
  split.
  - apply Z.div_str_pos. lia.
  - apply Z.div_lt_upper_bound; lia.
Qed.

Lemma decimal_fuel_value (fuel : nat) (n : Z) :
  0 <= n < 2 ^ Z.of_nat fuel -> Digits.value (Digits.decimal_fuel fuel n) = n.
Proof.
  revert n. induction fuel as [|fuel IH]; intros n Hn.
  - change (2 ^ Z.of_nat 0) with 1 in Hn. cbn. lia.
  - cbn [Digits.decimal_fuel]. rewrite value_snoc, digit_value
      by (apply Z.mod_pos_bound; lia).
    destruct (n <? 10) eqn:Hlt.
    + apply Z.ltb_lt in Hlt. cbn. rewrite Z.mod_small by lia. lia.
    + apply Z.ltb_ge in Hlt. rewrite IH by (pose proof (half_fuel fuel n); lia).
      pose proof (Z.div_mod n 10). lia.
Qed.

Lemma enough_fuel (n : Z) : 0 <= n -> n < 2 ^ Z.of_nat (S (Z.to_nat (Z.log2 n))).
Proof.
  intros Hn. rewrite Nat2Z.inj_succ, Z2Nat.id by apply Z.log2_nonneg.
  destruct (Z.eq_dec n 0) as [->|Hz]; [reflexivity|].
  apply Z.log2_spec. lia.
Qed.

Lemma decimal_value (n : Z) : 0 <= n -> Digits.value (Digits.decimal n) = n.
Proof.
  intros Hn. apply decimal_fuel_value. split; [exact Hn|apply enough_fuel, Hn].
Qed.

Lemma decimal_fuel_digits (fuel : nat) (n : Z) :
  0 <= n -> forallb Digits.is_digit (Digits.decimal_fuel fuel n) = true.
Proof.
  revert n. induction fuel as [|fuel IH]; intros n Hn; [reflexivity|].
  cbn [Digits.decimal_fuel]. rewrite forallb_app. apply andb_true_iff. split.
  - destruct (n <? 10); [reflexivity|]. apply IH. apply Z.div_pos; lia.
  - cbn. rewrite is_digit_digit by (apply Z.mod_pos_bound; lia). reflexivity.
Qed.

Lemma decimal_digits (n : Z) :
  0 <= n -> forallb Digits.is_digit (Digits.decimal n) = true.
Proof. apply decimal_fuel_digits. Qed.

(** The first digit of a positive number is not zero. *)
Lemma decimal_fuel_head (fuel : nat) (n : Z) :
  0 < n < 2 ^ Z.of_nat fuel ->
  exists c ds, Digits.decimal_fuel fuel n = c :: ds /\ c <> 48%N
               /\ Digits.is_digit c = true.
Proof.
  revert n. induction fuel as [|fuel IH]; intros n Hn.
  - change (2 ^ Z.of_nat 0) with 1 in Hn. lia.
  - cbn [Digits.decimal_fuel]. destruct (n <? 10) eqn:Hlt.
    + apply Z.ltb_lt in Hlt. exists (Digits.digit (n mod 10)), [].
      rewrite Z.mod_small by lia. split; [reflexivity|]. split.
      * unfold Digits.digit. lia.
      * apply is_digit_digit. lia.
    + apply Z.ltb_ge in Hlt.
      destruct (IH (n / 10)) as (c & ds & -> & Hc & Hd).
      { apply half_fuel; lia. }
      exists c, (ds ++ [Digits.digit (n mod 10)]). auto.
Qed.

Lemma decimal_head (n : Z) :
  0 < n ->
  exists c ds, Digits.decimal n = c :: ds /\ c <> 48%N /\ Digits.is_digit c = true.
Proof.
  intros Hn. apply decimal_fuel_head. split; [exact Hn|apply enough_fuel; lia].
Qed.

Lemma decimal_last (n : Z) :
  0 <= n -> exists ds, Digits.decimal n = ds ++ [Digits.digit (n mod 10)].
Proof. intros Hn. unfold Digits.decimal. cbn [Digits.decimal_fuel]. eauto. Qed.

Lemma decimal_zero : Digits.decimal 0 = [48%N].
Proof. reflexivity. Qed.

End DigitFacts.

Section NumeralFacts.

Lemma value_app (x y : jsstring) :
  Digits.value (x ++ y) = Digits.value x * 10 ^ Z.of_nat (length y) + Digits.value y.
Proof.
  induction y as [|c y IH] using rev_ind.
  - rewrite app_nil_r. cbn. lia.
  - rewrite app_assoc, !value_snoc, IH, length_app. cbn [length].
    rewrite Nat.add_1_r, Nat2Z.inj_succ, Z.pow_succ_r by lia. lia.
Qed.

Lemma value_zeros (n : nat) : Digits.value (replicate n 48%N) = 0.
Proof.
  induction n as [|n IH]; [reflexivity|].
  change (replicate (S n) 48%N) with ([48%N] ++ replicate n 48%N).
  rewrite value_app, IH. cbn. lia.
Qed.

Lemma digits_zeros (n : nat) : forallb Digits.is_digit (replicate n 48%N) = true.
Proof. induction n as [|n IH]; [reflexivity|]. cbn. exact IH. Qed.

Lemma span_digits_app (ds rest : jsstring) :
  forallb Digits.is_digit ds = true ->
  match rest with [] => True | c :: _ => Digits.is_digit c = false end ->
  JSON.span_digits (ds ++ rest) = (ds, rest).
Proof.
  intros Hds Hrest. induction ds as [|c ds IH].
  - destruct rest as [|c rest]; [reflexivity|]. cbn. rewrite Hrest. reflexivity.
  - cbn in Hds. apply andb_true_iff in Hds as [Hc Hds].
    cbn. rewrite Hc, (IH Hds). reflexivity.
Qed.

Lemma stops_not_digit (rest : jsstring) :
  stops rest -> match rest with [] => True | c :: _ => Digits.is_digit c = false end.
Proof. destruct rest as [|c rest]; [auto|]. intros [->|[->| ->]]; reflexivity. Qed.

Lemma parse_fraction_stops (rest : jsstring) :
  stops rest -> JSON.parse_fraction rest = Some ([], rest).
Proof. destruct rest as [|c rest]; [auto|]. intros [->|[->| ->]]; reflexivity. Qed.

Lemma parse_exponent_stops (rest : jsstring) :
  stops rest -> JSON.parse_exponent rest = Some (0, rest).
Proof. destruct rest as [|c rest]; [auto|]. intros [->|[->| ->]]; reflexivity. Qed.

Lemma strip_pow (j fuel : nat) (m e : Z) :
  m mod 10 <> 0 -> (j < fuel)%nat ->
  Number.strip fuel (m * 10 ^ Z.of_nat j) e = Finite m (e + Z.of_nat j).
Proof.
  intros Hm. revert fuel e. induction j as [|j IH]; intros [|fuel] e Hf; try lia.
  - cbn [Number.strip]. rewrite Z.mul_1_r, Z.add_0_r.
    assert (m <> 0) by (intros ->; apply Hm; reflexivity).
    destruct (Z.eqb_spec m 0); [contradiction|].
    destruct (Z.eqb_spec (m mod 10) 0); [contradiction|]. reflexivity.
  - cbn [Number.strip]. rewrite Nat2Z.inj_succ, Z.pow_succ_r by lia.
    assert (Hp : 0 < 10 ^ Z.of_nat j) by (apply Z.pow_pos_nonneg; lia).
    assert (m <> 0) by (intros ->; apply Hm; reflexivity).
    replace (m * (10 * 10 ^ Z.of_nat j)) with (m * 10 ^ Z.of_nat j * 10) by lia.
    destruct (Z.eqb_spec (m * 10 ^ Z.of_nat j * 10) 0) as [Hz|_]; [nia|].
    rewrite Z.mod_mul by lia. cbn [Z.eqb].
    rewrite Z.div_mul by lia. rewrite IH by lia. f_equal. lia.
Qed.

Lemma make_pow (j : nat) (m e : Z) :
  m mod 10 <> 0 -> Number.make (m * 10 ^ Z.of_nat j) e = Finite m (e + Z.of_nat j).
Proof.
  intros Hm. apply strip_pow; [exact Hm|].
  assert (m <> 0) by (intros ->; apply Hm; reflexivity).
  assert (Hp : 0 < 10 ^ Z.of_nat j) by (apply Z.pow_pos_nonneg; lia).
  assert (Hle : Z.of_nat j <= Z.log2 (Z.abs (m * 10 ^ Z.of_nat j))).
  { apply Z.log2_le_pow2; [nia|].
    transitivity (10 ^ Z.of_nat j); [apply Z.pow_le_mono_l; lia|].
    rewrite Z.abs_mul, (Z.abs_eq (10 ^ _)) by lia. nia. }
  lia.
Qed.

Lemma make_canonical (m e : Z) :
  Number.wf (Finite m e) -> Number.make m e = Finite m e.
Proof.
  unfold Number.wf. destruct (Z.eqb_spec m 0) as [->|Hm].
  - intros ->. reflexivity.
  - intros Hmod. pose proof (make_pow 0 m e Hmod) as Hp.
    cbn in Hp. rewrite Z.mul_1_r, Z.add_0_r in Hp. exact Hp.
Qed.

End NumeralFacts.

Section NumberRoundTrip.

Lemma forallb_take_drop (n : nat) (ds : jsstring) :
  forallb Digits.is_digit ds = true ->
  forallb Digits.is_digit (take n ds) = true
  /\ forallb Digits.is_digit (drop n ds) = true.
Proof.
  intros Hds. rewrite <- (take_drop n ds), forallb_app in Hds.
  apply andb_true_iff in Hds. exact Hds.
Qed.

Lemma int_ok_head (c : N) (ds : jsstring) :
  c <> 48%N -> JSON.int_ok (c :: ds) = true.
Proof.
  intros Hc. destruct ds; [reflexivity|]. cbn.
  destruct (N.eqb_spec c 48); [contradiction|reflexivity].
Qed.

Lemma parse_fraction_digits (ds rest : jsstring) :
  ds <> [] -> forallb Digits.is_digit ds = true ->
  match rest with [] => True | c :: _ => Digits.is_digit c = false end ->
  JSON.parse_fraction (46%N :: ds ++ rest) = Some (ds, rest).
Proof.
  intros Hne Hds Hrest. cbn. rewrite (span_digits_app _ _ Hds Hrest).
  destruct ds; [contradiction|reflexivity].
Qed.

Lemma parse_exponent_signed (negative : bool) (ds rest : jsstring) :
  ds <> [] -> forallb Digits.is_digit ds = true ->
  match rest with [] => True | c :: _ => Digits.is_digit c = false end ->
  JSON.parse_exponent (101%N :: (if negative then 45%N else 43%N) :: ds ++ rest)
  = Some (if negative then - Digits.value ds else Digits.value ds, rest).
Proof.
  intros Hne Hds Hrest. unfold JSON.parse_exponent.
  destruct negative; cbn -[JSON.span_digits Digits.value];
    rewrite (span_digits_app _ _ Hds Hrest);
    destruct ds; try contradiction; reflexivity.
Qed.

Lemma parse_exponent_digits (n : Z) (rest : jsstring) :
  stops rest ->
  JSON.parse_exponent
    (str "e" ++ (if n <? 0 then str "-" else str "+") ++ Digits.decimal (Z.abs n)
     ++ rest)
  = Some (n, rest).
Proof.
  intros Hrest.
  transitivity
    (JSON.parse_exponent
       (101%N :: (if n <? 0 then 45%N else 43%N) :: Digits.decimal (Z.abs n) ++ rest)).
  { destruct (n <? 0); reflexivity. }
  rewrite parse_exponent_signed.
  - rewrite decimal_value by lia. destruct (Z.ltb_spec n 0); f_equal; f_equal; lia.
  - destruct (decimal_last (Z.abs n)) as [ds ->]; [lia|]. destruct ds; discriminate.
  - apply decimal_digits. lia.
  - apply stops_not_digit, Hrest.
Qed.

Lemma parse_unsigned_layout (c : N) (ds' : jsstring) (n : Z) (rest : jsstring) :
  forallb Digits.is_digit (c :: ds') = true ->
  c <> 48%N ->
  stops rest ->
  exists j : nat,
    JSON.parse_unsigned (Number.layout (c :: ds') n ++ rest)
    = Some (Digits.value (c :: ds') * 10 ^ Z.of_nat j,
            n - Z.of_nat (length (c :: ds')) - Z.of_nat j, rest).
Proof.
  intros Hds Hc Hrest. remember (c :: ds') as ds eqn:Eds.
  assert (Hk : (0 < length ds)%nat) by (subst ds; cbn; lia).
  assert (Hnd := stops_not_digit _ Hrest).
  unfold Number.layout.
  destruct ((Z.of_nat (length ds) <=? n) && (n <=? 21)) eqn:H1.
  { (* digits and zeros *)
    apply andb_true_iff in H1 as [H1 _]. apply Z.leb_le in H1.
    exists (Z.to_nat (n - Z.of_nat (length ds))).
    unfold JSON.parse_unsigned.
    rewrite span_digits_app; [|rewrite forallb_app, Hds, digits_zeros; reflexivity|exact Hnd].
    assert (Hint : JSON.int_ok (ds ++ replicate (Z.to_nat (n - Z.of_nat (length ds))) 48%N) = true)
      by (subst ds; apply int_ok_head, Hc).
    rewrite Hint.
    rewrite (parse_fraction_stops _ Hrest), (parse_exponent_stops _ Hrest).
    rewrite app_nil_r.
    rewrite value_app, value_zeros, length_replicate. cbn [length].
    f_equal. f_equal. f_equal; lia. }
  destruct ((0 <? n) && (n <=? 21)) eqn:H2.
  { (* a decimal point inside the digits *)
    apply andb_true_iff in H2 as [H2 H2']. apply Z.ltb_lt in H2.
    apply andb_false_iff in H1 as [H1|H1]; [apply Z.leb_gt in H1|congruence].
    exists 0%nat.
    destruct (forallb_take_drop (Z.to_nat n) ds Hds) as [Ht Hd].
    unfold JSON.parse_unsigned. rewrite <- app_assoc.
    rewrite span_digits_app; [|exact Ht|reflexivity].
    assert (Htake : take (Z.to_nat n) ds = c :: take (Z.to_nat n - 1) ds').
    { subst ds. destruct (Z.to_nat n) as [|n'] eqn:Hn; [lia|].
      cbn. rewrite Nat.sub_0_r. reflexivity. }
    rewrite Htake at 1. rewrite (int_ok_head _ _ Hc).
    change ((str "." ++ drop (Z.to_nat n) ds) ++ rest)
      with (46%N :: drop (Z.to_nat n) ds ++ rest).
    rewrite parse_fraction_digits; [| |exact Hd|exact Hnd].
    2:{ intros Hnil. apply (f_equal length) in Hnil.
        rewrite length_drop in Hnil. cbn [length] in Hnil. lia. }
    rewrite (parse_exponent_stops _ Hrest), take_drop, length_drop.
    f_equal. f_equal. f_equal; lia. }
  destruct ((-6 <? n) && (n <=? 0)) eqn:H3.
  { (* zeros after the decimal point *)
    apply andb_true_iff in H3 as [_ H3]. apply Z.leb_le in H3.
    exists 0%nat.
    unfold JSON.parse_unsigned.
    change ((str "0." ++ replicate (Z.to_nat (- n)) 48%N ++ ds) ++ rest)
      with ([48%N] ++ 46%N :: (replicate (Z.to_nat (- n)) 48%N ++ ds) ++ rest).
    rewrite span_digits_app; [|reflexivity|reflexivity].
    cbn [JSON.int_ok].
    rewrite parse_fraction_digits; [| | |exact Hnd].
    2:{ subst ds. destruct (replicate _ _); discriminate. }
    2:{ rewrite forallb_app, Hds, digits_zeros. reflexivity. }
    rewrite (parse_exponent_stops _ Hrest).
    change ([48%N] ++ replicate (Z.to_nat (- n)) 48%N ++ ds)
      with (replicate (S (Z.to_nat (- n))) 48%N ++ ds).
    rewrite value_app, value_zeros, length_app, length_replicate.
    f_equal. f_equal. f_equal; lia. }
  (* an exponent *)
  exists 0%nat. unfold JSON.parse_unsigned. subst ds.
  destruct ds' as [|d ds''].
  - rewrite <- !app_assoc.
    rewrite span_digits_app; [|exact Hds|reflexivity].
    cbn [JSON.int_ok].
    change (JSON.parse_fraction (str "e" ++ ?x)) with (Some ([] : jsstring, str "e" ++ x)).
    cbv iota beta.
    rewrite (parse_exponent_digits _ _ Hrest).
    cbn [length app]. f_equal. f_equal. f_equal; lia.
  - rewrite <- !app_assoc.
    change (str "." ++ (d :: ds'') ++ ?x) with (46%N :: (d :: ds'') ++ x).
    cbn in Hds. apply andb_true_iff in Hds as [Hc' Hds].
    rewrite span_digits_app; [|cbn; rewrite Hc'; reflexivity|reflexivity].
    cbn [JSON.int_ok].
    rewrite parse_fraction_digits; [|discriminate|exact Hds|reflexivity].
    rewrite (parse_exponent_digits _ _ Hrest).
    cbn [length]. f_equal. f_equal. f_equal; [|lia].
    change (c :: d :: ds'') with ([c] ++ d :: ds''). lia.
Qed.

End NumberRoundTrip.

Section NumberValue.

Lemma layout_head (c : N) (ds' : jsstring) (n : Z) :
  Digits.is_digit c = true ->
  exists c0 t, Number.layout (c :: ds') n = c0 :: t /\ Digits.is_digit c0 = true.
Proof.
  intros Hc. unfold Number.layout.
  destruct ((Z.of_nat (length (c :: ds')) <=? n) && (n <=? 21));
    [exists c; eexists; split; [reflexivity|exact Hc]|].
  destruct ((0 <? n) && (n <=? 21)) eqn:H2.
  { apply andb_true_iff in H2 as [H2 _]. apply Z.ltb_lt in H2.
    destruct (Z.to_nat n) as [|n'] eqn:Hn; [lia|].
    exists c. eexists. split; [reflexivity|exact Hc]. }
  destruct ((-6 <? n) && (n <=? 0));
    [exists 48%N; eexists; split; reflexivity|].
  destruct ds'; exists c; eexists; (split; [reflexivity|exact Hc]).
Qed.

Lemma digit_not_minus (c : N) : Digits.is_digit c = true -> (c =? 45)%N = false.
Proof.
  unfold Digits.is_digit. intros [H1 H2]%andb_true_iff.
  apply N.leb_le in H1. apply N.eqb_neq. lia.
Qed.

Lemma parse_number_toString (m e : Z) (rest : jsstring) :
  Number.wf (Finite m e) ->
  stops rest ->
  JSON.parse_number (Number.toString (Finite m e) ++ rest)
  = JSON.Parsed (VNum (Finite m e)) rest.
Proof.
  intros Hwf Hrest. unfold Number.wf in Hwf. unfold Number.toString.
  destruct (Z.eqb_spec m 0) as [->|Hm].
  { subst e. cbn [app str]. unfold JSON.parse_number.
    change (str "0" ++ rest) with ([48%N] ++ rest).
    cbn [app]. change ((48 =? 45)%N) with false. cbv iota.
    unfold JSON.parse_unsigned.
    change (48%N :: rest) with ([48%N] ++ rest).
    rewrite span_digits_app; [|reflexivity|apply stops_not_digit, Hrest].
    cbn [JSON.int_ok].
    rewrite (parse_fraction_stops _ Hrest), (parse_exponent_stops _ Hrest).
    reflexivity. }
  destruct (decimal_head (Z.abs m)) as (c & ds' & Hd & Hc & Hdig); [lia|].
  assert (Hall := decimal_digits (Z.abs m) ltac:(lia)).
  assert (Hval := decimal_value (Z.abs m) ltac:(lia)).
  rewrite Hd in *.
  destruct (parse_unsigned_layout c ds' (Z.of_nat (length (c :: ds')) + e) rest
              Hall Hc Hrest) as [j Hj].
  destruct (layout_head c ds' (Z.of_nat (length (c :: ds')) + e) Hdig)
    as (c0 & t & Hl & Hc0).
  rewrite Hval in Hj.
  destruct (Z.ltb_spec m 0) as [Hneg|Hpos].
  - change (str "-") with [45%N]. cbn [app].
    unfold JSON.parse_number. change ((45 =? 45)%N) with true. cbv iota.
    rewrite Hj.
    replace (- (Z.abs m * 10 ^ Z.of_nat j)) with (m * 10 ^ Z.of_nat j) by lia.
    rewrite make_pow by exact Hwf. do 2 f_equal. f_equal. lia.
  - cbn [app]. rewrite Hl in *. cbn [app] in *.
    unfold JSON.parse_number. rewrite (digit_not_minus _ Hc0), Hj.
    replace (Z.abs m) with m by lia.
    rewrite make_pow by exact Hwf. do 2 f_equal. f_equal. lia.
Qed.

Lemma parse_value_numeral (fuel : nat) (c : N) (t : jsstring) :
  Digits.is_digit c = true \/ c = 45%N ->
  JSON.parse_value (S fuel) (c :: t) = JSON.parse_number (c :: t).
Proof.
  intros Hc.
  assert (Hrange : (45 <= c <= 57)%N).
  { destruct Hc as [Hc| ->]; [|lia]. unfold Digits.is_digit in Hc.
    apply andb_true_iff in Hc as [H1 H2]. apply N.leb_le in H1, H2. lia. }
  cbn [JSON.parse_value].
  destruct (N.eqb_spec c 34); [lia|].
  destruct (N.eqb_spec c 91); [lia|].
  destruct (N.eqb_spec c 123); [lia|].
  change (str "null") with [110; 117; 108; 108]%N.
  change (str "true") with [116; 114; 117; 101]%N.
  change (str "false") with [102; 97; 108; 115; 101]%N.
  cbn [JsString.startsWith].
  destruct (N.eqb_spec 110 c); [lia|].
  destruct (N.eqb_spec 116 c); [lia|].
  destruct (N.eqb_spec 102 c); [lia|].
  reflexivity.
Qed.

Lemma toString_head (m e : Z) :
  exists c t, Number.toString (Finite m e) = c :: t
              /\ (Digits.is_digit c = true \/ c = 45%N).
Proof.
  unfold Number.toString. destruct (m =? 0) eqn:Hm; [exists 48%N, []; auto|].
  apply Z.eqb_neq in Hm.
  destruct (Z.ltb_spec m 0); [exists 45%N; cbn; eauto|].
  destruct (decimal_head (Z.abs m)) as (c & ds' & -> & Hc & Hdig); [lia|].
  destruct (layout_head c ds' (Z.of_nat (length (c :: ds')) + e) Hdig)
    as (c0 & t & -> & Hc0).
  exists c0, t. auto.
Qed.

Lemma parse_value_number (fuel : nat) (m e : Z) (rest : jsstring) :
  Number.wf (Finite m e) ->
  stops rest ->
  JSON.parse_value (S fuel) (Number.toString (Finite m e) ++ rest)
  = JSON.Parsed (VNum (Finite m e)) rest.
Proof.
  intros Hwf Hrest.
  rewrite <- (parse_number_toString m e rest Hwf Hrest).
  destruct (toString_head m e) as (c & t & -> & Hc).
  apply parse_value_numeral, Hc.
Qed.

End NumberValue.

Section StringRoundTrip.

Lemma hex_value_digit (d : N) :
  (d < 16)%N -> JSON.hex_value (JSON.hex_digit d) = Some d.
Proof.
  intros Hd. unfold JSON.hex_value, JSON.hex_digit.
  destruct (N.ltb_spec d 10).
  - replace ((48 <=? 48 + d)%N) with true by (symmetry; apply N.leb_le; lia).
    replace ((48 + d <=? 57)%N) with true by (symmetry; apply N.leb_le; lia).
    cbn. f_equal. lia.
  - replace ((48 <=? 87 + d)%N) with true by (symmetry; apply N.leb_le; lia).
    replace ((87 + d <=? 57)%N) with false by (symmetry; apply N.leb_gt; lia).
    replace ((97 <=? 87 + d)%N) with true by (symmetry; apply N.leb_le; lia).
    replace ((87 + d <=? 102)%N) with true by (symmetry; apply N.leb_le; lia).
    cbn. f_equal. lia.
Qed.

Lemma hex4_escape (c : N) :
  (c < 65536)%N ->
  JSON.hex4 (JSON.hex_digit (c / 4096 mod 16)) (JSON.hex_digit (c / 256 mod 16))
            (JSON.hex_digit (c / 16 mod 16)) (JSON.hex_digit (c mod 16))
  = Some c.
Proof.
  intros Hc. unfold JSON.hex4.
  rewrite !hex_value_digit by (apply N.mod_lt; lia).
  f_equal.
  pose proof (N.div_mod c 16 ltac:(lia)) as H0.
  pose proof (N.div_mod (c / 16) 16 ltac:(lia)) as H1.
  pose proof (N.div_mod (c / 256) 16 ltac:(lia)) as H2.
  assert (H3 : (c / 4096 mod 16 = c / 4096)%N).
  { apply N.mod_small. apply N.Div0.div_lt_upper_bound. lia. }
  replace (c / 256)%N with (c / 16 / 16)%N in * by (rewrite N.Div0.div_div; reflexivity).
  replace (c / 4096)%N with (c / 16 / 16 / 16)%N in *
    by (rewrite !N.Div0.div_div; reflexivity).
  lia.
Qed.

Lemma parse_unicode_escape (c : N) (s rest : jsstring) (t : jsstring) :
  (c < 65536)%N ->
  JSON.parse_string s = Some (t, rest) ->
  JSON.parse_string (JSON.UnicodeEscape c ++ s) = Some (c :: t, rest).
Proof.
  intros Hc Hs. unfold JSON.UnicodeEscape.
  change (str "\u") with [92; 117]%N. cbn [app].
  cbn [JSON.parse_string]. cbn [N.eqb Pos.eqb].
  rewrite (hex4_escape c Hc), Hs. reflexivity.
Qed.

Lemma parse_literal (c : N) (s rest t : jsstring) :
  c <> 34%N -> c <> 92%N -> (32 <= c)%N ->
  JSON.parse_string s = Some (t, rest) ->
  JSON.parse_string (c :: s) = Some (c :: t, rest).
Proof.
  intros H1 H2 H3 Hs. cbn [JSON.parse_string].
  destruct (N.eqb_spec c 34); [contradiction|].
  destruct (N.eqb_spec c 92); [contradiction|].
  destruct (N.ltb_spec c 32); [lia|].
  rewrite Hs. reflexivity.
Qed.

Lemma parse_quoted_bounded (n : nat) (s rest : jsstring) :
  (length s <= n)%nat ->
  JSON.parse_string (JSON.quote_units s ++ 34%N :: rest) = Some (s, rest).
Proof.
  revert s. induction n as [|n IH]; intros [|c s] Hn; try (cbn in Hn; lia);
    try reflexivity.
  assert (IHs : JSON.parse_string (JSON.quote_units s ++ 34%N :: rest) = Some (s, rest))
    by (apply IH; cbn in Hn; lia).
  cbn [JSON.quote_units].
  destruct (N.eqb_spec c 8) as [->|?]; [cbn; rewrite IHs; reflexivity|].
  destruct (N.eqb_spec c 9) as [->|?]; [cbn; rewrite IHs; reflexivity|].
  destruct (N.eqb_spec c 10) as [->|?]; [cbn; rewrite IHs; reflexivity|].
  destruct (N.eqb_spec c 12) as [->|?]; [cbn; rewrite IHs; reflexivity|].
  destruct (N.eqb_spec c 13) as [->|?]; [cbn; rewrite IHs; reflexivity|].
  destruct (N.eqb_spec c 34) as [->|?]; [cbn; rewrite IHs; reflexivity|].
  destruct (N.eqb_spec c 92) as [->|?]; [cbn; rewrite IHs; reflexivity|].
  destruct (N.ltb_spec c 32).
  { rewrite <- app_assoc. apply parse_unicode_escape; [lia|exact IHs]. }
  unfold JSON.is_leading_surrogate, JSON.is_trailing_surrogate.
  destruct (N.leb_spec 55296 c); cbn [andb].
  - destruct (N.leb_spec c 56319); cbn [andb].
    + destruct s as [|d s'].
      * apply (parse_unicode_escape c _ rest []); [lia|reflexivity].
      * destruct (N.leb_spec 56320 d); cbn [andb].
        -- destruct (N.leb_spec d 57343); cbn [andb].
           ++ cbn [app]. apply parse_literal; [lia..|].
              apply parse_literal; [lia..|].
              apply IH. cbn in Hn. lia.
           ++ rewrite <- app_assoc. apply parse_unicode_escape; [lia|exact IHs].
        -- rewrite <- app_assoc. apply parse_unicode_escape; [lia|exact IHs].
    + destruct (N.leb_spec 56320 c); cbn [andb].
      * destruct (N.leb_spec c 57343); cbn [andb].
        -- rewrite <- app_assoc. apply parse_unicode_escape; [lia|exact IHs].
        -- cbn [app]. apply parse_literal; [lia..|exact IHs].
      * lia.
  - destruct (N.leb_spec 56320 c); [lia|]. cbn [andb app].
    apply parse_literal; [lia..|exact IHs].
Qed.

Lemma parse_quoted (s rest : jsstring) :
  JSON.parse_string (JSON.quote_units s ++ 34%N :: rest) = Some (s, rest).
Proof. apply (parse_quoted_bounded (length s)). lia. Qed.

End StringRoundTrip.

Section ValueInduction.

Variable P : value -> Prop.
Hypothesis
  (HUndefined : P VUndefined) (HNull : P VNull) (HBool : forall b, P (VBool b))
  (HNum : forall n, P (VNum n)) (HStr : forall s, P (VStr s))
  (HBigInt : forall z, P (VBigInt z)) (HCircular : P VCircular)
  (HArr : forall l, Forall P l -> P (VArr l))
  (HObj : forall ps, Forall (fun kv => P (snd kv)) ps -> P (VObj ps)).

Fixpoint value_induction (v : value) : P v :=
  match v with
  | VUndefined => HUndefined
  | VNull => HNull
  | VBool b => HBool b
  | VNum n => HNum n
  | VStr s => HStr s
  | VBigInt z => HBigInt z
  | VCircular => HCircular
  | VArr l =>
      HArr l ((fix all (l : list value) : Forall P l :=
                 match l with
                 | [] => Forall_nil_2 _
                 | e :: l' => Forall_cons_2 _ _ _ (value_induction e) (all l')
                 end) l)
  | VObj ps =>
      HObj ps ((fix all (ps : list (jsstring * value)) : Forall (fun kv => P (snd kv)) ps :=
                  match ps with
                  | [] => Forall_nil_2 _
                  | (k, e) :: ps' =>
                      Forall_cons_2 (fun kv => P (snd kv)) (k, e) _
                        (value_induction e) (all ps')
                  end) ps)
  end.

End ValueInduction.

Section PropertyOrder.

Lemma has_key_spec (k : jsstring) (props : list (jsstring * value)) :
  JSON.has_key k props = true <-> exists v, (k, v) ∈ props.
Proof.
  induction props as [|[k' v'] props IH]; cbn.
  - split; [discriminate|]. intros [v Hv]. inversion Hv.
  - rewrite orb_true_iff, IH, eqb_eq. split.
    + intros [->|[v Hv]]; [exists v'; left|exists v; right; exact Hv].
    + intros [v Hv]. inversion Hv; subst; [left; reflexivity|right; eauto].
Qed.

Lemma has_key_snoc (k k' : jsstring) (v' : value) (props : list (jsstring * value)) :
  JSON.has_key k (props ++ [(k', v')]) = JSON.has_key k props || JsString.eqb k k'.
Proof.
  induction props as [|[k0 v0] props IH]; cbn; [apply orb_false_r|].
  rewrite IH, orb_assoc. reflexivity.
Qed.

Lemma insert_index_last (i : Z) (k : jsstring) (v : value)
    (props : list (jsstring * value)) :
  Forall (fun kv => exists j, JSON.array_index (fst kv) = Some j /\ j < i) props ->
  JSON.insert_index i k v props = props ++ [(k, v)].
Proof.
  induction 1 as [|[k' v'] props (j & Hj & Hlt) _ IH]; [reflexivity|].
  cbn in *. rewrite Hj. destruct (Z.ltb_spec j i); [|lia]. rewrite IH. reflexivity.
Qed.

Lemma define_plain (rest : list (jsstring * value)) :
  forall (seen : list jsstring) (acc : list (jsstring * value)),
    Serializable.plain_keys seen (fst <$> rest) = true ->
    (forall k, JSON.has_key k acc = true ->
               JSON.array_index k <> None \/ existsb (JsString.eqb k) seen = true) ->
    fold_left JSON.define rest acc = acc ++ rest.
Proof.
  induction rest as [|[k v] rest IH]; intros seen acc Hp Hacc.
  - rewrite app_nil_r. reflexivity.
  - cbn in Hp. destruct (JSON.array_index k) eqn:Hk; [discriminate|].
    apply andb_true_iff in Hp as [Hnew Hp]. apply negb_true_iff in Hnew.
    assert (Hfresh : JSON.has_key k acc = false).
    { destruct (JSON.has_key k acc) eqn:Hh; [|reflexivity].
      destruct (Hacc k Hh) as [Hc|Hc]; congruence. }
    cbn [fold_left]. unfold JSON.define at 2. rewrite Hfresh, Hk.
    rewrite (IH (k :: seen) _ Hp).
    + rewrite <- app_assoc. reflexivity.
    + intros k0. rewrite has_key_snoc, orb_true_iff. intros [Hh|Hh].
      * destruct (Hacc k0 Hh) as [Hc|Hc]; [left; exact Hc|].
        right. cbn. rewrite Hc. apply orb_true_r.
      * right. cbn. rewrite Hh. reflexivity.
Qed.

Lemma define_index (rest : list (jsstring * value)) :
  forall (low : Z) (acc : list (jsstring * value)),
    Serializable.index_keys low (fst <$> rest) = true ->
    Forall (fun kv => exists j, JSON.array_index (fst kv) = Some j /\ j <= low) acc ->
    fold_left JSON.define rest acc = acc ++ rest.
Proof.
  induction rest as [|[k v] rest IH]; intros low acc Hi Hacc.
  - rewrite app_nil_r. reflexivity.
  - cbn [fmap list_fmap fst Serializable.index_keys] in Hi.
    destruct (JSON.array_index k) as [i|] eqn:Hk.
    + apply andb_true_iff in Hi as [Hlow Hi]. apply Z.ltb_lt in Hlow.
      assert (Hfresh : JSON.has_key k acc = false).
      { destruct (JSON.has_key k acc) eqn:Hh; [|reflexivity].
        apply has_key_spec in Hh as [v0 Hv0].
        rewrite Forall_forall in Hacc. destruct (Hacc _ Hv0) as (j & Hj & Hle).
        cbn in Hj. rewrite Hk in Hj. injection Hj as ->. lia. }
      cbn [fold_left]. unfold JSON.define at 2. rewrite Hfresh, Hk.
      rewrite insert_index_last.
      * rewrite (IH i _ Hi); [rewrite <- app_assoc; reflexivity|].
        apply Forall_app. split.
        -- eapply Forall_impl; [exact Hacc|]. cbn. intros kv (j & Hj & Hle).
           exists j. split; [exact Hj|lia].
        -- constructor; [|constructor]. exists i. cbn. split; [exact Hk|lia].
      * eapply Forall_impl; [exact Hacc|]. cbn. intros kv (j & Hj & Hle).
        exists j. split; [exact Hj|lia].
    + apply (define_plain _ [] acc).
      * exact Hi.
      * intros k0 Hh. left. apply has_key_spec in Hh as [v0 Hv0].
        rewrite Forall_forall in Hacc. destruct (Hacc _ Hv0) as (j & Hj & _).
        cbn in Hj. congruence.
Qed.

Lemma object_of_ordered (props : list (jsstring * value)) :
  Serializable.enumeration_order props = true -> JSON.object_of props = VObj props.
Proof.
  intros Ho. unfold JSON.object_of. f_equal.
  apply (define_index props (-1) [] Ho). constructor.
Qed.

End PropertyOrder.

Section Printed.

Lemma serialize_array (l : list value) :
  JSON.serialize (VArr l) =
  match serialize_items l with
  | Throw err => Throw err
  | Normal ts => Normal (Some (str "[" ++ JSON.join (str ",") ts ++ str "]"))
  end.
Proof. reflexivity. Qed.

Lemma serialize_object (ps : list (jsstring * value)) :
  JSON.serialize (VObj ps) =
  match serialize_members ps with
  | Throw err => Throw err
  | Normal ts => Normal (Some (str "{" ++ JSON.join (str ",") ts ++ str "}"))
  end.
Proof. reflexivity. Qed.

Lemma canonical_wf (n : number) : Number.canonical n = true -> Number.wf n.
Proof.
  destruct n as [m e| |]; cbn; auto.
  destruct (m =? 0).
  - apply Z.eqb_eq.
  - intros Hm%negb_true_iff. apply Z.eqb_neq, Hm.
Qed.

Local Ltac head_done :=
  split; [reflexivity|split; [reflexivity|split; discriminate]].

(** A Serializable.serializable value has a text, which starts with a character that
    is neither white space nor a closing bracket. *)
Lemma serialize_head (v : value) (t : option jsstring) :
  Serializable.serializable v = true ->
  JSON.serialize v = Normal t ->
  exists c text, t = Some (c :: text) /\ JSON.is_ws c = false
                 /\ c <> 93%N /\ c <> 125%N.
Proof.
  intros Hs Ht. destruct v as [| |[]|n|s|z| |l|ps]; try discriminate Hs.
  - injection Ht as <-. eexists _, _. head_done.
  - injection Ht as <-. eexists _, _. head_done.
  - injection Ht as <-. eexists _, _. head_done.
  - cbn in Hs. apply andb_true_iff in Hs as [Hf _].
    destruct n as [m e| |]; try discriminate Hf.
    change (JSON.serialize (VNum (Finite m e)))
      with (Normal (Some (Number.toString (Finite m e)))) in Ht.
    destruct (toString_head m e) as (c & text & Heq & Hc).
    rewrite Heq in Ht. injection Ht as <-.
    exists c, text. split; [reflexivity|].
    assert (Hrange : (45 <= c <= 57)%N).
    { destruct Hc as [Hc| ->]; [|lia]. unfold Digits.is_digit in Hc.
      apply andb_true_iff in Hc as [H1 H2]. apply N.leb_le in H1, H2. lia. }
    unfold JSON.is_ws.
    split; [|split; lia].
    repeat (apply orb_false_iff; split); apply N.eqb_neq; lia.
  - injection Ht as <-. eexists _, _. head_done.
  - rewrite serialize_array in Ht. destruct (serialize_items l); [|discriminate].
    injection Ht as <-. eexists _, _. head_done.
  - rewrite serialize_object in Ht. destruct (serialize_members ps); [|discriminate].
    injection Ht as <-. eexists _, _. head_done.
Qed.

Lemma skip_ws_head (c : N) (s : jsstring) :
  JSON.is_ws c = false -> JSON.skip_ws (c :: s) = c :: s.
Proof. intros Hc. cbn. rewrite Hc. reflexivity. Qed.

End Printed.

Section ParsePrinted.

Lemma normal_some_inj {A} (a b : A) :
  @Normal (option A) (Some a) = Normal (Some b) -> a = b.
Proof. congruence. Qed.

Lemma join_cons (sep p q : jsstring) (parts : list jsstring) :
  JSON.join sep (p :: q :: parts) = p ++ sep ++ JSON.join sep (q :: parts).
Proof. reflexivity. Qed.

Lemma items_inv (e : value) (l : list value) (ts : list jsstring) :
  Serializable.serializable e = true ->
  serialize_items (e :: l) = Normal ts ->
  exists c text ts',
    JSON.serialize e = Normal (Some (c :: text))
    /\ serialize_items l = Normal ts' /\ ts = (c :: text) :: ts'
    /\ JSON.is_ws c = false /\ c <> 93%N /\ c <> 125%N.
Proof.
  intros Hs Hts. cbn [serialize_items] in Hts.
  destruct (JSON.serialize e) as [t|] eqn:He; [|discriminate].
  fold serialize_items in Hts.
  destruct (serialize_items l) as [ts'|]; [|discriminate].
  destruct (serialize_head e t Hs He) as (c & text & -> & Hc).
  injection Hts as <-. exists c, text, ts'. auto.
Qed.

Lemma members_inv (k : jsstring) (e : value) (l : list (jsstring * value))
    (ts : list jsstring) :
  Serializable.serializable e = true ->
  serialize_members ((k, e) :: l) = Normal ts ->
  exists c text ts',
    JSON.serialize e = Normal (Some (c :: text))
    /\ serialize_members l = Normal ts'
    /\ ts = (JSON.QuoteJSONString k ++ str ":" ++ c :: text) :: ts'
    /\ JSON.is_ws c = false.
Proof.
  intros Hs Hts. cbn [serialize_members] in Hts.
  destruct (JSON.serialize e) as [t|] eqn:He; [|discriminate].
  fold serialize_members in Hts.
  destruct (serialize_members l) as [ts'|]; [|discriminate].
  destruct (serialize_head e t Hs He) as (c & text & -> & Hc & _).
  injection Hts as <-. exists c, text, ts'. auto.
Qed.

Lemma parse_printed (fuel : nat) :
  (forall v text rest,
     Serializable.serializable v = true ->
     JSON.serialize v = Normal (Some text) ->
     stops rest ->
     (2 * length text < fuel)%nat ->
     JSON.parse_value fuel (text ++ rest) = JSON.Parsed v rest)
  /\ (forall l ts rest,
        l <> [] ->
        forallb Serializable.serializable l = true ->
        serialize_items l = Normal ts ->
        (2 * length (JSON.join (str ",") ts) + 1 < fuel)%nat ->
        JSON.parse_elements fuel (JSON.join (str ",") ts ++ 93%N :: rest)
        = JSON.Parsed l rest)
  /\ (forall ps ts rest,
        ps <> [] ->
        forallb (fun '(_, e) => Serializable.serializable e) ps = true ->
        serialize_members ps = Normal ts ->
        (2 * length (JSON.join (str ",") ts) + 1 < fuel)%nat ->
        JSON.parse_members fuel (JSON.join (str ",") ts ++ 125%N :: rest)
        = JSON.Parsed ps rest).
Proof.
  induction fuel as [|fuel (IHv & IHe & IHm)].
  { repeat split; intros; lia. }
  split; [|split].
  - (* a value *)
    intros v text rest Hs Ht Hrest Hf.
    destruct v as [| |b|n|s|z| |l|ps]; try discriminate Hs.
    + injection Ht as <-. reflexivity.
    + destruct b; injection Ht as <-; reflexivity.
    + cbn in Hs. apply andb_true_iff in Hs as [Hfin Hc].
      destruct n as [m e| |]; try discriminate Hfin.
      change (JSON.serialize (VNum (Finite m e)))
        with (Normal (Some (Number.toString (Finite m e)))) in Ht.
      injection Ht as <-.
      apply parse_value_number; [apply canonical_wf, Hc|exact Hrest].
    + injection Ht as <-.
      change (JSON.QuoteJSONString s ++ rest)
        with (34%N :: (JSON.quote_units s ++ [34%N]) ++ rest).
      rewrite <- app_assoc. cbn [app JSON.parse_value].
      change ((34 =? 34)%N) with true. cbv iota.
      rewrite parse_quoted. reflexivity.
    + rewrite serialize_array in Ht.
      destruct (serialize_items l) as [ts|] eqn:Hts; [|discriminate].
      apply normal_some_inj in Ht. subst text.
      assert (Htext : (str "[" ++ JSON.join (str ",") ts ++ str "]") ++ rest
                      = 91%N :: JSON.join (str ",") ts ++ 93%N :: rest).
      { change (str "[") with [91%N]. change (str "]") with [93%N].
        cbn [app]. rewrite <- app_assoc. reflexivity. }
      assert (Hlen : length (str "[" ++ JSON.join (str ",") ts ++ str "]")
                     = S (S (length (JSON.join (str ",") ts)))).
      { change (str "[") with [91%N]. change (str "]") with [93%N].
        cbn [app length]. rewrite length_app. cbn [length]. lia. }
      rewrite Htext. rewrite Hlen in Hf. clear Htext Hlen.
      cbn [JSON.parse_value].
      change ((91 =? 34)%N) with false. change ((91 =? 91)%N) with true. cbv iota.
      destruct l as [|e l].
      * injection Hts as <-. reflexivity.
      * cbn [Serializable.serializable forallb] in Hs.
        pose proof Hs as Hs'. apply andb_true_iff in Hs' as [Hse _].
        destruct (items_inv e l ts Hse Hts) as (c & t & ts' & _ & _ & -> & Hws & H93 & _).
        assert (Hj : exists t', JSON.join (str ",") ((c :: t) :: ts') = c :: t').
        { destruct ts'; eexists; reflexivity. }
        destruct Hj as [t' Hj]. rewrite Hj. cbn [app].
        rewrite (skip_ws_head _ _ Hws).
        destruct (N.eqb_spec c 93); [contradiction|].
        change (c :: t' ++ 93%N :: rest) with ((c :: t') ++ 93%N :: rest).
        rewrite <- Hj.
        rewrite (IHe (e :: l) _ rest); [reflexivity|discriminate|exact Hs|exact Hts|].
        lia.
    + rewrite serialize_object in Ht.
      destruct (serialize_members ps) as [ts|] eqn:Hts; [|discriminate].
      apply normal_some_inj in Ht. subst text.
      assert (Htext : (str "{" ++ JSON.join (str ",") ts ++ str "}") ++ rest
                      = 123%N :: JSON.join (str ",") ts ++ 125%N :: rest).
      { change (str "{") with [123%N]. change (str "}") with [125%N].
        cbn [app]. rewrite <- app_assoc. reflexivity. }
      assert (Hlen : length (str "{" ++ JSON.join (str ",") ts ++ str "}")
                     = S (S (length (JSON.join (str ",") ts)))).
      { change (str "{") with [123%N]. change (str "}") with [125%N].
        cbn [app length]. rewrite length_app. cbn [length]. lia. }
      rewrite Htext. rewrite Hlen in Hf. clear Htext Hlen.
      cbn [JSON.parse_value].
      change ((123 =? 34)%N) with false. change ((123 =? 91)%N) with false.
      change ((123 =? 123)%N) with true. cbv iota.
      cbn [Serializable.serializable] in Hs. apply andb_true_iff in Hs as [Hord Hs].
      destruct ps as [|[k e] ps].
      * injection Hts as <-. reflexivity.
      * pose proof Hs as Hs'. cbn [forallb] in Hs'.
        apply andb_true_iff in Hs' as [Hse _].
        destruct (members_inv k e ps ts Hse Hts) as (c & t & ts' & _ & _ & -> & _).
        assert (Hj : exists t', JSON.join (str ",")
                     ((JSON.QuoteJSONString k ++ str ":" ++ c :: t) :: ts') = 34%N :: t').
        { destruct ts'; eexists; reflexivity. }
        destruct Hj as [t' Hj]. rewrite Hj. cbn [app].
        rewrite (skip_ws_head 34%N _ eq_refl).
        change ((34 =? 125)%N) with false. cbv iota.
        change (34%N :: t' ++ 125%N :: rest) with ((34%N :: t') ++ 125%N :: rest).
        rewrite <- Hj.
        rewrite (IHm ((k, e) :: ps) _ rest); [|discriminate|exact Hs|exact Hts|].
        -- rewrite (object_of_ordered _ Hord). reflexivity.
        -- lia.
  - (* the elements of an array *)
    intros l ts rest Hne Hs Hts Hf.
    destruct l as [|e l]; [contradiction|].
    cbn [forallb] in Hs. apply andb_true_iff in Hs as [Hse Hsl].
    destruct (items_inv e l ts Hse Hts) as (c & t & ts' & He & Hl & -> & _).
    cbn [JSON.parse_elements].
    destruct l as [|e' l].
    + injection Hl as <-. cbn [JSON.join].
      rewrite (IHv e (c :: t) (93%N :: rest) Hse He);
        [|right; left; reflexivity|cbn [JSON.join] in Hf; lia].
      reflexivity.
    + cbn [forallb] in Hsl. pose proof Hsl as Hsl'.
      apply andb_true_iff in Hsl' as [Hse' _].
      destruct (items_inv e' l ts' Hse' Hl) as (c' & t' & ts'' & _ & _ & -> & Hws' & _).
      rewrite join_cons in Hf |- *.
      set (more := JSON.join (str ",") ((c' :: t') :: ts'')) in *.
      change (str ",") with [44%N] in Hf |- *.
      rewrite !length_app in Hf. cbn [length] in Hf.
      rewrite <- !app_assoc.
      rewrite (IHv e (c :: t) _ Hse He); [|left; reflexivity|cbn [length]; lia].
      change ([44%N] ++ more ++ 93%N :: rest) with (44%N :: more ++ 93%N :: rest).
      rewrite (skip_ws_head 44%N _ eq_refl).
      change ((44 =? 93)%N) with false. change ((44 =? 44)%N) with true. cbv iota.
      assert (Hskip : JSON.skip_ws (more ++ 93%N :: rest) = more ++ 93%N :: rest).
      { assert (Hj : exists t0, more = c' :: t0)
          by (subst more; destruct ts''; eexists; reflexivity).
        destruct Hj as [t0 ->]. apply (skip_ws_head _ _ Hws'). }
      rewrite Hskip.
      subst more.
      rewrite (IHe (e' :: l) _ rest); [reflexivity|discriminate|exact Hsl|exact Hl|].
      lia.
  - (* the members of an object *)
    intros ps ts rest Hne Hs Hts Hf.
    destruct ps as [|[k e] ps]; [contradiction|].
    cbn [forallb] in Hs. apply andb_true_iff in Hs as [Hse Hsl].
    destruct (members_inv k e ps ts Hse Hts) as (c & t & ts' & He & Hl & -> & Hws).
    assert (Hmember : forall tail,
      (JSON.QuoteJSONString k ++ str ":" ++ c :: t) ++ tail
      = 34%N :: JSON.quote_units k ++ 34%N :: 58%N :: (c :: t) ++ tail).
    { intros tail. unfold JSON.QuoteJSONString. change (str ":") with [58%N].
      rewrite <- !app_assoc. reflexivity. }
    assert (Hlen : length (JSON.QuoteJSONString k ++ str ":" ++ c :: t)
                   = (length (JSON.quote_units k) + 3 + length (c :: t))%nat).
    { unfold JSON.QuoteJSONString. change (str ":") with [58%N].
      rewrite !length_app. cbn [length]. lia. }
    cbn [JSON.parse_members].
    destruct ps as [|[k' e'] ps].
    + injection Hl as <-. cbn [JSON.join] in Hf |- *. rewrite Hmember.
      rewrite Hlen in Hf.
      change ((34 =? 34)%N) with true. cbv iota.
      rewrite parse_quoted.
      rewrite (skip_ws_head 58%N _ eq_refl).
      change ((58 =? 58)%N) with true. cbv iota.
      change ((c :: t) ++ 125%N :: rest) with (c :: t ++ 125%N :: rest).
      rewrite (skip_ws_head _ _ Hws).
      change (c :: t ++ 125%N :: rest) with ((c :: t) ++ 125%N :: rest).
      rewrite (IHv e (c :: t) (125%N :: rest) Hse He);
        [|right; right; reflexivity|lia].
      reflexivity.
    + cbn [forallb] in Hsl. pose proof Hsl as Hsl'.
      apply andb_true_iff in Hsl' as [Hse' _].
      destruct (members_inv k' e' ps ts' Hse' Hl) as (c' & t' & ts'' & _ & _ & -> & _).
      rewrite join_cons in Hf |- *.
      set (more := JSON.join (str ",")
                     ((JSON.QuoteJSONString k' ++ str ":" ++ c' :: t') :: ts'')) in *.
      change (str ",") with [44%N] in Hf |- *.
      rewrite length_app, Hlen, length_app in Hf. cbn [length] in Hf.
      rewrite <- app_assoc, Hmember.
      change ((34 =? 34)%N) with true. cbv iota.
      rewrite parse_quoted.
      rewrite (skip_ws_head 58%N _ eq_refl).
      change ((58 =? 58)%N) with true. cbv iota.
      change ((c :: t) ++ ?x) with (c :: t ++ x).
      rewrite (skip_ws_head _ _ Hws).
      change (c :: t ++ ?x) with ((c :: t) ++ x).
      rewrite (IHv e (c :: t) _ Hse He); [|left; reflexivity|cbn [length]; lia].
      change (([44%N] ++ more) ++ 125%N :: rest) with (44%N :: more ++ 125%N :: rest).
      rewrite (skip_ws_head 44%N _ eq_refl).
      change ((44 =? 125)%N) with false. change ((44 =? 44)%N) with true. cbv iota.
      assert (Hskip : JSON.skip_ws (more ++ 125%N :: rest) = more ++ 125%N :: rest).
      { assert (Hj : exists t0, more = 34%N :: t0)
          by (subst more; destruct ts''; eexists; reflexivity).
        destruct Hj as [t0 ->]. reflexivity. }
      rewrite Hskip.
      subst more.
      rewrite (IHm ((k', e') :: ps) _ rest); [reflexivity|discriminate|exact Hsl|exact Hl|].
      lia.
Qed.

End ParsePrinted.

Section RoundTrip.

Lemma serialize_items_defined (l : list value) :
  Forall (fun v => Serializable.serializable v = true ->
                   exists text, JSON.serialize v = Normal (Some text)) l ->
  forallb Serializable.serializable l = true ->
  exists ts, serialize_items l = Normal ts.
Proof.
  induction 1 as [|e l He _ IH]; intros Hs; [eexists; reflexivity|].
  cbn [forallb] in Hs. apply andb_true_iff in Hs as [Hse Hsl].
  destruct (He Hse) as [text Ht]. destruct (IH Hsl) as [ts Hts].
  exists (text :: ts). cbn [serialize_items]. rewrite Ht.
  fold serialize_items. rewrite Hts. reflexivity.
Qed.

Lemma serialize_members_defined (ps : list (jsstring * value)) :
  Forall (fun kv => Serializable.serializable (snd kv) = true ->
                    exists text, JSON.serialize (snd kv) = Normal (Some text)) ps ->
  forallb (fun '(_, e) => Serializable.serializable e) ps = true ->
  exists ts, serialize_members ps = Normal ts.
Proof.
  induction 1 as [|[k e] ps He _ IH]; intros Hs; [eexists; reflexivity|].
  cbn [forallb] in Hs. apply andb_true_iff in Hs as [Hse Hsl].
  destruct (He Hse) as [text Ht]. destruct (IH Hsl) as [ts Hts].
  cbn [snd] in Ht.
  eexists. cbn [serialize_members]. rewrite Ht.
  fold serialize_members. rewrite Hts. reflexivity.
Qed.

(** [JSON.stringify] returns a text for a Serializable.serializable value. *)
Lemma serialize_defined (v : value) :
  Serializable.serializable v = true -> exists text, JSON.serialize v = Normal (Some text).
Proof.
  induction v as [| |b|n|s|z| |l IH|ps IH] using value_induction;
    intros Hs; try discriminate Hs.
  - eexists; reflexivity.
  - destruct b; eexists; reflexivity.
  - eexists; reflexivity.
  - eexists; reflexivity.
  - destruct (serialize_items_defined l IH Hs) as [ts Hts].
    rewrite serialize_array, Hts. eexists; reflexivity.
  - cbn [Serializable.serializable] in Hs. apply andb_true_iff in Hs as [_ Hs].
    destruct (serialize_members_defined ps IH Hs) as [ts Hts].
    rewrite serialize_object, Hts. eexists; reflexivity.
Qed.

(** [JSON.parse] reads back what [JSON.stringify] wrote. *)
Lemma parse_stringify (v : value) (text : jsstring) :
  Serializable.serializable v = true ->
  JSON.stringify v = Normal (Some text) ->
  JSON.parse text = Normal v.
Proof.
  intros Hs Ht. unfold JSON.stringify in Ht. unfold JSON.parse.
  destruct (serialize_head v _ Hs Ht) as (c & t & Heq & Hws & _).
  assert (text = c :: t) by congruence. subst text. clear Heq.
  rewrite (skip_ws_head _ _ Hws).
  destruct (parse_printed (S (2 * length (c :: t)))) as [Hv _].
  pose proof (Hv v (c :: t) [] Hs Ht I ltac:(lia)) as Hp.
  rewrite app_nil_r in Hp. rewrite Hp. reflexivity.
Qed.

End RoundTrip.

Section Fuel.

Lemma skip_ws_length (s : jsstring) : (length (JSON.skip_ws s) <= length s)%nat.
Proof.
  induction s as [|c s IH]; [reflexivity|]. cbn.
  destruct (JSON.is_ws c); cbn; lia.
Qed.

Lemma parse_string_length (s t rest : jsstring) :
  JSON.parse_string s = Some (t, rest) -> (length rest < length s)%nat.
Proof.
  remember (length s) as n eqn:Hn. revert s t rest Hn.
  induction n as [n IH] using lt_wf_ind. intros s t rest Hn.
  destruct s as [|c s]; [discriminate|]. cbn [JSON.parse_string length] in *.
  assert (Hrec : forall s' u, (length s' <= length s)%nat ->
            match JSON.parse_string s' with
            | Some (t0, rest0) => Some (u :: t0, rest0)
            | None => None
            end = Some (t, rest) -> (length rest < n)%nat).
  { intros s' u Hlen Hp. destruct (JSON.parse_string s') as [[t0 rest0]|] eqn:Hs';
      [|discriminate]. injection Hp as _ <-.
    assert (length rest0 < length s')%nat; [|lia].
    eapply (IH (length s')); [lia|reflexivity|exact Hs']. }
  destruct (c =? 34)%N.
  { intros [= _ <-]. lia. }
  destruct (c =? 92)%N.
  - destruct s as [|e s]; [discriminate|]. cbn [length] in *.
    assert (Hs : forall u,
              match JSON.parse_string s with
              | Some (t0, rest0) => Some (u :: t0, rest0)
              | None => None
              end = Some (t, rest) -> (length rest < n)%nat).
    { intros u. apply Hrec. lia. }
    repeat (match goal with |- context [if ?b then _ else _] => destruct b end;
            [apply Hs|]).
    destruct (e =? 117)%N; [|discriminate].
    destruct s as [|a [|b [|c' [|d s4]]]]; try discriminate.
    destruct (JSON.hex4 a b c' d); [|discriminate].
    apply Hrec. cbn [length]. lia.
  - destruct (c <? 32)%N; [discriminate|]. apply Hrec. lia.
Qed.

Lemma span_digits_length (s ds rest : jsstring) :
  JSON.span_digits s = (ds, rest) -> (length ds + length rest = length s)%nat.
Proof.
  revert ds rest. induction s as [|c s IH]; intros ds rest; cbn.
  - intros [= <- <-]. reflexivity.
  - destruct (Digits.is_digit c).
    + destruct (JSON.span_digits s) as [ds' rest']. intros [= <- <-].
      specialize (IH _ _ eq_refl). cbn [length]. lia.
    + intros [= <- <-]. cbn [length]. lia.
Qed.

Lemma parse_fraction_length (s ds rest : jsstring) :
  JSON.parse_fraction s = Some (ds, rest) -> (length rest <= length s)%nat.
Proof.
  unfold JSON.parse_fraction. destruct s as [|c s].
  - intros [= <- <-]. reflexivity.
  - destruct (c =? 46)%N.
    + destruct (JSON.span_digits s) as [ds' rest'] eqn:Hs.
      apply span_digits_length in Hs.
      destruct ds'; [discriminate|]. intros [= <- <-]. cbn [length] in *. lia.
    + intros [= <- <-]. reflexivity.
Qed.

Lemma parse_exponent_length (s : jsstring) (x : Z) (rest : jsstring) :
  JSON.parse_exponent s = Some (x, rest) -> (length rest <= length s)%nat.
Proof.
  unfold JSON.parse_exponent. destruct s as [|c s].
  - intros [= <- <-]. reflexivity.
  - destruct ((c =? 101)%N || (c =? 69)%N).
    + set (sign := match s with
                    | [] => (false, s)
                    | d :: t => if (d =? 45)%N then (true, t)
                                else if (d =? 43)%N then (false, t) else (false, s)
                    end).
      assert (Hsign : (length (snd sign) <= length s)%nat).
      { subst sign. destruct s as [|d t]; [reflexivity|].
        destruct (d =? 45)%N; [cbn; lia|]. destruct (d =? 43)%N; cbn; lia. }
      destruct sign as [negative s'']. cbn [snd] in Hsign.
      destruct (JSON.span_digits s'') as [ds' rest'] eqn:Hs.
      apply span_digits_length in Hs.
      destruct ds'; [discriminate|]. intros [= _ <-]. cbn [length] in *. lia.
    + intros [= _ <-]. reflexivity.
Qed.

Lemma parse_unsigned_length (s : jsstring) (m e : Z) (rest : jsstring) :
  JSON.parse_unsigned s = Some (m, e, rest) -> (length rest < length s)%nat.
Proof.
  unfold JSON.parse_unsigned.
  destruct (JSON.span_digits s) as [int s2] eqn:Hs.
  apply span_digits_length in Hs.
  destruct (JSON.int_ok int) eqn:Hi; [|discriminate].
  assert (0 < length int)%nat by (destruct int; [discriminate|cbn; lia]).
  destruct (JSON.parse_fraction s2) as [[frac s3]|] eqn:Hf; [|discriminate].
  apply parse_fraction_length in Hf.
  destruct (JSON.parse_exponent s3) as [[ex s4]|] eqn:He; [|discriminate].
  apply parse_exponent_length in He.
  intros [= _ _ <-]. lia.
Qed.

Lemma parse_number_length (s : jsstring) (v : value) (rest : jsstring) :
  JSON.parse_number s = JSON.Parsed v rest -> (length rest < length s)%nat.
Proof.
  unfold JSON.parse_number. destruct s as [|c t]; [discriminate|].
  destruct (c =? 45)%N.
  - destruct (JSON.parse_unsigned t) as [[[m e] r]|] eqn:Hu; [|discriminate].
    apply parse_unsigned_length in Hu. intros [= _ <-]. cbn [length]. lia.
  - destruct (JSON.parse_unsigned (c :: t)) as [[[m e] r]|] eqn:Hu; [|discriminate].
    apply parse_unsigned_length in Hu. intros [= _ <-]. exact Hu.
Qed.


Lemma skip_ws_cons_length (s : jsstring) (c : N) (rest : jsstring) :
  JSON.skip_ws s = c :: rest -> (length rest < length s)%nat.
Proof.
  intros Hs. pose proof (skip_ws_length s) as Hl. rewrite Hs in Hl.
  cbn [length] in Hl. lia.
Qed.

(** A parsing step consumes input. *)
Lemma parse_consumes (fuel : nat) :
  (forall s v rest,
     JSON.parse_value fuel s = JSON.Parsed v rest -> (length rest < length s)%nat)
  /\ (forall s vs rest,
        JSON.parse_elements fuel s = JSON.Parsed vs rest -> (length rest < length s)%nat)
  /\ (forall s ms rest,
        JSON.parse_members fuel s = JSON.Parsed ms rest -> (length rest < length s)%nat).
Proof.
  induction fuel as [|fuel (IHv & IHe & IHm)].
  { repeat split; intros; discriminate. }
  split; [|split].
  - intros s v rest. cbn [JSON.parse_value].
    destruct s as [|c s']; [discriminate|].
    destruct (c =? 34)%N.
    { destruct (JSON.parse_string s') as [[t r]|] eqn:Hs; [|discriminate].
      apply parse_string_length in Hs. intros [= _ <-]. cbn [length]. lia. }
    destruct (c =? 91)%N.
    { destruct (JSON.skip_ws s') as [|d r] eqn:Hws; [discriminate|].
      pose proof (skip_ws_length s') as Hl. rewrite Hws in Hl. cbn [length] in Hl.
      destruct (d =? 93)%N; [intros [= _ <-]; cbn [length]; lia|].
      destruct (JSON.parse_elements fuel (d :: r)) as [vs r'| |] eqn:He; try discriminate.
      apply IHe in He. intros [= _ <-]. cbn [length] in *. lia. }
    destruct (c =? 123)%N.
    { destruct (JSON.skip_ws s') as [|d r] eqn:Hws; [discriminate|].
      pose proof (skip_ws_length s') as Hl. rewrite Hws in Hl. cbn [length] in Hl.
      destruct (d =? 125)%N; [intros [= _ <-]; cbn [length]; lia|].
      destruct (JSON.parse_members fuel (d :: r)) as [ms r'| |] eqn:He; try discriminate.
      apply IHm in He. intros [= _ <-]. cbn [length] in *. lia. }
    destruct (JsString.startsWith (c :: s') (str "null"));
      [intros [= _ <-]; rewrite length_drop; cbn [length]; lia|].
    destruct (JsString.startsWith (c :: s') (str "true"));
      [intros [= _ <-]; rewrite length_drop; cbn [length]; lia|].
    destruct (JsString.startsWith (c :: s') (str "false"));
      [intros [= _ <-]; rewrite length_drop; cbn [length]; lia|].
    apply parse_number_length.
  - intros s vs rest. cbn [JSON.parse_elements].
    destruct (JSON.parse_value fuel s) as [v r| |] eqn:Hv; try discriminate.
    apply IHv in Hv.
    destruct (JSON.skip_ws r) as [|c r'] eqn:Hws; [discriminate|].
    apply skip_ws_cons_length in Hws.
    destruct (c =? 93)%N; [intros [= _ <-]; lia|].
    destruct (c =? 44)%N; [|discriminate].
    destruct (JSON.parse_elements fuel (JSON.skip_ws r')) as [vs' r''| |] eqn:He;
      try discriminate.
    apply IHe in He. pose proof (skip_ws_length r'). intros [= _ <-]. lia.
  - intros s ms rest. cbn [JSON.parse_members].
    destruct s as [|q s']; [discriminate|].
    destruct (q =? 34)%N; [|discriminate].
    destruct (JSON.parse_string s') as [[k r]|] eqn:Hs; [|discriminate].
    apply parse_string_length in Hs.
    destruct (JSON.skip_ws r) as [|colon r1] eqn:Hws; [discriminate|].
    apply skip_ws_cons_length in Hws.
    destruct (colon =? 58)%N; [|discriminate].
    destruct (JSON.parse_value fuel (JSON.skip_ws r1)) as [v r2| |] eqn:Hv;
      try discriminate.
    apply IHv in Hv. pose proof (skip_ws_length r1).
    destruct (JSON.skip_ws r2) as [|c r3] eqn:Hws2; [discriminate|].
    apply skip_ws_cons_length in Hws2.
    destruct (c =? 125)%N; [intros [= _ <-]; cbn [length]; lia|].
    destruct (c =? 44)%N; [|discriminate].
    destruct (JSON.parse_members fuel (JSON.skip_ws r3)) as [ms' r4| |] eqn:Hm;
      try discriminate.
    apply IHm in Hm. pose proof (skip_ws_length r3). intros [= _ <-].
    cbn [length]. lia.
Qed.

(** The fuel [JSON.parse] gives is enough for every input. *)
Lemma parse_fuel (fuel : nat) :
  (forall s, (2 * length s < fuel)%nat -> JSON.parse_value fuel s <> JSON.OutOfFuel)
  /\ (forall s, (2 * length s + 1 < fuel)%nat ->
                JSON.parse_elements fuel s <> JSON.OutOfFuel)
  /\ (forall s, (2 * length s + 1 < fuel)%nat ->
                JSON.parse_members fuel s <> JSON.OutOfFuel).
Proof.
  induction fuel as [|fuel (IHv & IHe & IHm)].
  { repeat split; intros; lia. }
  destruct (parse_consumes fuel) as (Cv & Ce & Cm).
  split; [|split].
  - intros s Hf. cbn [JSON.parse_value].
    destruct s as [|c s']; [discriminate|]. cbn [length] in Hf.
    destruct (c =? 34)%N.
    { destruct (JSON.parse_string s') as [[t r]|]; discriminate. }
    destruct (c =? 91)%N.
    { destruct (JSON.skip_ws s') as [|d r] eqn:Hws; [discriminate|].
      pose proof (skip_ws_length s') as Hl. rewrite Hws in Hl.
      destruct (d =? 93)%N; [discriminate|].
      destruct (JSON.parse_elements fuel (d :: r)) eqn:He; try discriminate.
      exfalso. revert He. apply IHe. lia. }
    destruct (c =? 123)%N.
    { destruct (JSON.skip_ws s') as [|d r] eqn:Hws; [discriminate|].
      pose proof (skip_ws_length s') as Hl. rewrite Hws in Hl.
      destruct (d =? 125)%N; [discriminate|].
      destruct (JSON.parse_members fuel (d :: r)) eqn:He; try discriminate.
      exfalso. revert He. apply IHm. lia. }
    destruct (JsString.startsWith _ _); [discriminate|].
    destruct (JsString.startsWith _ _); [discriminate|].
    destruct (JsString.startsWith _ _); [discriminate|].
    unfold JSON.parse_number. destruct (c =? 45)%N.
    + destruct (JSON.parse_unsigned s') as [[[m e] r]|]; discriminate.
    + destruct (JSON.parse_unsigned (c :: s')) as [[[m e] r]|]; discriminate.
  - intros s Hf. cbn [JSON.parse_elements].
    destruct (JSON.parse_value fuel s) as [v r| |] eqn:Hv; try discriminate.
    + apply Cv in Hv.
      destruct (JSON.skip_ws r) as [|c r'] eqn:Hws; [discriminate|].
      apply skip_ws_cons_length in Hws.
      destruct (c =? 93)%N; [discriminate|].
      destruct (c =? 44)%N; [|discriminate].
      destruct (JSON.parse_elements fuel (JSON.skip_ws r')) eqn:He; try discriminate.
      exfalso. revert He. apply IHe. pose proof (skip_ws_length r'). lia.
    + exfalso. revert Hv. apply IHv. lia.
  - intros s Hf. cbn [JSON.parse_members].
    destruct s as [|q s']; [discriminate|]. cbn [length] in Hf.
    destruct (q =? 34)%N; [|discriminate].
    destruct (JSON.parse_string s') as [[k r]|] eqn:Hs; [|discriminate].
    apply parse_string_length in Hs.
    destruct (JSON.skip_ws r) as [|colon r1] eqn:Hws; [discriminate|].
    apply skip_ws_cons_length in Hws.
    destruct (colon =? 58)%N; [|discriminate].
    pose proof (skip_ws_length r1).
    destruct (JSON.parse_value fuel (JSON.skip_ws r1)) as [v r2| |] eqn:Hv;
      try discriminate.
    + apply Cv in Hv.
      destruct (JSON.skip_ws r2) as [|c r3] eqn:Hws2; [discriminate|].
      apply skip_ws_cons_length in Hws2.
      destruct (c =? 125)%N; [discriminate|].
      destruct (c =? 44)%N; [|discriminate].
      destruct (JSON.parse_members fuel (JSON.skip_ws r3)) eqn:Hm; try discriminate.
      exfalso. revert Hm. apply IHm. pose proof (skip_ws_length r3). lia.
    + exfalso. revert Hv. apply IHv. lia.
Qed.

(** [JSON.parse] never runs out of fuel: it throws on the inputs that are
    no JSON text, and on those only. *)
Lemma parse_total (s : jsstring) :
  JSON.parse_value (S (2 * length s)) (JSON.skip_ws s) <> JSON.OutOfFuel.
Proof.
  apply (proj1 (parse_fuel (S (2 * length s)))).
  pose proof (skip_ws_length s). lia.
Qed.

End Fuel.

Section Codec.





(** What is decoded from the encoding of an encodable value. *)
Lemma decode_stringify (v : value) :
  encodable v = true -> Cookie.decode (Cookie._stringify v) = v.
Proof.
  intros He. unfold Cookie.decode.
  destruct v as [| |b|n|s|z| |l|ps]; try discriminate He.
  - destruct b; reflexivity.
  - cbn [encodable] in He.
    assert (Hp : JSON.parse (Number.toString n) = Normal (VNum n)).
    { apply parse_stringify; [exact He|].
      cbn [Serializable.serializable] in He. apply andb_true_iff in He as [Hf _].
      destruct n; try discriminate Hf. reflexivity. }
    cbn [Cookie._stringify]. rewrite Hp. reflexivity.
  - cbn [encodable Cookie._stringify] in He |- *.
    destruct (JSON.parse s); [discriminate|reflexivity].
  - cbn [encodable] in He. destruct (serialize_defined _ He) as [text Ht].
    unfold Cookie._stringify, JSON.stringify. rewrite Ht.
    rewrite (parse_stringify _ _ He Ht). reflexivity.
  - cbn [encodable] in He. destruct (serialize_defined _ He) as [text Ht].
    unfold Cookie._stringify, JSON.stringify. rewrite Ht.
    rewrite (parse_stringify _ _ He Ht). reflexivity.
Qed.


End Codec.



(** ** Instances on the recording host *)

Lemma get_empty_value_witness :
  Cookie.get (str "k") (Cookie.Function (fun _ => VStr (str "fallback")))
    (sample_world None no_attributes 0 "a=1; k=; b=2")
  = (Normal (VStr []), sample_world None no_attributes 0 "a=1; k=; b=2").
Proof.
  exact (get_empty_value (str "k")
           (Cookie.Function (fun _ => VStr (str "fallback")))
           (sample_world None no_attributes 0 "a=1; k=; b=2") eq_refl).
Defined.

(** C6 as stated fails: on the cookie string [k=], [get] returns the empty
    string, with the default fallback and with the fallback ["fallback"]. *)
Lemma get_empty_value_is_not_fallback :
  fst (Cookie.get (str "k") (Cookie.Plain VNull)
         (sample_world None no_attributes 0 "k="))
  = Normal (VStr [])
  /\ fst (Cookie.get (str "k") (Cookie.Plain (VStr (str "fallback")))
            (sample_world None no_attributes 0 "k="))
     = Normal (VStr []).
Proof. split; vm_compute; reflexivity. Qed.

(** C7 as stated fails.  On an empty store [remember("k", () => "x")]
    returns the formatted string [k=x], not ["x"]; and on the store
    [k=null], where the key is present, the callback is called. *)
Lemma remember_returns_formatted_string :
  fst (Cookie.remember (str "k") (fun _ => VStr (str "x")) None
         (sample_world None no_attributes 0 ""))
  = Normal (VStr (str "k=x"))
  /\ invocations
       (snd (Cookie.remember (str "k") (fun _ => VStr (str "y")) None
               (sample_world None no_attributes 0 "k=null")))
     = 1%nat.
Proof. split; vm_compute; reflexivity. Qed.



(** The scenarios of the test suite for [has] and [get]. *)
Example has_of_falsy_entries :
  fst (Cookie.has (str "k") (sample_world None no_attributes 0 "k=")) = Normal false
  /\ fst (Cookie.has (str "k") (sample_world None no_attributes 0 "k=false")) = Normal false
  /\ fst (Cookie.has (str "k") (sample_world None no_attributes 0 "k=0")) = Normal false
  /\ fst (Cookie.has (str "k") (sample_world None no_attributes 0 "k=$value")) = Normal true.
Proof. repeat split; vm_compute; reflexivity. Qed.

(** * Further properties *)

(** ** Splitting the cookie string *)

Section Splitting.

Lemma split_from_skip (sep x rest piece : jsstring) :
  JsString.split_from sep (length x) piece (x ++ rest)
  = JsString.split_from sep 0 piece rest.
Proof.
  induction x as [|c x IH]; [reflexivity|].
  cbn [length app JsString.split_from]. exact IH.
Qed.

Lemma startsWith_head (c d : N) (s p : jsstring) :
  c <> d -> JsString.startsWith (c :: s) (d :: p) = false.
Proof.
  intros Hc. cbn [JsString.startsWith].
  destruct (N.eqb_spec d c); [congruence|reflexivity].
Qed.

(** A piece without the first code unit of the separator is not cut. *)
Lemma split_from_piece (c0 : N) (sep' p piece : jsstring) :
  c0 ∉ p ->
  JsString.split_from (c0 :: sep') 0 piece p = [piece ++ p].
Proof.
  revert piece. induction p as [|c p IH]; intros piece Hp.
  - cbn. rewrite app_nil_r. reflexivity.
  - apply not_elem_of_cons in Hp as [Hc Hp].
    cbn [JsString.split_from]. rewrite startsWith_head by congruence.
    rewrite IH by exact Hp. rewrite <- app_assoc. reflexivity.
Qed.

Lemma split_from_cut (c0 : N) (sep' p rest piece : jsstring) :
  c0 ∉ p ->
  JsString.split_from (c0 :: sep') 0 piece (p ++ (c0 :: sep') ++ rest)
  = (piece ++ p) :: JsString.split_from (c0 :: sep') 0 [] rest.
Proof.
  revert piece. induction p as [|c p IH]; intros piece Hp.
  - cbn [app JsString.split_from].
    change (c0 :: sep' ++ rest) with ((c0 :: sep') ++ rest).
    rewrite startsWith_app. rewrite app_nil_r. f_equal.
    cbn [length]. replace (S (length sep') - 1)%nat with (length sep') by lia.
    apply split_from_skip.
  - apply not_elem_of_cons in Hp as [Hc Hp].
    cbn [app JsString.split_from]. rewrite startsWith_head by congruence.
    rewrite IH by exact Hp. rewrite <- app_assoc. reflexivity.
Qed.

(** Splitting what was joined gives the pieces back, when no piece holds
    the first code unit of the separator. *)
Lemma split_join (c0 : N) (sep' : jsstring) (ps : list jsstring) :
  ps <> [] ->
  Forall (fun p => c0 ∉ p) ps ->
  JsString.split (c0 :: sep') (JSON.join (c0 :: sep') ps) = ps.
Proof.
  intros Hne Hps. unfold JsString.split.
  induction Hps as [|p ps Hp Hps IH]; [contradiction|].
  destruct ps as [|q ps].
  - cbn [JSON.join]. apply split_from_piece. exact Hp.
  - change (JSON.join (c0 :: sep') (p :: q :: ps))
      with (p ++ (c0 :: sep') ++ JSON.join (c0 :: sep') (q :: ps)).
    rewrite split_from_cut by exact Hp. cbn [app]. f_equal.
    apply IH. discriminate.
Qed.

Lemma split_from_nonempty (sep : jsstring) (skip : nat) (piece s : jsstring) :
  JsString.split_from sep skip piece s <> [].
Proof.
  revert skip piece. induction s as [|c s IH]; intros skip piece; [discriminate|].
  cbn [JsString.split_from]. destruct skip; [|apply IH].
  destruct (JsString.startsWith (c :: s) sep); [discriminate|apply IH].
Qed.

(** No piece of a split at a code unit holds that code unit. *)
Lemma split_unit_pieces (c0 : N) (s piece : jsstring) :
  c0 ∉ piece ->
  Forall (fun p => c0 ∉ p) (JsString.split_from [c0] 0 piece s).
Proof.
  revert piece. induction s as [|c s IH]; intros piece Hp.
  - cbn. constructor; [exact Hp|constructor].
  - cbn [JsString.split_from JsString.startsWith length Nat.sub].
    destruct (N.eqb_spec c0 c) as [->|Hc]; cbn [andb].
    + constructor; [exact Hp|]. apply IH. apply not_elem_of_nil.
    + apply IH. rewrite elem_of_app, list_elem_of_singleton. intros [?|?]; congruence.
Qed.

End Splitting.

(** ** The pattern of [get] on a cookie string *)

Section CookieStrings.

Lemma forallb_elem_of {A} (f : A -> bool) (l : list A) (x : A) :
  forallb f l = true -> x ∈ l -> f x = true.
Proof.
  intros Hf Hx. induction l as [|y l IH]; [apply elem_of_nil in Hx; contradiction|].
  cbn [forallb] in Hf. apply andb_true_iff in Hf as [Hy Hf].
  apply elem_of_cons in Hx as [->|Hx]; auto.
Qed.

Lemma no_unit_spec (c0 : N) (s : jsstring) :
  forallb (fun c => negb (c =? c0)%N) s = true <-> c0 ∉ s.
Proof.
  induction s as [|c s IH]; cbn [forallb].
  - split; [intros _; apply not_elem_of_nil|reflexivity].
  - rewrite andb_true_iff, IH, not_elem_of_cons, negb_true_iff, N.eqb_neq.
    split; intros [? ?]; split; congruence.
Qed.

Lemma until_semicolon_app (raw rest : jsstring) :
  59%N ∉ raw ->
  match rest with [] => True | c :: _ => c = 59%N end ->
  Cookie.until_semicolon (raw ++ rest) = raw.
Proof.
  intros Hraw Hrest. induction raw as [|c raw IH].
  - destruct rest as [|c rest]; [reflexivity|]. subst. reflexivity.
  - apply not_elem_of_cons in Hraw as [Hc Hraw].
    cbn [app Cookie.until_semicolon].
    destruct (N.eqb_spec c 59); [congruence|]. f_equal. auto.
Qed.

(** The key and an equals sign start [k=...] exactly when [k] is the key,
    neither holding an equals sign. *)
Lemma startsWith_key (key k tail : jsstring) :
  61%N ∉ key -> 61%N ∉ k ->
  JsString.startsWith (k ++ str "=" ++ tail) (key ++ str "=") = JsString.eqb key k.
Proof.
  change (str "=") with [61%N].
  revert k. induction key as [|c key IH]; intros [|d k] Hkey Hk.
  - cbn [app JsString.startsWith JsString.eqb]. rewrite N.eqb_refl. reflexivity.
  - apply not_elem_of_cons in Hk as [Hd _].
    cbn [app JsString.startsWith JsString.eqb].
    destruct (N.eqb_spec 61 d); [congruence|reflexivity].
  - apply not_elem_of_cons in Hkey as [Hc _].
    cbn [app JsString.startsWith JsString.eqb].
    destruct (N.eqb_spec c 61); [congruence|reflexivity].
  - apply not_elem_of_cons in Hkey as [_ Hkey].
    apply not_elem_of_cons in Hk as [_ Hk].
    cbn [app JsString.startsWith JsString.eqb]. rewrite IH by assumption.
    reflexivity.
Qed.

Lemma match_entry_head (key k raw rest : jsstring) :
  61%N ∉ key -> 61%N ∉ k -> 59%N ∉ raw ->
  match rest with [] => True | c :: _ => c = 59%N end ->
  Cookie.match_entry key (k ++ str "=" ++ raw ++ rest)
  = if JsString.eqb key k then Some raw else None.
Proof.
  intros Hkey Hk Hraw Hrest. unfold Cookie.match_entry.
  rewrite startsWith_key by assumption.
  destruct (JsString.eqb key k) eqn:He; [|reflexivity].
  apply eqb_eq in He. subst k. f_equal.
  replace (length key + 1)%nat with (length (key ++ str "=")).
  2:{ rewrite length_app. reflexivity. }
  rewrite (app_assoc key), drop_app_length.
  apply until_semicolon_app; assumption.
Qed.

Lemma match_after_skip (key x rest : jsstring) :
  59%N ∉ x ->
  Cookie.match_after key (x ++ rest) = Cookie.match_after key rest.
Proof.
  intros Hx. induction x as [|c x IH]; [reflexivity|].
  apply not_elem_of_cons in Hx as [Hc Hx].
  cbn [app Cookie.match_after].
  destruct (N.eqb_spec c 59); [congruence|]. auto.
Qed.

Lemma match_after_plain (key x : jsstring) :
  59%N ∉ x -> Cookie.match_after key x = None.
Proof.
  intros Hx. rewrite <- (app_nil_r x), match_after_skip by exact Hx. reflexivity.
Qed.

(** At text that does not start with white space the run of [\s] is
    empty. *)
Lemma match_spaces_head (key s : jsstring) :
  match s with c :: _ => Cookie.is_space c = false | [] => True end ->
  Cookie.match_spaces key s = Cookie.match_entry key s.
Proof.
  destruct s as [|c s]; [reflexivity|]. intros Hc.
  cbn [Cookie.match_spaces]. rewrite Hc. reflexivity.
Qed.

Lemma plain_key_units (k : jsstring) :
  plain_key k = true -> (59%N ∉ k) /\ (61%N ∉ k).
Proof.
  unfold plain_key. intros [Hu _]%andb_true_iff.
  induction k as [|c k IH]; [split; apply not_elem_of_nil|].
  cbn [forallb] in Hu. apply andb_true_iff in Hu as [Hc Hu].
  destruct (IH Hu) as [H1 H2].
  unfold key_unit in Hc. apply andb_true_iff in Hc as [Ha Hb].
  apply negb_true_iff, N.eqb_neq in Ha, Hb.
  split; apply not_elem_of_cons; split; congruence.
Qed.

Lemma plain_key_head (k tail : jsstring) :
  plain_key k = true ->
  match k ++ str "=" ++ tail with
  | c :: _ => Cookie.is_space c = false
  | [] => True
  end.
Proof.
  unfold plain_key. intros [_ Hh]%andb_true_iff.
  destruct k as [|c k]; [reflexivity|]. cbn [app].
  apply negb_true_iff in Hh. exact Hh.
Qed.

(** A key that does not start with white space does not match at the
    space after a semicolon. *)
Lemma match_entry_space (key s : jsstring) :
  plain_key key = true -> Cookie.match_entry key (32%N :: s) = None.
Proof.
  unfold plain_key. intros [_ Hh]%andb_true_iff. unfold Cookie.match_entry.
  destruct key as [|c key]; [reflexivity|].
  cbn [app JsString.startsWith].
  destruct (N.eqb_spec c 32) as [->|Hc]; [discriminate Hh|reflexivity].
Qed.

Lemma entry_text_units (e : jsstring * jsstring) :
  plain_entry e = true -> 59%N ∉ entry_text e.
Proof.
  unfold plain_entry, entry_text. intros [Hk Hr]%andb_true_iff.
  apply plain_key_units in Hk as [Hk _]. apply no_unit_spec in Hr.
  rewrite !not_elem_of_app. repeat split; [exact Hk| |exact Hr].
  intros Hin. apply list_elem_of_singleton in Hin. discriminate.
Qed.

Lemma cookie_text_cons (e e' : jsstring * jsstring) (es : list (jsstring * jsstring)) :
  cookie_text (e :: e' :: es)
  = fst e ++ str "=" ++ snd e ++ str "; " ++ cookie_text (e' :: es).
Proof. unfold cookie_text, entry_text. cbn [fmap list_fmap JSON.join]. rewrite <- !app_assoc. reflexivity. Qed.

(** The entry at the head of a cookie string. *)
Lemma match_entry_text (key : jsstring) (es : list (jsstring * jsstring)) :
  plain_key key = true ->
  forallb plain_entry es = true ->
  Cookie.match_entry key (cookie_text es)
  = match es with
    | (k, raw) :: _ => if JsString.eqb key k then Some raw else None
    | [] => None
    end.
Proof.
  intros Hkey Hes. destruct es as [|[k raw] es].
  - unfold Cookie.match_entry. destruct key; reflexivity.
  - cbn [forallb] in Hes. apply andb_true_iff in Hes as [He Hes].
    unfold plain_entry in He. cbn [fst snd] in He.
    apply andb_true_iff in He as [Hk Hr].
    apply plain_key_units in Hkey as [_ Hkey], Hk as [_ Hk].
    apply no_unit_spec in Hr.
    destruct es as [|e' es].
    + unfold cookie_text, entry_text. cbn [fmap list_fmap JSON.join fst snd].
      pose proof (match_entry_head key k raw [] Hkey Hk Hr I) as Hm.
      rewrite app_nil_r in Hm. exact Hm.
    + rewrite cookie_text_cons. cbn [fst snd].
      apply match_entry_head; auto. reflexivity.
Qed.

(** The entries after the first, each after its semicolon and space. *)
Lemma match_after_text (key : jsstring) (es : list (jsstring * jsstring)) :
  plain_key key = true ->
  forallb plain_entry es = true ->
  Cookie.match_after key (cookie_text es)
  = match es with
    | _ :: es' => stored key es'
    | [] => None
    end.
Proof.
  intros Hkey Hes. induction es as [|e es IH]; [reflexivity|].
  cbn [forallb] in Hes. apply andb_true_iff in Hes as [He Hes].
  specialize (IH Hes).
  destruct es as [|[k raw] es].
  - apply match_after_plain. apply (entry_text_units e He).
  - rewrite cookie_text_cons.
    rewrite !app_assoc, <- (app_assoc (fst e)), <- (app_assoc _ (str "; ")).
    rewrite match_after_skip by exact (entry_text_units e He).
    change (str "; " ++ cookie_text ((k, raw) :: es))
      with (59%N :: 32%N :: cookie_text ((k, raw) :: es)).
    cbn [Cookie.match_after Cookie.match_spaces]. cbn [N.eqb Pos.eqb].
    change (Cookie.is_space 32) with true. cbv iota.
    rewrite match_entry_space by exact Hkey.
    assert (Hhead : Cookie.match_spaces key (cookie_text ((k, raw) :: es))
                    = Cookie.match_entry key (cookie_text ((k, raw) :: es))).
    { apply match_spaces_head.
      cbn [forallb] in Hes. apply andb_true_iff in Hes as [He' _].
      unfold plain_entry in He'. apply andb_true_iff in He' as [Hk _].
      destruct es as [|e'' es].
      - unfold cookie_text, entry_text. cbn [fmap list_fmap JSON.join fst snd].
        apply plain_key_head. exact Hk.
      - rewrite cookie_text_cons. apply plain_key_head. exact Hk. }
    rewrite Hhead, (match_entry_text key _ Hkey Hes).
    cbn [stored]. destruct (JsString.eqb key k); [reflexivity|].
    exact IH.
Qed.

(** The pattern of [get] on a cookie string finds the first entry of the
    key. *)
Lemma exec_text (key : jsstring) (es : list (jsstring * jsstring)) :
  plain_key key = true ->
  forallb plain_entry es = true ->
  Cookie.exec (Cookie.escape key) (cookie_text es) = stored key es.
Proof.
  intros Hkey Hes. unfold Cookie.exec. rewrite literal_escape.
  rewrite (match_entry_text key es Hkey Hes), (match_after_text key es Hkey Hes).
  destruct es as [|[k raw] es]; [reflexivity|].
  cbn [stored]. destruct (JsString.eqb key k); reflexivity.
Qed.

End CookieStrings.

(** ** Running [all] *)

Section Listing.

Context {H : Type} `{Host H}.

Lemma get_null (key : jsstring) (w : world H) :
  Cookie.get key (Cookie.Plain VNull) w
  = (Normal (read (document_cookie (host w)) key), w).
Proof. rewrite get_run. unfold read. destruct (Cookie.exec _ _); reflexivity. Qed.

Lemma bind_get_null {B} (key : jsstring) (k : value -> M H B) (w : world H) :
  bind (Cookie.get key (Cookie.Plain VNull)) k w
  = k (read (document_cookie (host w)) key) w.
Proof. unfold bind. rewrite get_null. reflexivity. Qed.

Lemma all_forEach_run (pieces : list jsstring) (cookies : list (jsstring * value))
    (w : world H) :
  Cookie.all_forEach pieces cookies w
  = (Normal (cookies
             ++ ((fun piece => (piece_key piece,
                                read (document_cookie (host w)) (piece_key piece)))
                 <$> filter (fun piece => piece <> []) pieces)),
     w).
Proof.
  revert cookies. induction pieces as [|piece pieces IH]; intros cookies.
  - cbn. rewrite app_nil_r. reflexivity.
  - cbn [Cookie.all_forEach].
    destruct piece as [|c piece].
    + cbn [JsString.eqb]. rewrite IH. rewrite filter_cons_False by (intros Hn; congruence).
      reflexivity.
    + cbn [JsString.eqb]. rewrite filter_cons_True by discriminate.
      cbn [fmap list_fmap]. unfold piece_key at 1 2.
      change (str "=") with [61%N]. unfold JsString.split.
      destruct (JsString.split_from [61%N] 0 [] (c :: piece)) as [|key rest] eqn:Hs.
      { exfalso. exact (split_from_nonempty _ _ _ _ Hs). }
      rewrite bind_ret, bind_get_null, IH, <- app_assoc. reflexivity.
Qed.

Lemma all_run (w : world H) :
  Cookie.all w
  = (Normal ((fun piece => (piece_key piece,
                            read (document_cookie (host w)) (piece_key piece)))
             <$> filter (fun piece => piece <> [])
                   (match document_cookie (host w) with
                    | [] => []
                    | text => JsString.split (str "; ") text
                    end)),
     w).
Proof.
  unfold Cookie.all. rewrite bind_read_host.
  destruct (document_cookie (host w)) as [|c text] eqn:Ht; [reflexivity|].
  cbn [JsString.eqb]. rewrite bind_read_host, Ht. rewrite all_forEach_run, Ht.
  reflexivity.
Qed.

End Listing.

(** ** Entries of a cookie string *)

Section Entries.

Context {H : Type} `{Host H}.

Lemma stored_self (e : jsstring * jsstring) (entries : list (jsstring * jsstring)) :
  e ∈ entries -> exists raw, stored (fst e) entries = Some raw.
Proof.
  induction entries as [|[k raw] entries IH]; intros Hin.
  - apply elem_of_nil in Hin. contradiction.
  - cbn [stored]. destruct (JsString.eqb (fst e) k) eqn:He; [eauto|].
    apply elem_of_cons in Hin as [->|Hin]; [|auto].
    cbn [fst] in He. rewrite eqb_refl in He. discriminate.
Qed.

Lemma stored_first (e : jsstring * jsstring) (entries : list (jsstring * jsstring)) :
  NoDup (fst <$> entries) -> e ∈ entries -> stored (fst e) entries = Some (snd e).
Proof.
  induction entries as [|[k raw] entries IH]; intros Hnd Hin.
  - apply elem_of_nil in Hin. contradiction.
  - cbn [fmap list_fmap fst] in Hnd. apply NoDup_cons in Hnd as [Hk Hnd].
    cbn [stored]. apply elem_of_cons in Hin as [->|Hin].
    + cbn [fst snd]. rewrite eqb_refl. reflexivity.
    + destruct (JsString.eqb (fst e) k) eqn:He; [|auto].
      apply eqb_eq in He. subst k. exfalso. apply Hk.
      apply list_elem_of_fmap. exists e. auto.
Qed.

Lemma piece_key_entry (e : jsstring * jsstring) :
  plain_entry e = true -> piece_key (entry_text e) = fst e.
Proof.
  unfold plain_entry. intros [Hk _]%andb_true_iff.
  apply plain_key_units in Hk as [_ Hk].
  unfold piece_key, entry_text, JsString.split. change (str "=") with [61%N].
  pose proof (split_from_cut 61 [] (fst e) (snd e) [] Hk) as Hc.
  cbn [app] in Hc. cbn [app]. rewrite Hc. reflexivity.
Qed.

Lemma entry_text_nonempty (e : jsstring * jsstring) : entry_text e <> [].
Proof. unfold entry_text. destruct (fst e); discriminate. Qed.

Lemma cookie_text_nonempty (e : jsstring * jsstring) (es : list (jsstring * jsstring)) :
  cookie_text (e :: es) <> [].
Proof.
  unfold cookie_text. cbn [fmap list_fmap JSON.join].
  destruct (entry_text <$> es).
  - apply entry_text_nonempty.
  - intros Hn. apply app_eq_nil in Hn as [Hn _]. exact (entry_text_nonempty e Hn).
Qed.

Lemma split_cookie_text (entries : list (jsstring * jsstring)) :
  entries <> [] ->
  forallb plain_entry entries = true ->
  JsString.split (str "; ") (cookie_text entries) = entry_text <$> entries.
Proof.
  intros Hne Hes. unfold cookie_text.
  change (str "; ") with (59%N :: [32%N]).
  apply split_join.
  - destruct entries; [contradiction|discriminate].
  - apply Forall_fmap, Forall_forall. intros e He.
    apply entry_text_units. exact (forallb_elem_of _ _ _ Hes He).
Qed.

(** X1.  On a cookie string of entries [key=raw] joined by [; ], [get]
    returns the decoded raw value of the first entry of the key, and the
    fallback when there is none. *)
Theorem get_first_entry (key : jsstring) (fb : Cookie.fallback)
    (entries : list (jsstring * jsstring)) (w : world H) :
  plain_key key = true ->
  forallb plain_entry entries = true ->
  document_cookie (host w) = cookie_text entries ->
  Cookie.get key fb w =
  match stored key entries with
  | Some raw => (Normal (Cookie.decode raw), w)
  | None =>
      match fb with
      | Cookie.Function f => (Normal (f tt), called w)
      | Cookie.Plain (VUndefined | VNull) => (Normal VNull, w)
      | Cookie.Plain v => (Normal v, w)
      end
  end.
Proof.
  intros Hkey Hes Ht. rewrite get_run, Ht, (exec_text key entries Hkey Hes).
  reflexivity.
Qed.

Lemma all_text (entries : list (jsstring * jsstring)) (w : world H) :
  forallb plain_entry entries = true ->
  document_cookie (host w) = cookie_text entries ->
  Cookie.all w
  = (Normal ((fun e => (fst e,
                        match stored (fst e) entries with
                        | Some raw => Cookie.decode raw
                        | None => VNull
                        end)) <$> entries),
     w).
Proof.
  intros Hes Ht. rewrite all_run, Ht. f_equal. f_equal.
  destruct entries as [|e0 es0]; [reflexivity|].
  set (entries := e0 :: es0) in *.
  destruct (cookie_text entries) as [|c text] eqn:Hc.
  { exfalso. exact (cookie_text_nonempty e0 es0 Hc). }
  rewrite <- Hc. rewrite split_cookie_text by (auto; discriminate).
  assert (Hf : filter (fun piece : jsstring => piece <> []) (entry_text <$> entries)
               = entry_text <$> entries).
  { clear. induction entries as [|e es IH]; [reflexivity|].
    cbn [fmap list_fmap]. rewrite filter_cons_True by apply entry_text_nonempty.
    f_equal. exact IH. }
  rewrite Hf, <- list_fmap_compose.
  apply Forall_fmap_ext_1, Forall_forall. intros e He.
  pose proof (forallb_elem_of _ _ _ Hes He) as Hok.
  cbn [compose]. rewrite (piece_key_entry e Hok). f_equal.
  unfold read.
  rewrite exec_text; [reflexivity| |exact Hes].
  unfold plain_entry in Hok. apply andb_true_iff in Hok as [Hk _]. exact Hk.
Qed.

(** X2.  On such a cookie string [all] lists the entries in order, each key
    with the decoded raw value of the first entry of that key; [keys] and
    [count] follow.  With no key twice, every entry is listed with its own
    decoded value. *)
Theorem all_entries (entries : list (jsstring * jsstring)) (w : world H) :
  forallb plain_entry entries = true ->
  document_cookie (host w) = cookie_text entries ->
  Cookie.all w
  = (Normal ((fun e => (fst e,
                        match stored (fst e) entries with
                        | Some raw => Cookie.decode raw
                        | None => VNull
                        end)) <$> entries),
     w)
  /\ Cookie.keys w = (Normal (fst <$> entries), w)
  /\ Cookie.count w = (Normal (length entries), w)
  /\ (NoDup (fst <$> entries) ->
      Cookie.all w
      = (Normal ((fun e => (fst e, Cookie.decode (snd e))) <$> entries), w)).
Proof.
  intros Hes Ht. pose proof (all_text entries w Hes Ht) as Ha.
  split; [exact Ha|]. split; [|split].
  - unfold Cookie.keys, bind. rewrite Ha. unfold ret. f_equal. f_equal.
    rewrite <- list_fmap_compose. reflexivity.
  - unfold Cookie.count, bind. rewrite Ha. unfold ret. f_equal. f_equal.
    apply length_fmap.
  - intros Hnd. rewrite Ha. f_equal. f_equal.
    apply Forall_fmap_ext_1, Forall_forall. intros e He.
    rewrite (stored_first e entries Hnd He). reflexivity.
Qed.

End Entries.

(** ** [all], [keys], [count], [hasAny], [isEmpty] and [clear] *)

Section Queries.

Context {H : Type} `{Host H}.

Lemma piece_key_units (piece : jsstring) : 61%N ∉ piece_key piece.
Proof.
  unfold piece_key, JsString.split. change (str "=") with [61%N].
  pose proof (split_unit_pieces 61 piece [] (not_elem_of_nil _)) as Hp.
  destruct (JsString.split_from [61%N] 0 [] piece) as [|key rest].
  - apply not_elem_of_nil.
  - apply Forall_cons in Hp as [Hk _]. exact Hk.
Qed.

Lemma length_filter_le {A} (P : A -> Prop) `{forall x, Decision (P x)} (l : list A) :
  (length (filter P l) <= length l)%nat.
Proof.
  induction l as [|x l IH]; [reflexivity|].
  destruct (decide (P x)).
  - rewrite filter_cons_True by assumption. cbn [length]. lia.
  - rewrite filter_cons_False by assumption. cbn [length]. lia.
Qed.

(** X3.  [all] only reads: it returns, whatever the cookie string, and
    leaves everything as it was.  No key it lists holds an equals sign, the
    value beside a key is what [get] returns for that key, and there are at
    most as many items as pieces between the separators [; ]. *)
Theorem all_reads_only (w : world H) :
  exists cookies,
    Cookie.all w = (Normal cookies, w)
    /\ Forall (fun c =>
                 forallb (fun u => negb (u =? 61)%N) (fst c) = true
                 /\ Cookie.get (fst c) (Cookie.Plain VNull) w = (Normal (snd c), w))
              cookies
    /\ Cookie.keys w = (Normal (fst <$> cookies), w)
    /\ Cookie.count w = (Normal (length cookies), w)
    /\ (length cookies
        <= length (JsString.split (str "; ") (document_cookie (host w))))%nat.
Proof.
  eexists. split; [apply all_run|].
  split; [|split; [|split]].
  - apply Forall_fmap, Forall_forall. intros piece _. cbn [fst snd].
    split; [apply no_unit_spec, piece_key_units|apply get_null].
  - unfold Cookie.keys, bind. rewrite all_run. reflexivity.
  - unfold Cookie.count, bind. rewrite all_run. reflexivity.
  - rewrite length_fmap.
    destruct (document_cookie (host w)) as [|c text].
    + cbn. lia.
    + apply length_filter_le.
Qed.

Lemma exec_empty (key : jsstring) : Cookie.exec key [] = None.
Proof.
  unfold Cookie.exec, Cookie.match_entry.
  destruct (Cookie.literal key); reflexivity.
Qed.

Lemma has_run (key : jsstring) (w : world H) :
  Cookie.has key w = (Normal (truthy (read (document_cookie (host w)) key)), w).
Proof. unfold Cookie.has. rewrite bind_get_null. reflexivity. Qed.

Lemma some_has_run (keys : list jsstring) (w : world H) :
  Cookie.some_has keys w
  = (Normal (existsb (fun key => truthy (read (document_cookie (host w)) key)) keys), w).
Proof.
  induction keys as [|key keys IH]; [reflexivity|].
  cbn [Cookie.some_has existsb]. unfold bind at 1. rewrite has_run.
  destruct (truthy _); [reflexivity|exact IH].
Qed.

Lemma hasAny_run (keys : Cookie.keys_arguments) (w : world H) :
  Cookie.hasAny keys w
  = (Normal (existsb (fun key => truthy (read (document_cookie (host w)) key))
               match keys with Cookie.Spread ks | Cookie.OneArray ks => ks end),
     w).
Proof.
  unfold Cookie.hasAny. destruct keys as [[|k [|k' ks]]|ks]; apply some_has_run.
Qed.

(** X4.  [hasAny] answers the same for keys spread and for the one array
    of them, changes nothing, and answers [true] exactly when [has] does
    for one of the keys. *)
Theorem hasAny_some (keys : list jsstring) (w : world H) :
  exists found,
    Cookie.hasAny (Cookie.Spread keys) w = (Normal found, w)
    /\ Cookie.hasAny (Cookie.OneArray keys) w = (Normal found, w)
    /\ (found = true
        <-> Exists (fun key => Cookie.has key w = (Normal true, w)) keys).
Proof.
  eexists. split; [apply hasAny_run|]. split; [apply hasAny_run|].
  rewrite existsb_exists, Exists_exists.
  split.
  - intros (key & Hin & Ht). exists key. split; [apply list_elem_of_In, Hin|].
    rewrite has_run, Ht. reflexivity.
  - intros (key & Hin & Hh). exists key. split; [apply list_elem_of_In, Hin|].
    rewrite has_run in Hh. congruence.
Qed.

(** X5.  When [isEmpty] answers [true], [isNotEmpty] answers [false],
    [all] and [keys] are empty and [count] is zero, [has] and [hasAny]
    answer [false] for every key, [get] returns its fallback, and [clear]
    assigns nothing. *)
Theorem isEmpty_true (key : jsstring) (fb : value) (keys : Cookie.keys_arguments)
    (attributes : PathAttributes) (w : world H) :
  fst (Cookie.isEmpty w) = Normal true ->
  Cookie.isNotEmpty w = (Normal false, w)
  /\ Cookie.all w = (Normal [], w)
  /\ Cookie.keys w = (Normal [], w)
  /\ Cookie.count w = (Normal 0%nat, w)
  /\ Cookie.has key w = (Normal false, w)
  /\ Cookie.hasAny keys w = (Normal false, w)
  /\ Cookie.get key (Cookie.Plain fb) w
     = (Normal match fb with VUndefined => VNull | _ => fb end, w)
  /\ Cookie.clear attributes w = (Normal tt, w).
Proof.
  intros He.
  assert (Ht : document_cookie (host w) = []).
  { unfold Cookie.isEmpty in He. rewrite bind_read_host in He. cbn in He.
    destruct (document_cookie (host w)); [reflexivity|discriminate]. }
  assert (Hr : forall k, read (document_cookie (host w)) k = VNull).
  { intros k. unfold read. rewrite Ht, exec_empty. reflexivity. }
  assert (Ha : Cookie.all w = (Normal [], w)).
  { rewrite all_run, Ht. reflexivity. }
  split.
  { unfold Cookie.isNotEmpty, Cookie.isEmpty. rewrite bind_bind, bind_read_host, Ht.
    reflexivity. }
  split; [exact Ha|].
  split; [unfold Cookie.keys, bind; rewrite Ha; reflexivity|].
  split; [unfold Cookie.count, bind; rewrite Ha; reflexivity|].
  split; [rewrite has_run, Hr; reflexivity|].
  split.
  { rewrite hasAny_run. f_equal. f_equal.
    induction (match keys with Cookie.Spread ks | Cookie.OneArray ks => ks end)
      as [|k ks IH]; [reflexivity|].
    cbn [existsb]. rewrite Hr, IH. reflexivity. }
  split.
  { rewrite get_run, Ht, exec_empty. destruct fb; reflexivity. }
  unfold Cookie.clear, bind. rewrite Ha. reflexivity.
Qed.

(** *** Clearing *)



End Queries.

(** ** Keys are matched literally *)

Section Literal.

Lemma until_semicolon_split (s : jsstring) :
  exists rest,
    s = Cookie.until_semicolon s ++ rest
    /\ forallb (fun c => negb (c =? 59)%N) (Cookie.until_semicolon s) = true
    /\ group_end rest.
Proof.
  induction s as [|c s (rest & Hs & Hg & Hr)].
  - exists []. repeat split.
  - cbn [Cookie.until_semicolon]. destruct (c =? 59)%N eqn:Hc.
    + exists (c :: s). split; [reflexivity|]. split; [reflexivity|].
      apply N.eqb_eq in Hc. exact Hc.
    + exists rest. split; [cbn [app]; f_equal; exact Hs|].
      split; [|exact Hr]. cbn [forallb]. rewrite Hc, Hg. reflexivity.
Qed.

Lemma match_entry_inv (key s raw : jsstring) :
  Cookie.match_entry key s = Some raw ->
  exists rest,
    s = key ++ str "=" ++ raw ++ rest
    /\ forallb (fun c => negb (c =? 59)%N) raw = true
    /\ group_end rest.
Proof.
  unfold Cookie.match_entry.
  destruct (JsString.startsWith s (key ++ str "=")) eqn:Hs; [|discriminate].
  intros [= <-]. apply startsWith_inv in Hs.
  replace (length (key ++ str "=")) with (length key + 1)%nat in Hs
    by (rewrite length_app; reflexivity).
  destruct (until_semicolon_split (drop (length key + 1) s)) as (rest & Hd & Hg & Hr).
  exists rest. split; [|split; assumption].
  rewrite Hs at 1. rewrite <- app_assoc. do 2 f_equal. exact Hd.
Qed.

Lemma match_spaces_inv (key s raw : jsstring) :
  Cookie.match_spaces key s = Some raw ->
  exists spaces rest,
    s = spaces ++ key ++ str "=" ++ raw ++ rest
    /\ forallb Cookie.is_space spaces = true
    /\ forallb (fun c => negb (c =? 59)%N) raw = true
    /\ group_end rest.
Proof.
  revert raw. induction s as [|c s IH]; intros raw; cbn [Cookie.match_spaces].
  - intros Hm. apply match_entry_inv in Hm as (rest & Hs & Hg & Hr).
    exists [], rest. auto.
  - assert (Hhere : Cookie.match_entry key (c :: s) = Some raw ->
                    exists spaces rest,
                      c :: s = spaces ++ key ++ str "=" ++ raw ++ rest
                      /\ forallb Cookie.is_space spaces = true
                      /\ forallb (fun c => negb (c =? 59)%N) raw = true
                      /\ group_end rest).
    { intros Hm. apply match_entry_inv in Hm as (rest & Hs & Hg & Hr).
      exists [], rest. auto. }
    destruct (Cookie.is_space c) eqn:Hc; [|exact Hhere].
    destruct (Cookie.match_spaces key s) as [g|] eqn:Hm; [|exact Hhere].
    intros [= <-]. destruct (IH g eq_refl) as (spaces & rest & Hs & Hsp & Hg & Hr).
    exists (c :: spaces), rest. split; [cbn [app]; f_equal; exact Hs|].
    split; [cbn [forallb]; rewrite Hc, Hsp; reflexivity|]. auto.
Qed.

Lemma match_after_inv (key s raw : jsstring) :
  Cookie.match_after key s = Some raw ->
  exists before spaces rest,
    s = before ++ [59%N] ++ spaces ++ key ++ str "=" ++ raw ++ rest
    /\ forallb Cookie.is_space spaces = true
    /\ forallb (fun c => negb (c =? 59)%N) raw = true
    /\ group_end rest.
Proof.
  revert raw. induction s as [|c s IH]; intros raw; cbn [Cookie.match_after];
    [discriminate|].
  assert (Hlater : Cookie.match_after key s = Some raw ->
                   exists before spaces rest,
                     c :: s = before ++ [59%N] ++ spaces ++ key ++ str "=" ++ raw ++ rest
                     /\ forallb Cookie.is_space spaces = true
                     /\ forallb (fun c => negb (c =? 59)%N) raw = true
                     /\ group_end rest).
  { intros Hm. destruct (IH raw Hm) as (before & spaces & rest & Hs & Hrest).
    exists (c :: before), spaces, rest. split; [cbn [app]; f_equal; exact Hs|exact Hrest]. }
  destruct (c =? 59)%N eqn:Hc; [|exact Hlater].
  destruct (Cookie.match_spaces key s) as [g|] eqn:Hm; [|exact Hlater].
  intros [= <-]. apply N.eqb_eq in Hc. subst c.
  apply match_spaces_inv in Hm as (spaces & rest & Hs & Hrest).
  exists [], spaces, rest. split; [cbn [app]; f_equal; exact Hs|exact Hrest].
Qed.


Lemma exec_head (key tail : jsstring) :
  Cookie.exec (Cookie.escape key) (key ++ str "=" ++ tail)
  = Some (Cookie.until_semicolon tail).
Proof.
  unfold Cookie.exec, Cookie.match_entry. rewrite literal_escape.
  rewrite app_assoc, startsWith_app.
  replace (length key + 1)%nat with (length (key ++ str "="))
    by (rewrite length_app; reflexivity).
  rewrite drop_app_length. reflexivity.
Qed.

End Literal.

(** ** Reading back what [set] wrote *)

Section ReadingBack.

Context {H : Type} `{Host H}.

(** On a cookie string that starts with the key and an equals sign,
    [get] returns the decoded text up to the first semicolon, whatever
    characters the key holds. *)
Lemma get_head (key tail : jsstring) (fb : Cookie.fallback) (w : world H) :
  document_cookie (host w) = key ++ str "=" ++ tail ->
  Cookie.get key fb w
  = (Normal (Cookie.decode (Cookie.until_semicolon tail)), w).
Proof. intros Ht. rewrite get_run, Ht, exec_head. reflexivity. Qed.

(** Each segment after the entry is empty or starts with a semicolon. *)
Lemma segments_end (e : option expires_t) (a : CookieAttributes) :
  group_end (expires_segment e ++ scope_segments a).
Proof.
  unfold scope_segments, expires_segment, path_segment, domain_segment,
    sameSite_segment, secure_segment.
  destruct e as [[d|s]|]; cbn [app];
    [reflexivity| |];
    (destruct (nonempty (path a)); [reflexivity|]);
    (destruct (nonempty (domain a)); [reflexivity|]);
    (destruct (sameSite a) as [[]|]; [reflexivity..|]);
    destruct (secure a) as [[]|]; reflexivity.
Qed.

(** What [set] returns starts with the entry, and what follows is empty
    or starts with a semicolon. *)
Lemma set_returns_entry (key : jsstring) (v : value) (attributes : option ref)
    (w : world H) (cookie : jsstring) :
  fst (Cookie.set key v attributes w) = Normal cookie ->
  exists rest, cookie = entry key v ++ rest /\ group_end rest.
Proof.
  destruct attributes as [l|].
  - destruct (heap w !! l) as [a|] eqn:Hl.
    + rewrite (set_run _ _ _ _ _ Hl). destruct (rejected a); [discriminate|].
      intros [= <-]. eexists. split; [reflexivity|apply segments_end].
    + unfold Cookie.set. rewrite bind_ret. unfold bind, load. rewrite Hl.
      discriminate.
  - rewrite set_default_run. intros [= <-].
    eexists. split; [reflexivity|apply segments_end].
Qed.

Lemma until_semicolon_end (text rest : jsstring) :
  group_end rest ->
  Cookie.until_semicolon (text ++ rest) = Cookie.until_semicolon text.
Proof.
  intros Hr. induction text as [|c text IH].
  - destruct rest as [|c rest]; [reflexivity|]. cbn in Hr. subst. reflexivity.
  - cbn [app Cookie.until_semicolon]. destruct (c =? 59)%N; [reflexivity|].
    f_equal. exact IH.
Qed.

Lemma until_semicolon_plain (text : jsstring) :
  plain_raw text = true -> Cookie.until_semicolon text = text.
Proof.
  unfold plain_raw. induction text as [|c text IH]; [reflexivity|].
  cbn [forallb Cookie.until_semicolon]. intros [Hc Ht]%andb_true_iff.
  apply negb_true_iff in Hc. rewrite Hc. f_equal. auto.
Qed.

Lemma entry_defined (key : jsstring) (v : value) :
  v <> VNull -> v <> VUndefined ->
  entry key v = key ++ str "=" ++ Cookie._stringify v.
Proof. intros Hn Hu. destruct v; try reflexivity; contradiction. Qed.

(** X8.  Reading back what [set] wrote.  When the cookie string is the
    string [set] returned for a value other than [null] and [undefined],
    [get] of the same key returns the decoding of the written text up to
    its first semicolon: [set] escapes nothing, so a semicolon in the value
    cuts it short. *)
Theorem get_after_set (key : jsstring) (v : value) (attributes : option ref)
    (fb : Cookie.fallback) (cookie : jsstring) (w w2 : world H) :
  v <> VNull -> v <> VUndefined ->
  fst (Cookie.set key v attributes w) = Normal cookie ->
  document_cookie (host w2) = cookie ->
  Cookie.get key fb w2
  = (Normal (Cookie.decode (Cookie.until_semicolon (Cookie._stringify v))), w2).
Proof.
  intros Hn Hu Hs Ht.
  destruct (set_returns_entry _ _ _ _ _ Hs) as (rest & -> & Hr).
  rewrite (entry_defined key v Hn Hu), <- !app_assoc in Ht.
  rewrite (get_head key _ fb w2 Ht).
  rewrite until_semicolon_end by exact Hr. reflexivity.
Qed.

(** X9.  The round trip through [set] and [get]: an encodable value whose
    text holds no semicolon is read back as it was written, whatever the
    attributes. *)
Theorem get_set_round_trip (key : jsstring) (v : value) (attributes : option ref)
    (fb : Cookie.fallback) (cookie : jsstring) (w w2 : world H) :
  encodable v = true ->
  plain_raw (Cookie._stringify v) = true ->
  fst (Cookie.set key v attributes w) = Normal cookie ->
  document_cookie (host w2) = cookie ->
  Cookie.get key fb w2 = (Normal v, w2).
Proof.
  intros He Hp Hs Ht.
  destruct (set_returns_entry _ _ _ _ _ Hs) as (rest & -> & Hr).
  assert (Hn : v <> VNull) by (intros ->; discriminate He).
  assert (Hu : v <> VUndefined) by (intros ->; discriminate He).
  rewrite (entry_defined key v Hn Hu), <- !app_assoc in Ht.
  rewrite (get_head key _ fb w2 Ht).
  rewrite until_semicolon_end by exact Hr.
  rewrite (until_semicolon_plain _ Hp), (decode_stringify v He). reflexivity.
Qed.

End ReadingBack.

(** ** What [set] leaves alone *)

Section Frame.

Context {H : Type} `{Host H}.

(** X10.  What [set] leaves alone.  It never changes the default time to
    live and calls nothing; it assigns the string it returns to
    [document.cookie], once, and assigns nothing when it throws; and of the
    attributes objects it writes only the one it works on. *)
Theorem set_frame (key : jsstring) (v : value) (attributes : option ref)
    (w : world H) :
  static_ttl (snd (Cookie.set key v attributes w)) = static_ttl w
  /\ invocations (snd (Cookie.set key v attributes w)) = invocations w
  /\ match fst (Cookie.set key v attributes w) with
     | Normal cookie =>
         host (snd (Cookie.set key v attributes w))
         = document_cookie_assign cookie (host w)
     | Throw _ => host (snd (Cookie.set key v attributes w)) = host w
     end
  /\ (forall l, l <> attributes_object attributes w ->
        heap (snd (Cookie.set key v attributes w)) !! l = heap w !! l).
Proof.
  destruct attributes as [l|]; cbn [attributes_object].
  - destruct (heap w !! l) as [a|] eqn:Hl.
    + rewrite (set_run _ _ _ _ _ Hl).
      destruct (rejected a); cbn [fst snd after_set static_ttl invocations host heap];
        repeat split; intros l' Hl'; apply lookup_insert_ne; congruence.
    + unfold Cookie.set. rewrite bind_ret. unfold bind, load. rewrite Hl.
      repeat split.
  - rewrite set_default_run. cbn [fst snd after_set static_ttl invocations host heap].
    repeat split. intros l' Hl'. apply lookup_insert_ne. congruence.
Qed.

End Frame.

(** ** Expirations that are no dates *)

Section Dates.

Context {H : Type} `{Host H}.

Lemma set_without_ttl (key : jsstring) (v : value) (l : ref)
    (a : CookieAttributes) (w : world H) :
  heap w !! l = Some a ->
  ttl_in_force w a = None \/ ttl_in_force w a = Some 0 ->
  Cookie.set key v (Some l) w =
    let cookie :=
      entry key v ++ expires_segment (Cookie._expires (host w) (expires a))
      ++ scope_segments a in
    let a' := with_expires (Cookie._expires (host w) (expires a))
                (with_ttl (ttl_in_force w a) a) in
    if rejected a
    then (Throw (Error Cookie.validation_message), after_set l a' (host w) w)
    else (Normal cookie, after_set l a' (document_cookie_assign cookie (host w)) w).
Proof.
  intros Hl Ht. rewrite (set_run _ _ _ _ _ Hl).
  unfold formatted, resolved, expiration.
  destruct Ht as [-> | ->]; reflexivity.
Qed.

(** X11.  A [Date] object that holds no time is formatted as it prints:
    without a time to live in force, [set] writes [expires=Invalid Date]. *)
Theorem set_invalid_date (key : jsstring) (v : value) (l : ref)
    (a : CookieAttributes) (w : world H) :
  heap w !! l = Some a ->
  expires a = Some (ExpiresDate InvalidDate) ->
  ttl_in_force w a = None \/ ttl_in_force w a = Some 0 ->
  fst (Cookie.set key v (Some l) w) =
    if rejected a then Throw (Error Cookie.validation_message)
    else Normal (entry key v ++ str "; expires=Invalid Date" ++ scope_segments a).
Proof.
  intros Hl He Ht. rewrite (set_without_ttl _ _ _ _ _ Hl Ht). cbv zeta.
  rewrite He. destruct (rejected a); reflexivity.
Qed.

(** X12.  An expiration given as a string is parsed: without a time to live
    in force, [set] formats the date it denotes, and no expiration at all
    when the string is empty or denotes none; the object then holds that
    date, or nothing, in place of the string. *)
Theorem set_expires_string (key : jsstring) (v : value) (l : ref)
    (a : CookieAttributes) (s : jsstring) (w : world H) :
  heap w !! l = Some a ->
  expires a = Some (ExpiresString s) ->
  ttl_in_force w a = None \/ ttl_in_force w a = Some 0 ->
  let parsed :=
    match s with
    | [] => None
    | _ :: _ =>
        match Date_parse (host w) s with
        | ValidDate t => Some (ExpiresDate (ValidDate t))
        | InvalidDate => None
        end
    end in
  fst (Cookie.set key v (Some l) w)
  = (if rejected a then Throw (Error Cookie.validation_message)
     else Normal (entry key v
                  ++ match parsed with
                     | Some (ExpiresDate d) => str "; expires=" ++ DateModel.toUTCString d
                     | _ => []
                     end
                  ++ scope_segments a))
  /\ expires <$> (heap (snd (Cookie.set key v (Some l) w)) !! l) = Some parsed.
Proof.
  intros Hl He Ht parsed. rewrite (set_without_ttl _ _ _ _ _ Hl Ht). cbv zeta.
  assert (Hp : Cookie._expires (host w) (expires a) = parsed).
  { rewrite He. subst parsed. destruct s as [|c s]; [reflexivity|].
    cbn [Cookie._expires]. destruct (Date_parse (host w) (c :: s)); reflexivity. }
  rewrite Hp. split.
  - destruct (rejected a); reflexivity.
  - destruct (rejected a); cbn [snd]; rewrite after_set_lookup; reflexivity.
Qed.

(** X13.  A time to live is not bounded: when the instant it gives lies
    outside the range of [Date], [set] writes [expires=Invalid Date]. *)
Theorem set_ttl_out_of_range (key : jsstring) (v : value) (l : ref)
    (a : CookieAttributes) (t : Z) (w : world H) :
  heap w !! l = Some a ->
  ttl_in_force w a = Some t ->
  t <> 0 ->
  8640000000000000 < Z.abs (Date_now (host w) + t * 1000) ->
  fst (Cookie.set key v (Some l) w) =
    if rejected a then Throw (Error Cookie.validation_message)
    else Normal (entry key v ++ str "; expires=Invalid Date" ++ scope_segments a).
Proof.
  intros Hl Ht Hz Hr. rewrite (set_run _ _ _ _ _ Hl).
  destruct (rejected a); [reflexivity|]. cbn [fst]. f_equal.
  unfold formatted, expiration. rewrite Ht.
  apply Z.eqb_neq in Hz. rewrite Hz. cbn [expires_segment].
  unfold DateModel.new, DateModel.TimeClip.
  destruct (Z.leb_spec (Z.abs (Date_now (host w) + t * 1000)) 8640000000000000);
    [lia|reflexivity].
Qed.

End Dates.

(** ** Touching *)

Section Touching.

Context {H : Type} `{Host H}.

Lemma get_found (key raw : jsstring) (fb : Cookie.fallback) (w : world H) :
  Cookie.exec (Cookie.escape key) (document_cookie (host w)) = Some raw ->
  Cookie.get key fb w = (Normal (Cookie.decode raw), w).
Proof. intros He. rewrite get_run, He. reflexivity. Qed.

(** X14.  [touch] keeps the value: when the raw value of the key is the text
    of an encodable value, [touch] assigns the key with that same text, the
    expiration of the time to live in force and the path. *)
Theorem touch_keeps_value (key : jsstring) (v : value) (t : option Z)
    (attributes : PathAttributes) (w : world H) :
  encodable v = true ->
  Cookie.exec (Cookie.escape key) (document_cookie (host w))
  = Some (Cookie._stringify v) ->
  fst (Cookie.touch key t attributes w) = Normal tt
  /\ host (snd (Cookie.touch key t attributes w))
     = document_cookie_assign
         (key ++ str "=" ++ Cookie._stringify v
          ++ expires_segment (expiration w (touched w t attributes))
          ++ path_segment (touched w t attributes))
         (host w).
Proof.
  intros Hv He.
  pose proof (get_found key _ (Cookie.Plain VNull) w He) as Hg.
  rewrite (decode_stringify v Hv) in Hg.
  rewrite (touch_run _ _ _ _ _ Hg).
  assert (Hf : formatted key v w (touched w t attributes)
               = key ++ str "=" ++ Cookie._stringify v
                 ++ expires_segment (expiration w (touched w t attributes))
                 ++ path_segment (touched w t attributes)).
  { unfold formatted, scope_segments, domain_segment, sameSite_segment, secure_segment.
    cbn [touched domain sameSite secure nonempty]. rewrite !app_nil_r.
    rewrite entry_defined, <- !app_assoc;
      [reflexivity|intros ->; discriminate Hv..]. }
  destruct v; try discriminate Hv; cbn [fst snd after_set host]; rewrite Hf;
    split; reflexivity.
Qed.

(** X15.  [touch] of a key that [get] reads as [null], because no entry
    matches or because its raw value is [null], does nothing. *)
Theorem touch_absent (key : jsstring) (t : option Z) (attributes : PathAttributes)
    (w : world H) :
  Cookie.exec (Cookie.escape key) (document_cookie (host w)) = None
  \/ Cookie.exec (Cookie.escape key) (document_cookie (host w)) = Some (str "null") ->
  Cookie.touch key t attributes w = (Normal tt, w).
Proof.
  intros He.
  assert (Hg : Cookie.get key (Cookie.Plain VNull) w = (Normal VNull, w)).
  { rewrite get_run. destruct He as [-> | ->]; reflexivity. }
  rewrite (touch_run _ _ _ _ _ Hg). reflexivity.
Qed.

(** X16.  A time to live of zero given to [touch] is not replaced by the
    default, and gives no expiration: the key is assigned again with its
    value and the path only. *)
Theorem touch_zero (key raw : jsstring) (attributes : PathAttributes) (w : world H) :
  Cookie.exec (Cookie.escape key) (document_cookie (host w)) = Some raw ->
  Cookie.decode raw <> VNull ->
  host (snd (Cookie.touch key (Some 0) attributes w))
  = document_cookie_assign
      (entry key (Cookie.decode raw) ++ path_segment (touched w (Some 0) attributes))
      (host w).
Proof.
  intros He Hn.
  pose proof (get_found key _ (Cookie.Plain VNull) w He) as Hg.
  rewrite (touch_run _ _ _ _ _ Hg).
  assert (Hf : formatted key (Cookie.decode raw) w (touched w (Some 0) attributes)
               = entry key (Cookie.decode raw)
                 ++ path_segment (touched w (Some 0) attributes)).
  { unfold formatted, scope_segments, domain_segment, sameSite_segment, secure_segment,
      expiration, ttl_in_force.
    cbn [touched ttl expires domain sameSite secure nonempty Cookie._expires
         expires_segment Z.eqb].
    rewrite !app_nil_r. reflexivity. }
  destruct (Cookie.decode raw); try contradiction; cbn [snd after_set host];
    rewrite Hf; reflexivity.
Qed.

End Touching.

(** ** Removing *)

Section Removing.

Context {H : Type} `{Host H}.



End Removing.

(** ** A bare key *)

Section BareKeys.

Context {H : Type} `{Host H}.

Lemma exec_no_equals (key text : jsstring) :
  61%N ∉ text -> Cookie.exec key text = None.
Proof.
  intros Ht.
  assert (Hin : forall a b : jsstring, text = a ++ str "=" ++ b -> False).
  { intros a b ->. apply Ht. rewrite elem_of_app. right. left. }
  unfold Cookie.exec.
  destruct (Cookie.match_entry (Cookie.literal key) text) as [g|] eqn:He.
  { apply match_entry_inv in He as (rest & Hs & _). exfalso.
    exact (Hin _ _ Hs). }
  destruct (Cookie.match_after (Cookie.literal key) text) as [g|] eqn:Ha; [|reflexivity].
  apply match_after_inv in Ha as (b & sp & rest & Hs & _). exfalso.
  rewrite 3!app_assoc in Hs. exact (Hin _ _ Hs).
Qed.

(** X18.  A cookie string that is one piece without an equals sign, as a
    host gives back the bare key that [set] writes for [null]: [all] lists
    the piece as a key with the value [null], [count] is one, and yet [has]
    answers [false] and [get] returns its fallback for that key. *)
Theorem all_bare_key (text : jsstring) (fb : value) (w : world H) :
  text <> [] ->
  forallb key_unit text = true ->
  document_cookie (host w) = text ->
  Cookie.all w = (Normal [(text, VNull)], w)
  /\ Cookie.keys w = (Normal [text], w)
  /\ Cookie.count w = (Normal 1%nat, w)
  /\ Cookie.has text w = (Normal false, w)
  /\ Cookie.get text (Cookie.Plain fb) w
     = (Normal match fb with VUndefined => VNull | _ => fb end, w).
Proof.
  intros Hne Hu Ht.
  assert (Hunits : (59%N ∉ text) /\ (61%N ∉ text)).
  { clear -Hu. induction text as [|c text IH]; [split; apply not_elem_of_nil|].
    cbn [forallb] in Hu. apply andb_true_iff in Hu as [Hc Hu].
    destruct (IH Hu) as [H1 H2].
    unfold key_unit in Hc. apply andb_true_iff in Hc as [Ha Hb].
    apply negb_true_iff, N.eqb_neq in Ha, Hb.
    split; apply not_elem_of_cons; split; congruence. }
  destruct Hunits as [Hsemi Heq].
  assert (Hx : forall k, Cookie.exec k text = None)
    by (intros k; apply exec_no_equals, Heq).
  assert (Ha : Cookie.all w = (Normal [(text, VNull)], w)).
  { rewrite all_run, Ht. destruct text as [|c text]; [contradiction|].
    change (str "; ") with (59%N :: [32%N]). unfold JsString.split.
    rewrite split_from_piece by exact Hsemi. cbn [app].
    rewrite filter_cons_True by discriminate. rewrite filter_nil.
    cbn [fmap list_fmap]. unfold piece_key, JsString.split, read.
    change (str "=") with [61%N]. rewrite split_from_piece by exact Heq.
    cbn [app]. rewrite Hx. reflexivity. }
  split; [exact Ha|].
  split; [unfold Cookie.keys, bind; rewrite Ha; reflexivity|].
  split; [unfold Cookie.count, bind; rewrite Ha; reflexivity|].
  split.
  - rewrite has_run. unfold read. rewrite Ht, Hx. reflexivity.
  - rewrite get_run, Ht, Hx. destruct fb; reflexivity.
Qed.

End BareKeys.

(** ** The matcher and [set] *)

Section Matcher.

Context {H : Type} `{Host H}.

Lemma value_text_stringify (v : value) :
  match JSON.stringify v with Throw _ => False | Normal _ => True end ->
  v <> VNull ->
  Matchers.value_text v = Normal (Cookie._stringify v).
Proof.
  intros Hv Hn. destruct v as [| |[]|n|s|z| |l|ps]; try reflexivity;
    try contradiction.
  - unfold Matchers.value_text, Cookie._stringify.
    destruct (JSON.stringify (VArr l)) as [[t|]|e]; [reflexivity..|contradiction].
  - unfold Matchers.value_text, Cookie._stringify.
    destruct (JSON.stringify (VObj ps)) as [[t|]|e]; [reflexivity..|contradiction].
Qed.

Lemma includes_prefix (r p q : jsstring) :
  JsString.includes r (p ++ q) = true -> JsString.includes r p = true.
Proof.
  assert (Hs : forall s, JsString.startsWith s (p ++ q) = true ->
                         JsString.startsWith s p = true).
  { clear. induction p as [|c p IH]; intros s; [reflexivity|].
    destruct s as [|d s]; [discriminate|]. cbn [app JsString.startsWith].
    intros [Hc Hp]%andb_true_iff. rewrite Hc. apply IH. exact Hp. }
  induction r as [|c r IH]; cbn [JsString.includes].
  - rewrite !orb_false_r. apply Hs.
  - intros [Hh|Ht]%orb_true_iff.
    + rewrite (Hs _ Hh). reflexivity.
    + rewrite (IH Ht). apply orb_true_r.
Qed.

(** X19.  The matcher accepts what [set] wrote: for a value on which
    [JSON.stringify] does not throw, [toHaveCookie] without encoding passes
    on the string [set] returned for the same key and value. *)
Theorem toHaveCookie_after_set (key : jsstring) (v : value) (attributes : option ref)
    (cookie : jsstring) (w : world H) :
  match JSON.stringify v with Throw _ => False | Normal _ => True end ->
  fst (Cookie.set key v attributes w) = Normal cookie ->
  exists message,
    Matchers.toHaveCookie cookie key v false
    = Matchers.Returns (Matchers.MatcherResult true message).
Proof.
  intros Hv Hs.
  destruct (set_returns_entry _ _ _ _ _ Hs) as (rest & -> & _).
  pose proof (includes_here _ _ (startsWith_app (entry key v) rest)) as Hi.
  unfold Matchers.toHaveCookie.
  assert (Hd : v = VNull \/ v <> VNull) by (destruct v; auto; right; discriminate).
  destruct Hd as [->|Hn].
  - cbn [Matchers.value_text JSON.stringify JSON.serialize]. cbv beta iota zeta.
    change (JsString.includes (entry key VNull ++ rest) key = true) in Hi.
    rewrite Hi. eexists. reflexivity.
  - rewrite (value_text_stringify v Hv Hn). cbv beta iota zeta.
    assert (Hc : match v with
                 | VUndefined | VNull => key
                 | _ => key ++ str "=" ++ Cookie._stringify v
                 end = entry key v) by reflexivity.
    rewrite Hc, Hi. eexists. reflexivity.
Qed.

End Matcher.

(** X20.  The matcher is a test for a substring: when it passes for a
    string value it passes for every prefix of that value, so it does not
    tell [k=v] from [k=value]. *)
Theorem toHaveCookie_prefix (received key s t message : jsstring) :
  Matchers.toHaveCookie received key (VStr (s ++ t)) false
  = Matchers.Returns (Matchers.MatcherResult true message) ->
  exists message',
    Matchers.toHaveCookie received key (VStr s) false
    = Matchers.Returns (Matchers.MatcherResult true message').
Proof.
  unfold Matchers.toHaveCookie. cbn [Matchers.value_text]. cbv beta iota zeta.
  destruct (JsString.includes received (key ++ str "=" ++ s ++ t)) eqn:Hp;
    [intros _|discriminate].
  rewrite 2!app_assoc in Hp. apply includes_prefix in Hp.
  rewrite <- app_assoc in Hp. rewrite Hp. eexists. reflexivity.
Qed.

Lemma encode_unreserved (s : jsstring) :
  forallb Matchers.unreserved s = true -> Matchers.encodeURIComponent s = Some s.
Proof.
  induction s as [|c s IH]; [reflexivity|].
  cbn [forallb Matchers.encodeURIComponent]. intros [Hc Hs]%andb_true_iff.
  rewrite Hc, (IH Hs). reflexivity.
Qed.

(** X21.  Encoding changes nothing for a key and a value text made of
    letters, digits and the marks [-_.!~*'()]: the matcher then answers the
    same with and without [encode]. *)
Theorem toHaveCookie_encode_unreserved (received key : jsstring) (v : value)
    (text : jsstring) :
  Matchers.value_text v = Normal text ->
  forallb Matchers.unreserved key = true ->
  forallb Matchers.unreserved text = true ->
  Matchers.toHaveCookie received key v true
  = Matchers.toHaveCookie received key v false.
Proof.
  intros Hv Hk Ht. unfold Matchers.toHaveCookie. rewrite Hv. cbv zeta.
  rewrite (encode_unreserved key Hk), (encode_unreserved text Ht). reflexivity.
Qed.

(** ** The compiled build, and keys that are not checked *)

Section Build.

Context {H : Type} `{Host H}.

(** X22.  The compiled build's [get] is the source's [get] with the
    fallback [null], as the other methods call it.  The two agree on a key
    that is found; on a key that is not, the build returns [null] where the
    source returns the fallback given, or what the fallback function
    returns. *)
Theorem umd_get (key : jsstring) (w : world H) :
  Umd.get key w = Cookie.get key (Cookie.Plain VNull) w
  /\ (forall fb raw,
        Cookie.exec (Cookie.escape key) (document_cookie (host w)) = Some raw ->
        Cookie.get key fb w = Umd.get key w)
  /\ (Cookie.exec (Cookie.escape key) (document_cookie (host w)) = None ->
      Umd.get key w = (Normal VNull, w)
      /\ (forall v, v <> VUndefined ->
            Cookie.get key (Cookie.Plain v) w = (Normal v, w))
      /\ (forall f, fst (Cookie.get key (Cookie.Function f) w) = Normal (f tt))).
Proof.
  assert (Hu : Umd.get key w
               = match Cookie.exec (Cookie.escape key) (document_cookie (host w)) with
                 | Some raw => (Normal (Cookie.decode raw), w)
                 | None => (Normal VNull, w)
                 end).
  { unfold Umd.get. rewrite bind_read_host. destruct (Cookie.exec _ _); reflexivity. }
  split; [|split].
  - rewrite Hu, get_run. destruct (Cookie.exec _ _); reflexivity.
  - intros fb raw He. rewrite Hu, get_run, He. reflexivity.
  - intros He. rewrite Hu, He. split; [reflexivity|]. split.
    + intros v Hv. rewrite get_run, He. destruct v; try reflexivity. contradiction.
    + intros f. rewrite get_run, He. reflexivity.
Qed.

(** X23.  [set] does not check the key.  After [set] of a key that holds
    an equals sign, the part of the key before that sign reads back the rest
    of the key, the equals sign and the written text, up to the first
    semicolon. *)
Theorem set_key_with_equals (key rest : jsstring) (v : value)
    (attributes : option ref) (fb : Cookie.fallback) (cookie : jsstring)
    (w w2 : world H) :
  v <> VNull -> v <> VUndefined ->
  fst (Cookie.set (key ++ str "=" ++ rest) v attributes w) = Normal cookie ->
  document_cookie (host w2) = cookie ->
  Cookie.get key fb w2
  = (Normal (Cookie.decode
               (Cookie.until_semicolon (rest ++ str "=" ++ Cookie._stringify v))),
     w2).
Proof.
  intros Hn Hu Hs Ht.
  destruct (set_returns_entry _ _ _ _ _ Hs) as (tail & -> & Hr).
  rewrite (entry_defined _ v Hn Hu), <- !app_assoc in Ht.
  rewrite (get_head key _ fb w2 Ht).
  rewrite !app_assoc, until_semicolon_end by exact Hr. reflexivity.
Qed.

End Build.

(** ** The empty text *)

Section EmptyText.

(** [JSON.stringify] throws, a [TypeError], exactly on those values. *)
Lemma serialize_throws (v : value) :
  match JSON.serialize v with
  | Throw e => e = TypeError /\ unserializable v = true
  | Normal _ => unserializable v = false
  end.
Proof.
  induction v as [| |b|n|s|z| |l IH|ps IH] using value_induction;
    try (cbn; auto; fail).
  - destruct b; reflexivity.
  - rewrite serialize_array. cbn [unserializable].
    assert (Hl : match serialize_items l with
                 | Throw e => e = TypeError /\ existsb unserializable l = true
                 | Normal _ => existsb unserializable l = false
                 end).
    { induction IH as [|e l He _ IHl]; [reflexivity|].
      cbn [serialize_items existsb].
      destruct (JSON.serialize e) as [t|err].
      - rewrite He. destruct (serialize_items l); exact IHl.
      - destruct He as [-> ->]. auto. }
    destruct (serialize_items l); exact Hl.
  - rewrite serialize_object. cbn [unserializable].
    assert (Hl : match serialize_members ps with
                 | Throw e =>
                     e = TypeError
                     /\ existsb (fun kv => unserializable (snd kv)) ps = true
                 | Normal _ => existsb (fun kv => unserializable (snd kv)) ps = false
                 end).
    { induction IH as [|[k e] ps He _ IHl]; [reflexivity|].
      cbn [serialize_members existsb snd] in *.
      destruct (JSON.serialize e) as [t|err].
      - rewrite He. destruct (serialize_members ps); exact IHl.
      - destruct He as [-> ->]. auto. }
    destruct (serialize_members ps); exact Hl.
Qed.

(** X24.  When the encoder gives the empty text.  [#stringify] returns the
    empty string exactly for [null], [undefined], the empty string, and the
    values that hold a BigInt or a circular structure at any depth, the
    values on which [JSON.stringify] throws; every other value is written
    with a text that is not empty. *)
Theorem stringify_empty (v : value) :
  (unserializable v = true <-> JSON.stringify v = Throw TypeError)
  /\ (Cookie._stringify v = []
      <-> v = VNull \/ v = VUndefined \/ v = VStr [] \/ unserializable v = true).
Proof.
  pose proof (serialize_throws v) as Hs. unfold JSON.stringify.
  split.
  - destruct (JSON.serialize v) as [t|e].
    + rewrite Hs. split; discriminate.
    + destruct Hs as [-> ->]. split; reflexivity.
  - split.
    + intros He. destruct v as [| |[]|n|s|z| |l|ps]; auto;
        try discriminate He.
      * exfalso. destruct n as [m e| |[]]; try discriminate He.
        cbn [Cookie._stringify] in He.
        destruct (toString_head m e) as (c & t & Ht & _). congruence.
      * cbn [Cookie._stringify] in He. subst s. auto.
      * do 3 right. unfold Cookie._stringify, JSON.stringify in He.
        rewrite serialize_array in *.
        destruct (serialize_items l); [discriminate He|apply Hs].
      * do 3 right. unfold Cookie._stringify, JSON.stringify in He.
        rewrite serialize_object in *.
        destruct (serialize_members ps); [discriminate He|apply Hs].
    + intros [->|[->|[->|Hu]]]; try reflexivity.
      destruct v as [| |[]|n|s|z| |l|ps]; try discriminate Hu; try reflexivity;
        unfold Cookie._stringify, JSON.stringify;
        destruct (JSON.serialize _) as [t|e]; try reflexivity;
        rewrite Hs in Hu; discriminate Hu.
Qed.

End EmptyText.

(** ** Instances of the further properties *)

Lemma get_first_entry_witness :
  Cookie.get (str "a") (Cookie.Plain VNull)
    (sample_world None no_attributes 0 "a=1; k=true; a=2")
  = (Normal (VNum (Finite 1 0)), sample_world None no_attributes 0 "a=1; k=true; a=2").
Proof.
  exact (get_first_entry (str "a") (Cookie.Plain VNull) three_entries
           (sample_world None no_attributes 0 "a=1; k=true; a=2")
           eq_refl eq_refl eq_refl).
Defined.

Lemma all_entries_witness :
  Cookie.all (sample_world None no_attributes 0 "a=1; k=true; a=2")
  = (Normal [(str "a", VNum (Finite 1 0)); (str "k", VBool true);
             (str "a", VNum (Finite 1 0))],
     sample_world None no_attributes 0 "a=1; k=true; a=2").
Proof.
  exact (proj1 (all_entries three_entries
                  (sample_world None no_attributes 0 "a=1; k=true; a=2")
                  eq_refl eq_refl)).
Defined.

Lemma isEmpty_true_witness :
  Cookie.count (sample_world None no_attributes 0 "")
  = (Normal 0%nat, sample_world None no_attributes 0 "")
  /\ Cookie.clear (PathOnly None) (sample_world None no_attributes 0 "")
     = (Normal tt, sample_world None no_attributes 0 "").
Proof.
  pose proof (isEmpty_true (str "k") VNull (Cookie.Spread [str "k"]) (PathOnly None)
                (sample_world None no_attributes 0 "") eq_refl)
    as (_ & _ & _ & Hc & _ & _ & _ & Hr).
  split; [exact Hc|exact Hr].
Defined.


Lemma get_after_set_witness :
  Cookie.get (str "k") (Cookie.Plain VNull)
    (sample_world None no_attributes 0 "k=a;b; path=/")
  = (Normal (VStr (str "a")), sample_world None no_attributes 0 "k=a;b; path=/").
Proof.
  exact (get_after_set (str "k") (VStr (str "a;b")) (Some 1%positive)
           (Cookie.Plain VNull) (str "k=a;b; path=/")
           (sample_world None
              (Attributes None None (Some (str "/")) None None None) 0 "")
           (sample_world None no_attributes 0 "k=a;b; path=/")
           ltac:(discriminate) ltac:(discriminate) eq_refl eq_refl).
Defined.

Lemma get_set_round_trip_witness :
  Cookie.get (str "k") (Cookie.Plain VNull)
    (sample_world None no_attributes 0 "k=[1,true]; path=/")
  = (Normal (VArr [VNum (Finite 1 0); VBool true]),
     sample_world None no_attributes 0 "k=[1,true]; path=/").
Proof.
  exact (get_set_round_trip (str "k") (VArr [VNum (Finite 1 0); VBool true])
           (Some 1%positive) (Cookie.Plain VNull) (str "k=[1,true]; path=/")
           (sample_world None
              (Attributes None None (Some (str "/")) None None None) 0 "")
           (sample_world None no_attributes 0 "k=[1,true]; path=/")
           eq_refl eq_refl eq_refl eq_refl).
Defined.

Lemma set_invalid_date_witness :
  fst (Cookie.set (str "k") (VStr (str "v")) (Some 1%positive)
         (sample_world None expires_invalid 0 ""))
  = Normal (str "k=v; expires=Invalid Date").
Proof.
  exact (set_invalid_date (str "k") (VStr (str "v")) 1%positive expires_invalid
           (sample_world None expires_invalid 0 "") eq_refl eq_refl
           (or_introl eq_refl)).
Defined.

Lemma set_expires_string_witness :
  fst (Cookie.set (str "k") (VStr (str "v")) (Some 1%positive)
         (sample_world None expires_text 0 ""))
  = Normal (str "k=v")
  /\ expires <$> (heap (snd (Cookie.set (str "k") (VStr (str "v")) (Some 1%positive)
                               (sample_world None expires_text 0 ""))) !! 1%positive)
     = Some None.
Proof.
  exact (set_expires_string (str "k") (VStr (str "v")) 1%positive expires_text
           (str "tomorrow") (sample_world None expires_text 0 "") eq_refl eq_refl
           (or_introl eq_refl)).
Defined.

Lemma set_ttl_out_of_range_witness :
  fst (Cookie.set (str "k") (VStr (str "v")) (Some 1%positive)
         (sample_world (Some 8640000000000) no_attributes 1793556720000 ""))
  = Normal (str "k=v; expires=Invalid Date").
Proof.
  exact (set_ttl_out_of_range (str "k") (VStr (str "v")) 1%positive no_attributes
           8640000000000
           (sample_world (Some 8640000000000) no_attributes 1793556720000 "")
           eq_refl eq_refl ltac:(discriminate) eq_refl).
Defined.

Lemma touch_keeps_value_witness :
  assigned (host (snd (Cookie.touch (str "k") (Some 60) (PathOnly (Some (str "/")))
                         (sample_world None no_attributes 1793556720000
                            "a=1; k=[1.5,null]"))))
  = [str "k=[1.5,null]; expires=Sun, 01 Nov 2026 18:13:00 GMT; path=/"].
Proof.
  exact (f_equal assigned
           (proj2 (touch_keeps_value (str "k") (VArr [VNum (Finite 15 (-1)); VNull])
                     (Some 60) (PathOnly (Some (str "/")))
                     (sample_world None no_attributes 1793556720000 "a=1; k=[1.5,null]")
                     eq_refl eq_refl))).
Defined.

Lemma touch_absent_witness :
  Cookie.touch (str "k") (Some 60) (PathOnly None)
    (sample_world None no_attributes 0 "a=1; k=null")
  = (Normal tt, sample_world None no_attributes 0 "a=1; k=null").
Proof.
  exact (touch_absent (str "k") (Some 60) (PathOnly None)
           (sample_world None no_attributes 0 "a=1; k=null") (or_intror eq_refl)).
Defined.

Lemma touch_zero_witness :
  assigned (host (snd (Cookie.touch (str "k") (Some 0) (PathOnly None)
                         (sample_world (Some 60) no_attributes 1793556720000 "k=v"))))
  = [str "k=v"].
Proof.
  exact (f_equal assigned
           (touch_zero (str "k") (str "v") (PathOnly None)
              (sample_world (Some 60) no_attributes 1793556720000 "k=v")
              eq_refl ltac:(discriminate))).
Defined.

Lemma all_bare_key_witness :
  Cookie.all (sample_world None no_attributes 0 "k")
  = (Normal [(str "k", VNull)], sample_world None no_attributes 0 "k")
  /\ Cookie.has (str "k") (sample_world None no_attributes 0 "k")
     = (Normal false, sample_world None no_attributes 0 "k").
Proof.
  pose proof (all_bare_key (str "k") VNull (sample_world None no_attributes 0 "k")
                ltac:(discriminate) eq_refl eq_refl) as (Ha & _ & _ & Hh & _).
  split; [exact Ha|exact Hh].
Defined.

(** The scenarios of the test suite for [all], [keys], [count], [hasAny]
    and [clear]. *)
Example listing_scenarios :
  fst (Cookie.keys (sample_world None no_attributes 0 "$key1=$value1; $key2=$value2"))
  = Normal [str "$key1"; str "$key2"]
  /\ fst (Cookie.count (sample_world None no_attributes 0 "$key1=$value1; $key2=$value2"))
     = Normal 2%nat
  /\ fst (Cookie.hasAny (Cookie.OneArray [str "$key3"; str "$key2"])
            (sample_world None no_attributes 0 "$key1=$value1; $key2=$value2"))
     = Normal true
  /\ assigned (host (snd (Cookie.clear (PathOnly None)
                           (sample_world None no_attributes 0 "$key1=1; $key2=2"))))
     = [str "$key2=; expires=Thu, 01 Jan 1970 00:00:00 GMT";
        str "$key1=; expires=Thu, 01 Jan 1970 00:00:00 GMT"].
Proof. repeat split; vm_compute; reflexivity. Qed.

Lemma toHaveCookie_after_set_witness :
  exists message,
    Matchers.toHaveCookie (str "k=[1,true]; path=/") (str "k")
      (VArr [VNum (Finite 1 0); VBool true]) false
    = Matchers.Returns (Matchers.MatcherResult true message).
Proof.
  exact (toHaveCookie_after_set (str "k") (VArr [VNum (Finite 1 0); VBool true])
           (Some 1%positive) (str "k=[1,true]; path=/")
           (sample_world None
              (Attributes None None (Some (str "/")) None None None) 0 "")
           I eq_refl).
Defined.

Lemma toHaveCookie_prefix_witness :
  exists message,
    Matchers.toHaveCookie (str "k=value") (str "k") (VStr (str "v")) false
    = Matchers.Returns (Matchers.MatcherResult true message).
Proof.
  exact (toHaveCookie_prefix (str "k=value") (str "k") (str "v") (str "alue")
           (str "Expected document.cookie not to contain cookie "
            ++ [34%N] ++ str "k=value" ++ [34%N])
           eq_refl).
Defined.

Lemma toHaveCookie_encode_unreserved_witness :
  Matchers.toHaveCookie (str "k=v") (str "k") (VStr (str "v")) true
  = Matchers.toHaveCookie (str "k=v") (str "k") (VStr (str "v")) false.
Proof.
  exact (toHaveCookie_encode_unreserved (str "k=v") (str "k") (VStr (str "v"))
           (str "v") eq_refl eq_refl eq_refl).
Defined.

Lemma set_key_with_equals_witness :
  Cookie.get (str "a") (Cookie.Plain VNull) (sample_world None no_attributes 0 "a=b=c")
  = (Normal (VStr (str "b=c")), sample_world None no_attributes 0 "a=b=c").
Proof.
  exact (set_key_with_equals (str "a") (str "b") (VStr (str "c")) None
           (Cookie.Plain VNull) (str "a=b=c")
           (sample_world None no_attributes 0 "")
           (sample_world None no_attributes 0 "a=b=c")
           ltac:(discriminate) ltac:(discriminate) eq_refl eq_refl).
Defined.
